(** * PyInstaller.utils.osx: Mach-O inspection and patching

    A shallow embedding of [PyInstaller/utils/osx.py] together with the
    properties of its version codec, architecture resolver, link-edit
    patcher and architecture gate.

    Layout of the development:
    - [Py]: the fragments of Python the module relies on (exceptions,
      true division followed by [math.ceil], [min] on tuples);
    - [Macholib]: the data model the module receives from [macholib]
      (headers, load commands, the fat table) and its serialiser;
    - [Osx]: the functions of [osx.py], one definition per function;
    - the theorems. *)

From Stdlib Require Import ZArith String Ascii Lia List Bool.
From Stdlib.Strings Require Import Byte.
From stdpp Require Import base list strings gmap.
Import ListNotations.

Local Open Scope string_scope.
Local Open Scope Z_scope.

(* ===================================================================== *)
(** * Python fragments *)
(* ===================================================================== *)

Module Py.

(** Exceptions raised by the module or by the calls it makes. *)
Inductive exn : Type :=
| AssertionError (msg : string)
| ValueError (msg : string)
| IndexError
| AttributeError
| FileNotFoundError
| OverflowError
| UnboundLocalError
| struct_error
| InvalidBinaryError (msg : string)
| IncompatibleBinaryArchError (msg : string)
| SystemError (msg : string).

Inductive result (A : Type) : Type :=
| Ok (a : A)
| Raise (e : exn).
Arguments Ok {A} a.
Arguments Raise {A} e.

Definition rbind {A B} (r : result A) (k : A -> result B) : result B :=
  match r with
  | Ok a => k a
  | Raise e => Raise e
  end.

(** [assert cond, msg] *)
Definition assert_ (cond : bool) (msg : string) : result unit :=
  if cond then Ok tt else Raise (AssertionError msg).

(** ** [int / int] and [math.ceil]

    [n / p] on two ints is the binary64 number nearest to the exact
    quotient (ties to even).  The module only divides by a page size,
    a power of two, so the quotient is the nearest binary64 to [n]
    itself, scaled exactly.  [round53 n] is that nearest binary64 to the
    integer [n]: [n] itself below 2^53, otherwise [n] rounded to 53
    significant bits. *)
Definition round53 (n : Z) : Z :=
  let a := Z.abs n in
  if a <? 2 ^ 53 then n
  else
    let s := Z.log2 a - 52 in
    let q := Z.shiftr a s in
    let r := Z.land a (Z.ones s) in
    let half := Z.shiftl 1 (s - 1) in
    let q' := if (half <? r) || ((r =? half) && Z.odd q) then q + 1 else q in
    Z.sgn n * Z.shiftl q' s.

(** [math.ceil(n / p)] for a power of two [p]; the division raises
    [OverflowError] when the quotient exceeds the binary64 range. *)
Definition ceil_truediv (n p : Z) : result Z :=
  let m := round53 n in
  if 2 ^ 1024 * p <=? Z.abs m then Raise OverflowError
  else Ok (- ((- m) / p)).

(** ** Tuples of three ints and [min] *)
Definition triplet : Type := Z * Z * Z.

(** [a < b] on tuples: decided by the first position where they differ. *)
Definition triplet_ltb (a b : triplet) : bool :=
  let '(a1, a2, a3) := a in
  let '(b1, b2, b3) := b in
  if a1 =? b1 then (if a2 =? b2 then a3 <? b3 else a2 <? b2) else a1 <? b1.

(** [min(iterable)]: keeps the first item and replaces it whenever a later
    item is strictly smaller; an empty iterable is a [ValueError]. *)
Fixpoint min_from (cur : triplet) (l : list triplet) : triplet :=
  match l with
  | [] => cur
  | x :: l' => min_from (if triplet_ltb x cur then x else cur) l'
  end.

Definition min (l : list triplet) : result triplet :=
  match l with
  | [] => Raise (ValueError "min() arg is an empty sequence")
  | x :: l' => Ok (min_from x l')
  end.

(** [s.startswith(prefix)] *)
Definition startswith (s pre : string) : bool := String.prefix pre s.

(** The line feed that the escape [\n] of a string literal stands for. *)
Definition LF : string := String "010"%char EmptyString.

(** [x in l] for a list of strings *)
Definition str_in (x : string) (l : list string) : bool :=
  existsb (String.eqb x) l.

End Py.
Export Py.

(* ===================================================================== *)
(** * The macholib data model *)
(* ===================================================================== *)

Module Macholib.

(** The load-command identifiers the module imports from [macholib.mach_o];
    every other identifier is kept as its number. *)
Inductive lc : Type :=
| LC_SEGMENT_64
| LC_SYMTAB
| LC_VERSION_MIN_MACOSX
| LC_BUILD_VERSION
| LC_CODE_SIGNATURE
| LC_OTHER (n : Z).

Definition lc_eqb (a b : lc) : bool :=
  match a, b with
  | LC_SEGMENT_64, LC_SEGMENT_64
  | LC_SYMTAB, LC_SYMTAB
  | LC_VERSION_MIN_MACOSX, LC_VERSION_MIN_MACOSX
  | LC_BUILD_VERSION, LC_BUILD_VERSION
  | LC_CODE_SIGNATURE, LC_CODE_SIGNATURE => true
  | LC_OTHER n, LC_OTHER m => n =? m
  | _, _ => false
  end.

(** [segment_command_64]: [segname] is 16 bytes, the sizes and offsets are
    unsigned 64-bit fields. *)
Record segment_command_64 : Type := {
  segname : list byte;
  vmaddr : Z;
  vmsize : Z;
  fileoff : Z;
  filesize : Z
}.

(** [symtab_command]: four unsigned 32-bit fields. *)
Record symtab_command : Type := {
  symoff : Z;
  nsyms : Z;
  stroff : Z;
  strsize : Z
}.

(** [version_min_command]: two unsigned 32-bit fields. *)
Record version_min_command : Type := {
  version : Z;
  vm_sdk : Z
}.

(** [build_version_command]: four unsigned 32-bit fields. *)
Record build_version_command : Type := {
  platform : Z;
  minos : Z;
  bv_sdk : Z;
  ntools : Z
}.

(** [linkedit_data_command]: two unsigned 32-bit fields. *)
Record linkedit_data_command : Type := {
  dataoff : Z;
  datasize : Z
}.

(** One entry of [header.commands]: the command structure that goes with
    the identifier; commands of other kinds are carried as their bytes. *)
Inductive command : Type :=
| Segment64 (s : segment_command_64)
| Symtab (s : symtab_command)
| VersionMin (v : version_min_command)
| BuildVersion (b : build_version_command)
| CodeSignature (l : linkedit_data_command)
| OtherCommand (n : Z) (payload : list byte).

(** [cmd[0].cmd] *)
Definition cmd (c : command) : lc :=
  match c with
  | Segment64 _ => LC_SEGMENT_64
  | Symtab _ => LC_SYMTAB
  | VersionMin _ => LC_VERSION_MIN_MACOSX
  | BuildVersion _ => LC_BUILD_VERSION
  | CodeSignature _ => LC_CODE_SIGNATURE
  | OtherCommand n _ => LC_OTHER n
  end.

(** [mach_header_64], the two fields the module reads. *)
Record mach_header : Type := {
  cputype : Z;
  cpusubtype : Z
}.

(** [MachOHeader]: one architecture slice. *)
Record MachOHeader : Type := {
  offset : Z;
  header : mach_header;
  commands : list command
}.

Inductive fat_magic : Type := FAT_MAGIC | FAT_MAGIC_64.

(** [fat_arch] and [fat_arch64] have the same fields; [offset] and [size]
    are 32 bits wide under [FAT_MAGIC] and 64 under [FAT_MAGIC_64]. *)
Record fat_arch : Type := {
  fa_cputype : Z;
  fa_cpusubtype : Z;
  fa_offset : Z;
  fa_size : Z;
  fa_align : Z
}.

Record fat_header : Type := {
  magic : fat_magic;
  nfat_arch : Z
}.

(** The object [MachO(filename)] returns: [fat] is [None] for a thin
    binary. *)
Record MachO : Type := {
  filename : string;
  fat : option fat_header;
  headers : list MachOHeader
}.

(** ** Files

    What a file holds, as far as the module can observe it through
    [macholib]:
    - [Image]: a file [macholib] parses, that is the fat table (when there
      is one) followed by the slices, every load command of which is of a
      kind [macholib] knows ([OtherCommand] stands for the known kinds the
      module does not look at);
    - [NotMachO]: bytes that are no Mach-O image, either fewer than the four
      bytes of a magic number or bytes that [macholib] refuses with a
      [ValueError] (a magic number that is not a Mach-O one, a load command
      of an unknown kind).

    Files that are cut short inside a header or a load command are outside
    the model. *)
Inductive Content : Type :=
| NotMachO
| Image (fat_table : option (fat_magic * list fat_arch)) (slices : list MachOHeader).

Record File : Type := {
  st_size : Z;
  content : Content
}.

(** Records handed to the logger. *)
Inductive LogRecord : Type :=
| LogWarning (fmt : string) (cmd_args : list string) (retcode : Z) (stdout stderr : string)
| LogDebug (fmt : string) (args : list string).

Record World : Type := {
  fs : gmap string File;
  log : list LogRecord
}.

(** ** Serialisation ranges

    Every field is packed with [struct.pack], which raises [struct.error]
    on a value outside the range of its format. *)
Definition u32 (x : Z) : bool := (0 <=? x) && (x <? 2 ^ 32).
Definition u64 (x : Z) : bool := (0 <=? x) && (x <? 2 ^ 64).

Definition packable (c : command) : bool :=
  match c with
  | Segment64 s =>
      u64 (vmaddr s) && u64 (vmsize s) && u64 (fileoff s) && u64 (filesize s)
  | Symtab s => u32 (symoff s) && u32 (nsyms s) && u32 (stroff s) && u32 (strsize s)
  | VersionMin v => u32 (version v) && u32 (vm_sdk v)
  | BuildVersion b => u32 (platform b) && u32 (minos b) && u32 (bv_sdk b) && u32 (ntools b)
  | CodeSignature l => u32 (dataoff l) && u32 (datasize l)
  | OtherCommand _ _ => true
  end.

Definition packable_arch (m : fat_magic) (a : fat_arch) : bool :=
  match m with
  | FAT_MAGIC => u32 (fa_offset a) && u32 (fa_size a) && u32 (fa_align a)
  | FAT_MAGIC_64 => u64 (fa_offset a) && u64 (fa_size a) && u32 (fa_align a)
  end.

End Macholib.
Export Macholib.

(* ===================================================================== *)
(** * Effects: the files and the log *)
(* ===================================================================== *)

Module Effects.

(** A computation reads and writes the world and returns or raises. *)
Definition M (A : Type) : Type := World -> result A * World.

Definition ret {A} (a : A) : M A := fun w => (Ok a, w).
Definition raise {A} (e : exn) : M A := fun w => (Raise e, w).
Definition lift {A} (r : result A) : M A := fun w => (r, w).

Definition bind {A B} (c : M A) (k : A -> M B) : M B :=
  fun w =>
    match c w with
    | (Ok a, w') => k a w'
    | (Raise e, w') => (Raise e, w')
    end.

(** [try: c except ValueError as e: raise e'] *)
Definition except_ValueError {A} (c : M A) (e' : exn) : M A :=
  fun w =>
    match c w with
    | (Raise (ValueError _), w') => (Raise e', w')
    | r => r
    end.

End Effects.
Export Effects.

Declare Scope py_scope.
Delimit Scope py_scope with py.
Notation "x <- c ;; k" := (bind c (fun x => k))
  (at level 100, c at next level, right associativity) : py_scope.
Notation "c ;; k" := (bind c (fun _ => k))
  (at level 100, right associativity) : py_scope.
Notation "x <-- r ;; k" := (rbind r (fun x => k))
  (at level 100, r at next level, right associativity) : py_scope.
Local Open Scope py_scope.

Module Seq.

(** [[x for x in l if p x]]: the selected objects, each with its position
    in [l], which is what identifies the object when it is later
    assigned to. *)
Fixpoint where_from {A} (p : A -> bool) (k : nat) (l : list A) : list (nat * A) :=
  match l with
  | [] => []
  | x :: l' =>
      if p x then (k, x) :: where_from p (S k) l' else where_from p (S k) l'
  end.

Definition where_ {A} (p : A -> bool) (l : list A) : list (nat * A) :=
  where_from p 0 l.

(** [l[i]] for [i >= 0]. *)
Definition index {A} (l : list A) (i : nat) : result A :=
  match l !! i with
  | Some x => Ok x
  | None => Raise IndexError
  end.

(** Position of [l[-1]]. *)
Definition last_pos {A} (l : list A) : nat := Nat.pred (length l).

(** [l[-1]] *)
Definition index_last {A} (l : list A) : result A :=
  match l with
  | [] => Raise IndexError
  | _ => index l (last_pos l)
  end.

(** [[f x for x in l]] when [f] may raise: the first failure ends it. *)
Fixpoint map_result {A B} (f : A -> result B) (l : list A) : result (list B) :=
  match l with
  | [] => Ok []
  | x :: l' =>
      y <-- f x ;;
      ys <-- map_result f l' ;;
      Ok (y :: ys)
  end.

(** Objects serialised one after the other over what the file held:
    the first one that does not pack raises, with the earlier ones already
    in the file. *)
Fixpoint write_seq {A} (packs : A -> bool) (new old : list A) : result unit * list A :=
  match new with
  | [] => (Ok tt, old)
  | x :: new' =>
      if packs x then
        let '(r, rest) := write_seq packs new' (tail old) in
        (r, x :: rest)
      else (Raise struct_error, old)
  end.

End Seq.
Export Seq.

Module MacholibIO.

(** [os.path.getsize(path)] *)
Definition getsize (path : string) : M Z :=
  fun w =>
    match fs w !! path with
    | Some f => (Ok (st_size f), w)
    | None => (Raise FileNotFoundError, w)
    end.

Definition load_fat_header (ft : fat_magic * list fat_arch) : fat_header :=
  {| magic := fst ft; nfat_arch := Z.of_nat (length (snd ft)) |}.

(** [MachO(path)].  The reader starts with
    [struct.unpack('>I', fh.read(4))], a [struct.error] on a file of fewer
    than four bytes; on other bytes that are no Mach-O image it raises
    [ValueError]; the slices come in file order. *)
Definition MachO_load (path : string) : M MachO :=
  fun w =>
    match fs w !! path with
    | None => (Raise FileNotFoundError, w)
    | Some f =>
        match content f with
        | NotMachO =>
            if st_size f <? 4 then (Raise struct_error, w)
            else (Raise (ValueError "Unknown Mach-O header"), w)
        | Image ft sl =>
            (Ok {| filename := path; fat := load_fat_header <$> ft; headers := sl |}, w)
        end
    end.

Definition slices_of (c : Content) : list MachOHeader :=
  match c with
  | Image _ sl => sl
  | NotMachO => []
  end.

Definition fat_table_of (c : Content) : option (fat_magic * list fat_arch) :=
  match c with
  | Image ft _ => ft
  | NotMachO => None
  end.

(** [MachOHeader.write]: the commands of one slice, in order. *)
Definition write_header (new : MachOHeader) (old : list command) : result unit * MachOHeader :=
  let '(r, cmds) := write_seq packable (commands new) old in
  (r, {| offset := offset new; header := header new; commands := cmds |}).

(** [MachO.write]: every slice in turn; the fat table is not written. *)
Fixpoint write_headers (new old : list MachOHeader) : result unit * list MachOHeader :=
  match new with
  | [] => (Ok tt, old)
  | h :: new' =>
      let '(r, h') := write_header h (match old with o :: _ => commands o | [] => [] end) in
      match r with
      | Ok _ =>
          let '(r', rest) := write_headers new' (tail old) in
          (r', h' :: rest)
      | Raise e => (Raise e, h' :: tail old)
      end
  end.

(** [with open(path, 'rb+') as fp: m.write(fp)].  Only the packing of the
    fields is modelled.  [macholib] also refuses, with a [ValueError], to
    write a header that reaches beyond the lowest section offset of its
    slice; sections are not part of this model, so a success of
    [MachO_write] stands for a success of the write-back only on slices
    whose header fits. *)
Definition MachO_write (path : string) (m : MachO) : M unit :=
  fun w =>
    match fs w !! path with
    | None => (Raise FileNotFoundError, w)
    | Some f =>
        let '(r, sl) := write_headers (headers m) (slices_of (content f)) in
        let f' := {| st_size := st_size f;
                     content := Image (fat_table_of (content f)) sl |} in
        (r, {| fs := <[path := f']> (fs w); log := log w |})
    end.

(** [fat_header.from_fileobj(fp)] followed by the [fat_arch] (or
    [fat_arch64]) entries it announces. *)
Definition read_fat (path : string) : M (fat_magic * list fat_arch) :=
  fun w =>
    match fs w !! path with
    | None => (Raise FileNotFoundError, w)
    | Some f =>
        match fat_table_of (content f) with
        | Some ft => (Ok ft, w)
        | None => (Raise UnboundLocalError, w)
        end
    end.

(** [fp.seek(0); fat.to_fileobj(fp); for arch in archs: arch.to_fileobj(fp)] *)
Definition write_fat (path : string) (m : fat_magic) (archs : list fat_arch) : M unit :=
  fun w =>
    match fs w !! path with
    | None => (Raise FileNotFoundError, w)
    | Some f =>
        let old := match fat_table_of (content f) with
                   | Some ft => snd ft
                   | None => []
                   end in
        let '(r, archs') := write_seq (packable_arch m) archs old in
        let f' := {| st_size := st_size f;
                     content := Image (Some (m, archs')) (slices_of (content f)) |} in
        (r, {| fs := <[path := f']> (fs w); log := log w |})
    end.

(** [logger.warning(...)] and [logger.debug(...)] *)
Definition logger_emit (r : LogRecord) : M unit :=
  fun w => (Ok tt, {| fs := fs w; log := log w ++ [r] |}).

End MacholibIO.
Export MacholibIO.

(* ===================================================================== *)
(** * PyInstaller/utils/osx.py *)
(* ===================================================================== *)

Module Osx.

(** ** Attribute access on the command structure [cmd[1]] *)

Definition get_sdk (c : command) : result Z :=
  match c with
  | VersionMin v => Ok (vm_sdk v)
  | BuildVersion b => Ok (bv_sdk b)
  | _ => Raise AttributeError
  end.

Definition set_sdk (c : command) (x : Z) : result command :=
  match c with
  | VersionMin v => Ok (VersionMin {| version := version v; vm_sdk := x |})
  | BuildVersion b =>
      Ok (BuildVersion {| platform := platform b; minos := minos b;
                          bv_sdk := x; ntools := ntools b |})
  | _ => Raise AttributeError
  end.

Definition get_version (c : command) : result Z :=
  match c with
  | VersionMin v => Ok (version v)
  | _ => Raise AttributeError
  end.

Definition get_minos (c : command) : result Z :=
  match c with
  | BuildVersion b => Ok (minos b)
  | _ => Raise AttributeError
  end.

Definition as_segment (c : command) : result segment_command_64 :=
  match c with
  | Segment64 s => Ok s
  | _ => Raise AttributeError
  end.

Definition as_symtab (c : command) : result symtab_command :=
  match c with
  | Symtab s => Ok s
  | _ => Raise AttributeError
  end.

Definition set_strsize (s : symtab_command) (x : Z) : symtab_command :=
  {| symoff := symoff s; nsyms := nsyms s; stroff := stroff s; strsize := x |}.

Definition set_filesize (s : segment_command_64) (x : Z) : segment_command_64 :=
  {| segname := segname s; vmaddr := vmaddr s; vmsize := vmsize s;
     fileoff := fileoff s; filesize := x |}.

Definition set_vmsize (s : segment_command_64) (x : Z) : segment_command_64 :=
  {| segname := segname s; vmaddr := vmaddr s; vmsize := x;
     fileoff := fileoff s; filesize := filesize s |}.

Definition set_size (a : fat_arch) (x : Z) : fat_arch :=
  {| fa_cputype := fa_cputype a; fa_cpusubtype := fa_cpusubtype a;
     fa_offset := fa_offset a; fa_size := x; fa_align := fa_align a |}.

Definition set_commands (h : MachOHeader) (cmds : list command) : MachOHeader :=
  {| offset := offset h; header := header h; commands := cmds |}.

Definition set_headers (m : MachO) (hs : list MachOHeader) : MachO :=
  {| filename := filename m; fat := fat m; headers := hs |}.

Fixpoint bytes_eqb (a b : list byte) : bool :=
  match a, b with
  | [], [] => true
  | x :: a', y :: b' => Byte.eqb x y && bytes_eqb a' b'
  | _, _ => false
  end.

(** ** [_find_version_cmd] *)
Definition is_version_cmd (c : command) : bool :=
  lc_eqb (cmd c) LC_BUILD_VERSION || lc_eqb (cmd c) LC_VERSION_MIN_MACOSX.

Definition _find_version_cmd (header : MachOHeader) : result (nat * command) :=
  let version_cmd := where_ is_version_cmd (commands header) in
  _ <-- assert_ (length version_cmd =? 1)%nat
        "Expected exactly one LC_BUILD_VERSION or LC_VERSION_MIN_MACOSX command!" ;;
  index version_cmd 0.

(** ** [_hex_triplet] *)
Definition _hex_triplet (version : Z) : triplet :=
  let major := Z.shiftr (Z.land version 0xFF0000) 16 in
  let minor := Z.shiftr (Z.land version 0xFF00) 8 in
  let revision := Z.land version 0xFF in
  (major, minor, revision).

(** ** [get_macos_sdk_version] *)
Definition get_macos_sdk_version (filename : string) : M triplet :=
  binary <- MachO_load filename ;;
  header <- lift (index (headers binary) 0) ;;
  version_cmd <- lift (_find_version_cmd header) ;;
  sdk <- lift (get_sdk (snd version_cmd)) ;;
  ret (_hex_triplet sdk).

(** ** [macosx_version_min] *)

(** The body of the loop over [MachO(filename).headers]. *)
Definition header_min_version (header : MachOHeader) : result Z :=
  c <-- _find_version_cmd header ;;
  if lc_eqb (cmd (snd c)) LC_VERSION_MIN_MACOSX
  then get_version (snd c)
  else get_minos (snd c).

Fixpoint collect_versions (hs : list MachOHeader) (versions : list Z) : result (list Z) :=
  match hs with
  | [] => Ok versions
  | header :: hs' =>
      v <-- header_min_version header ;;
      collect_versions hs' (versions ++ [v])
  end.

Definition macosx_version_min (filename : string) : M triplet :=
  m <- MachO_load filename ;;
  versions <- lift (collect_versions (headers m) []) ;;
  lift (Py.min (map _hex_triplet versions)).

(** ** [set_macos_sdk_version] *)
Definition set_macos_sdk_version (filename : string) (major minor revision : Z) : M unit :=
  lift (assert_ ((0 <=? major) && (major <=? 255)) "Invalid major version value!") ;;
  lift (assert_ ((0 <=? minor) && (minor <=? 255)) "Invalid minor version value!") ;;
  lift (assert_ ((0 <=? revision) && (revision <=? 255)) "Invalid revision value!") ;;
  binary <- MachO_load filename ;;
  header <- lift (index (headers binary) 0) ;;
  version_cmd <- lift (_find_version_cmd header) ;;
  c' <- lift (set_sdk (snd version_cmd)
                (Z.lor (Z.lor (Z.shiftl major 16) (Z.shiftl minor 8)) revision)) ;;
  let header' := set_commands header (<[fst version_cmd := c']> (commands header)) in
  let binary' := set_headers binary (<[0%nat := header']> (headers binary)) in
  MachO_write (Macholib.filename binary') binary'.

(** ** [_get_arch_string] *)
Definition _get_arch_string (header : mach_header) : result string :=
  let cputype := cputype header in
  let cpusubtype := Z.land (cpusubtype header) 0x0FFFFFFF in
  if cputype =? Z.lor 0x01000000 7 then
    if cpusubtype =? 8 then Ok "x86_64h" else Ok "x86_64"
  else if cputype =? Z.lor 0x01000000 12 then
    if cpusubtype =? 2 then Ok "arm64e" else Ok "arm64"
  else if cputype =? 7 then Ok "i386"
  else Raise (AssertionError "Unhandled architecture!").

(** ** [fix_exe_for_code_signing] *)
Definition __LINKEDIT_NAME : list byte :=
  list_byte_of_string "__LINKEDIT" ++ [x00; x00; x00; x00; x00; x00].

Definition is_linkedit (c : command) : bool :=
  lc_eqb (cmd c) LC_SEGMENT_64 &&
  match c with
  | Segment64 s => bytes_eqb (segname s) __LINKEDIT_NAME
  | _ => false
  end.

(** [cmd[0].cmd == LC_CODE_SIGNATURE] and [cmd[0].cmd == LC_SYMTAB] *)
Definition is_signature (c : command) : bool := lc_eqb (cmd c) LC_CODE_SIGNATURE.
Definition is_symtab (c : command) : bool := lc_eqb (cmd c) LC_SYMTAB.

(** The part under [if executable.fat:]. *)
Definition fix_fat_header (filename : string) (file_size : Z) : M unit :=
  ft <- read_fat filename ;;
  let archs := snd ft in
  arch <- lift (index_last archs) ;;
  let arch' := set_size arch (file_size - fa_offset arch) in
  write_fat filename (fst ft) (<[last_pos archs := arch']> archs).

Definition fix_exe_for_code_signing (filename : string) : M unit :=
  file_size <- getsize filename ;;
  executable <- MachO_load filename ;;
  header <- lift (index_last (headers executable)) ;;
  let sign_sec := where_ is_signature (commands header) in
  lift (assert_ (length sign_sec =? 0)%nat "Executable contains code signature!") ;;
  let linkedit_seg := where_ is_linkedit (commands header) in
  lift (assert_ (length linkedit_seg =? 1)%nat "Expected exactly one __LINKEDIT segment!") ;;
  linkedit_ref <- lift (index linkedit_seg 0) ;;
  linkedit_seg <- lift (as_segment (snd linkedit_ref)) ;;
  let symtab_sec := where_ is_symtab (commands header) in
  lift (assert_ (length symtab_sec =? 1)%nat "Expected exactly one SYMTAB section!") ;;
  symtab_ref <- lift (index symtab_sec 0) ;;
  symtab_sec <- lift (as_symtab (snd symtab_ref)) ;;
  let symtab_sec := set_strsize symtab_sec (file_size - (offset header + stroff symtab_sec)) in
  let linkedit_seg :=
    set_filesize linkedit_seg (file_size - (offset header + fileoff linkedit_seg)) in
  arch <- lift (_get_arch_string (Macholib.header header)) ;;
  let page_size := if startswith arch "arm64" then 0x4000 else 0x1000 in
  pages <- lift (ceil_truediv (filesize linkedit_seg) page_size) ;;
  let linkedit_seg := set_vmsize linkedit_seg (pages * page_size) in
  let cmds := <[fst linkedit_ref := Segment64 linkedit_seg]>
                (<[fst symtab_ref := Symtab symtab_sec]> (commands header)) in
  let executable' :=
    set_headers executable
      (<[last_pos (headers executable) := set_commands header cmds]> (headers executable)) in
  MachO_write filename executable' ;;
  match fat executable with
  | Some _ => fix_fat_header filename file_size
  | None => ret tt
  end.

(** ** [get_binary_architectures] *)
Definition get_binary_architectures (filename : string) : M (bool * list string) :=
  executable <- except_ValueError (MachO_load filename)
                  (InvalidBinaryError "Invalid Mach-O binary!") ;;
  archs <- lift (map_result (fun hdr => _get_arch_string (header hdr)) (headers executable)) ;;
  ret (match fat executable with Some _ => true | None => false end, archs).

Section WithCommands.

(** [PyInstaller.compat.exec_command_all]: runs the command line and
    returns its exit status and what it printed; what the command does to
    the files is up to the command. *)
Variable exec_command_all : list string -> M (Z * string * string).

(** ** [convert_binary_to_thin_arch] *)
Definition convert_binary_to_thin_arch (filename thin_arch : string) : M unit :=
  let cmd_args := ["lipo"; "-thin"; thin_arch; filename; "-output"; filename] in
  r <- exec_command_all cmd_args ;;
  let '(retcode, stdout, stderr) := r in
  if negb (retcode =? 0) then
    logger_emit (LogWarning ("lipo command (%r) failed with error code %d!" +:+ LF +:+
                             "stdout: %r" +:+ LF +:+ "stderr: %r")
                   cmd_args retcode stdout stderr) ;;
    raise (SystemError "lipo failure!")
  else ret tt.

(** ** [binary_to_target_arch] *)
Definition falsy (s : option string) : bool :=
  match s with
  | None => true
  | Some s => String.eqb s ""
  end.

Definition binary_to_target_arch (filename target_arch : string)
    (display_name : option string) : M unit :=
  let display_name := if falsy display_name then filename else default "" display_name in
  r <- get_binary_architectures filename ;;
  let '(is_fat, archs) := r in
  if String.eqb target_arch "universal2" then
    if negb is_fat then
      raise (IncompatibleBinaryArchError (display_name +:+ " is not a fat binary!"))
    else ret tt
  else
    if is_fat then
      if negb (str_in target_arch archs) then
        raise (IncompatibleBinaryArchError
                 (display_name +:+ " does not contain slice for " +:+ target_arch +:+ "!"))
      else
        logger_emit (LogDebug "Converting fat binary %s (%s) to thin binary (%s)"
                       [filename; display_name; target_arch]) ;;
        convert_binary_to_thin_arch filename target_arch
    else
      if negb (str_in target_arch archs) then
        arch0 <- lift (index archs 0) ;;
        raise (IncompatibleBinaryArchError
                 (display_name +:+ " is incompatible with target arch " +:+ target_arch
                  +:+ " (has arch: " +:+ arch0 +:+ ")!"))
      else ret tt.

End WithCommands.

End Osx.
Export Osx.

(* ===================================================================== *)
(** * Well-formed files

    What the reader guarantees of a file it has just parsed: every field
    holds a value of its on-disk width, a thin binary has one slice at
    offset 0, and a fat binary has one slice per table entry, at the
    entry's offset. *)
(* ===================================================================== *)

Definition wf_header (h : MachOHeader) : bool :=
  (0 <=? offset h) && forallb packable (commands h).

Definition wf_content (c : Content) : bool :=
  match c with
  | NotMachO => true
  | Image None sl =>
      forallb wf_header sl && forallb (fun h => offset h =? 0) sl &&
      (length sl =? 1)%nat
  | Image (Some (m, archs)) sl =>
      forallb wf_header sl && forallb (packable_arch m) archs &&
      bool_decide (map offset sl = map fa_offset archs)
  end.

(* ===================================================================== *)
(** * Vocabulary of the statements *)
(* ===================================================================== *)

(** Page size of an architecture name. *)
Definition page_size_of (arch : string) : Z :=
  if startswith arch "arm64" then 0x4000 else 0x1000.

(** Lexicographic order on triplets. *)
Definition triplet_le (a b : triplet) : Prop :=
  let '(a1, a2, a3) := a in
  let '(b1, b2, b3) := b in
  a1 < b1 \/ (a1 = b1 /\ (a2 < b2 \/ (a2 = b2 /\ a3 <= b3))).

(** Two stored version values that agree on bits 0 to 23. *)
Definition same_low24 (v v' : Z) : Prop :=
  Z.land v 0xFFFFFF = Z.land v' 0xFFFFFF.

Inductive cmd_low24 : command -> command -> Prop :=
| low24_version_min v v' :
    same_low24 (version v) (version v') ->
    same_low24 (vm_sdk v) (vm_sdk v') ->
    cmd_low24 (VersionMin v) (VersionMin v')
| low24_build_version b b' :
    platform b = platform b' -> ntools b = ntools b' ->
    same_low24 (minos b) (minos b') ->
    same_low24 (bv_sdk b) (bv_sdk b') ->
    cmd_low24 (BuildVersion b) (BuildVersion b')
| low24_same c : cmd_low24 c c.

Definition header_low24 (h h' : MachOHeader) : Prop :=
  offset h = offset h' /\ header h = header h' /\
  Forall2 cmd_low24 (commands h) (commands h').

Inductive content_low24 : Content -> Content -> Prop :=
| low24_image ft sl sl' :
    Forall2 header_low24 sl sl' ->
    content_low24 (Image ft sl) (Image ft sl').

(** Every command of the slice packs. *)
Definition all_packable (h : MachOHeader) : bool := forallb packable (commands h).

(** The two slices have as many commands. *)
Definition same_shape (n o : MachOHeader) : Prop :=
  length (commands n) = length (commands o).

(** The minimum-OS field of a slice: the [version] field when the slice's
    one version command is a [VersionMin], the [minos] field when it is a
    [BuildVersion]. *)
Inductive slice_min_os : MachOHeader -> Z -> Prop :=
| min_os_of_version_min h i v :
    where_ is_version_cmd (commands h) = [(i, VersionMin v)] ->
    slice_min_os h (version v)
| min_os_of_build_version h i b :
    where_ is_version_cmd (commands h) = [(i, BuildVersion b)] ->
    slice_min_os h (minos b).

(** The SDK field of a slice: the [sdk] field of the slice's one version
    command, of either kind. *)
Inductive slice_sdk : MachOHeader -> Z -> Prop :=
| sdk_of_version_min h i v :
    where_ is_version_cmd (commands h) = [(i, VersionMin v)] ->
    slice_sdk h (vm_sdk v)
| sdk_of_build_version h i b :
    where_ is_version_cmd (commands h) = [(i, BuildVersion b)] ->
    slice_sdk h (bv_sdk b).

(** Two results that raise the same exception or return related values. *)
Definition rel_result {A} (R : A -> A -> Prop) (r r' : result A) : Prop :=
  match r, r' with
  | Ok a, Ok a' => R a a'
  | Raise e, Raise e' => e = e'
  | _, _ => False
  end.

Definition ref_low24 (x y : nat * command) : Prop :=
  fst x = fst y /\ cmd_low24 (snd x) (snd y).

(** A slice carries a code signature. *)
Definition has_signature (h : MachOHeader) : Prop :=
  exists l, In (CodeSignature l) (commands h).

(** The commands of the slice once the patcher has assigned the three
    sizes. *)
Definition patched_symtab (file_size off : Z) (sym : symtab_command) : symtab_command :=
  {| symoff := symoff sym; nsyms := nsyms sym; stroff := stroff sym;
     strsize := file_size - (off + stroff sym) |}.

Definition patched_segment (file_size off vm : Z) (seg : segment_command_64)
    : segment_command_64 :=
  {| segname := segname seg; vmaddr := vmaddr seg; vmsize := vm;
     fileoff := fileoff seg; filesize := file_size - (off + fileoff seg) |}.

Definition patched_slice (file_size vm : Z) (h : MachOHeader)
    (i : nat) (seg : segment_command_64) (j : nat) (sym : symtab_command) : MachOHeader :=
  set_commands h
    (<[i := Segment64 (patched_segment file_size (offset h) vm seg)]>
       (<[j := Symtab (patched_symtab file_size (offset h) sym)]> (commands h))).

(** The fat table once the patcher has assigned the size of its last
    entry. *)
Definition patched_archs (file_size : Z) (archs : list fat_arch) (arch : fat_arch)
    : list fat_arch :=
  <[last_pos archs := set_size arch (file_size - fa_offset arch)]> archs.

(** The message of the patcher's signature check. *)
Definition signed_msg : string := "Executable contains code signature!".

(** The names of the slices of a binary, when every one resolves. *)
Definition slice_names (sl : list MachOHeader) : result (list string) :=
  map_result (fun hdr => _get_arch_string (header hdr)) sl.

(** The name the messages use for the binary. *)
Definition shown_name (path : string) (display_name : option string) : string :=
  if falsy display_name then path else default "" display_name.

(** The command line of the thinning tool. *)
Definition lipo_args (path arch : string) : list string :=
  ["lipo"; "-thin"; arch; path; "-output"; path].

(** A collaborator that succeeds without touching anything. *)
Definition lipo_succeeds : list string -> M (Z * string * string) :=
  fun _ w => (Ok (0, "", ""), w).

(** A collaborator that fails with the given status and output. *)
Definition lipo_fails (retcode : Z) (stdout stderr : string)
    : list string -> M (Z * string * string) :=
  fun _ w => (Ok (retcode, stdout, stderr), w).

(* ===================================================================== *)
(** * Sample binaries *)
(* ===================================================================== *)

Module Samples.

Definition linkedit : segment_command_64 :=
  {| segname := __LINKEDIT_NAME; vmaddr := 0x100008000; vmsize := 0x4000;
     fileoff := 0x8000; filesize := 0x100 |}.

Definition text_segment : segment_command_64 :=
  {| segname := list_byte_of_string "__TEXT" ++ repeat x00 10;
     vmaddr := 0x100000000; vmsize := 0x8000; fileoff := 0; filesize := 0x8000 |}.

Definition symtab : symtab_command :=
  {| symoff := 0x8000; nsyms := 4; stroff := 0x8040; strsize := 0xC0 |}.

(** macOS 10.15 as minimum, SDK 11.3. *)
Definition build_version : build_version_command :=
  {| platform := 1; minos := 0x000A0F00; bv_sdk := 0x000B0300; ntools := 0 |}.

(** macOS 10.9 as minimum, SDK 10.14.6. *)
Definition version_min : version_min_command :=
  {| version := 0x000A0900; vm_sdk := 0x000A0E06 |}.

Definition signature : linkedit_data_command :=
  {| dataoff := 0x8100; datasize := 0x200 |}.

Definition arm64_slice (off : Z) : MachOHeader :=
  {| offset := off;
     header := {| cputype := 0x0100000C; cpusubtype := 0 |};
     commands := [Segment64 text_segment; Segment64 linkedit;
                  BuildVersion build_version; Symtab symtab] |}.

Definition x86_64_slice (off : Z) : MachOHeader :=
  {| offset := off;
     header := {| cputype := 0x01000007; cpusubtype := 3 |};
     commands := [Segment64 text_segment; Segment64 linkedit;
                  VersionMin version_min; Symtab symtab] |}.

Definition signed_slice (off : Z) : MachOHeader :=
  {| offset := off;
     header := {| cputype := 0x0100000C; cpusubtype := 0 |};
     commands := [Segment64 text_segment; Segment64 linkedit;
                  BuildVersion build_version; Symtab symtab;
                  CodeSignature signature] |}.

(** A 64-bit PowerPC slice (cpu type [0x01000000 | 18]). *)
Definition ppc64_slice (off : Z) : MachOHeader :=
  {| offset := off;
     header := {| cputype := 0x01000012; cpusubtype := 0 |};
     commands := [Segment64 text_segment; Segment64 linkedit;
                  VersionMin version_min; Symtab symtab] |}.

Definition fat_entry (cpu off sz : Z) : fat_arch :=
  {| fa_cputype := cpu; fa_cpusubtype := 0; fa_offset := off; fa_size := sz;
     fa_align := 14 |}.

(** Thin arm64 executable, 0x8100 bytes plus 0xF00 appended bytes. *)
Definition thin_arm64 : File :=
  {| st_size := 0x9000; content := Image None [arm64_slice 0] |}.

Definition thin_x86_64 : File :=
  {| st_size := 0x9000; content := Image None [x86_64_slice 0] |}.

Definition thin_signed : File :=
  {| st_size := 0x9000; content := Image None [signed_slice 0] |}.

Definition thin_ppc64 : File :=
  {| st_size := 0x9000; content := Image None [ppc64_slice 0] |}.

(** universal2 executable: x86_64 at 0x4000, arm64 at 0x10000, with appended
    bytes after the arm64 slice. *)
Definition fat_universal2 : File :=
  {| st_size := 0x19000;
     content := Image (Some (FAT_MAGIC,
                             [fat_entry 0x01000007 0x4000 0x8100;
                              fat_entry 0x0100000C 0x10000 0x8100]))
                  [x86_64_slice 0x4000; arm64_slice 0x10000] |}.

(** A fat binary with a PowerPC slice next to an x86_64 one. *)
Definition fat_ppc : File :=
  {| st_size := 0x19000;
     content := Image (Some (FAT_MAGIC,
                             [fat_entry 0x01000012 0x4000 0x8100;
                              fat_entry 0x01000007 0x10000 0x8100]))
                  [ppc64_slice 0x4000; x86_64_slice 0x10000] |}.

(** [thin_arm64] with bits 24-31 of both version fields set. *)
Definition thin_arm64_high_bits : File :=
  {| st_size := 0x9000;
     content := Image None
       [{| offset := 0;
           header := {| cputype := 0x0100000C; cpusubtype := 0 |};
           commands := [Segment64 text_segment; Segment64 linkedit;
                        BuildVersion {| platform := 1; minos := 0xAB0A0F00;
                                        bv_sdk := 0xFF0B0300; ntools := 0 |};
                        Symtab symtab] |}] |}.

(** A text file of twelve bytes and an empty file. *)
Definition text_file : File := {| st_size := 12; content := NotMachO |}.

Definition empty_file : File := {| st_size := 0; content := NotMachO |}.

Definition world_of (path : string) (f : File) : World :=
  {| fs := {[ path := f ]}; log := [] |}.

End Samples.

(** The gate's decision to run the thinning tool: the binary is fat, the
    target is a concrete architecture, and one of the slices has it. *)
Definition needs_thinning (path target : string) (w : World) : bool :=
  match fst (get_binary_architectures path w) with
  | Ok (true, archs) => negb (String.eqb target "universal2") && str_in target archs
  | _ => false
  end.

(** The world with the gate's debug line logged. *)
Definition with_thinning_logged (path target : string) (display_name : option string)
    (w : World) : World :=
  {| fs := fs w;
     log := log w ++ [LogDebug "Converting fat binary %s (%s) to thin binary (%s)"
                        [path; shown_name path display_name; target]] |}.

(** Binaries that break a structural expectation of the module. *)
Module BrokenSamples.

(** No version command at all. *)
Definition thin_no_version : File :=
  {| st_size := 0x9000;
     content := Image None
       [{| offset := 0;
           header := {| cputype := 0x0100000C; cpusubtype := 0 |};
           commands := [Segment64 Samples.text_segment; Segment64 Samples.linkedit;
                        Symtab Samples.symtab] |}] |}.

(** Two __LINKEDIT segments. *)
Definition thin_two_linkedit : File :=
  {| st_size := 0x9000;
     content := Image None
       [{| offset := 0;
           header := {| cputype := 0x0100000C; cpusubtype := 0 |};
           commands := [Segment64 Samples.linkedit; Segment64 Samples.linkedit;
                        BuildVersion Samples.build_version; Symtab Samples.symtab] |}] |}.

(** No symbol table. *)
Definition thin_no_symtab : File :=
  {| st_size := 0x9000;
     content := Image None
       [{| offset := 0;
           header := {| cputype := 0x0100000C; cpusubtype := 0 |};
           commands := [Segment64 Samples.text_segment; Segment64 Samples.linkedit;
                        BuildVersion Samples.build_version] |}] |}.

End BrokenSamples.

(** [w'] differs from [w] at most in what the file at [path] holds: same
    log, same other files, and the file at [path] is there or not as
    before, with the size it had. *)
Definition same_elsewhere (path : string) (w w' : World) : Prop :=
  log w' = log w /\
  (forall p, p <> path -> fs w' !! p = fs w !! p) /\
  st_size <$> fs w' !! path = st_size <$> fs w !! path.

(** Two slices the readers cannot tell apart. *)
Definition reads_alike (h' h : MachOHeader) : Prop :=
  header h' = header h /\ _find_version_cmd h' = _find_version_cmd h.

(** Two results of a list that raise the same exception or return lists
    that are permutations of each other. *)
Definition perm_result {A} (r r' : result (list A)) : Prop :=
  match r, r' with
  | Ok a, Ok b => Permutation a b
  | Raise e, Raise e' => e = e'
  | _, _ => False
  end.

(* ===================================================================== *)
(** * The rest of osx.py: package-manager prefixes and codesign *)
(* ===================================================================== *)

Module PosixPath.

(** [p.rfind('/')]: the position of the last slash, -1 without one. *)
Fixpoint rfind_from (k : Z) (p : string) (found : Z) : Z :=
  match p with
  | EmptyString => found
  | String c p' => rfind_from (k + 1) p' (if Ascii.eqb c "/" then k else found)
  end.

Definition rfind_sep (p : string) : Z := rfind_from 0 p (-1).

(** [head == '/' * len(head)] *)
Fixpoint all_sep (s : string) : bool :=
  match s with
  | EmptyString => true
  | String c s' => Ascii.eqb c "/" && all_sep s'
  end.

(** [head.rstrip('/')] *)
Fixpoint rstrip_sep (s : string) : string :=
  match s with
  | EmptyString => EmptyString
  | String c s' =>
      let r := rstrip_sep s' in
      if Ascii.eqb c "/" && String.eqb r "" then EmptyString else String c r
  end.

(** [posixpath.dirname] *)
Definition dirname (p : string) : string :=
  let i := rfind_sep p + 1 in
  let head := String.substring 0 (Z.to_nat i) p in
  if negb (String.eqb head "") && negb (all_sep head) then rstrip_sep head else head.

End PosixPath.

(** A path component: no slash in it. *)
Fixpoint no_sep (s : string) : bool :=
  match s with
  | EmptyString => true
  | String c s' => negb (Ascii.eqb c "/") && no_sep s'
  end.

(** The string is not empty and its last character is no slash. *)
Fixpoint ends_in_name (s : string) : bool :=
  match s with
  | EmptyString => false
  | String c EmptyString => negb (Ascii.eqb c "/")
  | String _ s' => ends_in_name s'
  end.

(** The codesign command lines. *)
Definition remove_signature_args (filename : string) : list string :=
  ["codesign"; "--remove"; "--all-architectures"; filename].

Definition sign_args (filename : string) (identity entitlements_file : option string)
    (deep : bool) : list string :=
  (["codesign"; "-s"; if falsy identity then "-" else default "" identity;
    "--force"; "--all-architectures"; "--timestamp"]
   ++ (if falsy identity then [] else ["--options=runtime"])
   ++ (if falsy entitlements_file then []
       else ["--entitlements"; default "" entitlements_file])
   ++ (if deep then ["--deep"] else [])
   ++ [filename])%list.

(** What both codesign helpers make of the tool's return. *)
Definition codesign_outcome (cmd_args : list string)
    (r : result (Z * string * string) * World) : result unit * World :=
  match r with
  | (Ok (retcode, stdout, stderr), w1) =>
      if retcode =? 0 then (Ok tt, w1)
      else (Raise (SystemError "codesign failure!"),
            {| fs := fs w1;
               log := log w1 ++
                      [LogWarning
                         ("codesign command (%r) failed with error code %d!" +:+ LF +:+
                          "stdout: %r" +:+ LF +:+ "stderr: %r")
                         cmd_args retcode stdout stderr] |})
  | (Raise e, w1) => (Raise e, w1)
  end.

(** The world with one more debug line. *)
Definition with_debug (fmt : string) (args : list string) (w : World) : World :=
  {| fs := fs w; log := log w ++ [LogDebug fmt args] |}.

Module OsxEnv.

(** What the prefix functions return or raise: [os.path.dirname(None)] is a
    [TypeError]. *)
Inductive outcome (A : Type) : Type :=
| Returned (a : A)
| RaisedTypeError.
Arguments Returned {A} a.
Arguments RaisedTypeError {A}.

Section WithEnvironment.

(** [shutil.which]: the path of a command found on the search path, [None]
    when there is none; [PyInstaller.compat.base_prefix]. *)
Variable which : string -> option string.
Variable base_prefix : string.

(** [os.path.dirname(os.path.dirname(shutil.which(tool)))] *)
Definition tool_prefix (tool : string) : outcome string :=
  match which tool with
  | None => RaisedTypeError
  | Some prefix => Returned (PosixPath.dirname (PosixPath.dirname prefix))
  end.

(** ** [get_homebrew_prefix] and [get_macports_prefix] *)
Definition get_homebrew_prefix : outcome string := tool_prefix "brew".
Definition get_macports_prefix : outcome string := tool_prefix "port".

(** [if env_prefix and base_prefix.startswith(env_prefix): return True] *)
Definition prefix_matches (env_prefix : string) : bool :=
  negb (String.eqb env_prefix "") && startswith base_prefix env_prefix.

(** ** [is_homebrew_env] *)
Definition is_homebrew_env : outcome bool :=
  match get_homebrew_prefix with
  | RaisedTypeError => RaisedTypeError
  | Returned env_prefix => Returned (prefix_matches env_prefix)
  end.

(** ** [is_macports_env] *)
Definition is_macports_env : outcome bool :=
  match get_macports_prefix with
  | RaisedTypeError => RaisedTypeError
  | Returned env_prefix => Returned (prefix_matches env_prefix)
  end.

End WithEnvironment.

End OsxEnv.

Module OsxSign.

Section WithCodesign.

Variable exec_command_all : list string -> M (Z * string * string).

(** The end of both codesign helpers: a non-zero status is logged and
    raised. *)
Definition codesign_check (cmd_args : list string) (r : Z * string * string) : M unit :=
  let '(retcode, stdout, stderr) := r in
  if negb (retcode =? 0) then
    logger_emit (LogWarning
                   ("codesign command (%r) failed with error code %d!" +:+ LF +:+
                    "stdout: %r" +:+ LF +:+ "stderr: %r")
                   cmd_args retcode stdout stderr) ;;
    raise (SystemError "codesign failure!")
  else ret tt.

(** ** [remove_signature_from_binary] *)
Definition remove_signature_from_binary (filename : string) : M unit :=
  logger_emit (LogDebug "Removing signature from file %r" [filename]) ;;
  let cmd_args := ["codesign"; "--remove"; "--all-architectures"; filename] in
  r <- exec_command_all cmd_args ;;
  codesign_check cmd_args r.

(** ** [sign_binary] *)
Definition sign_binary (filename : string) (identity entitlements_file : option string)
    (deep : bool) : M unit :=
  let extra_args : list string := [] in
  let '(identity, extra_args) :=
    if falsy identity then ("-", extra_args)
    else (default "" identity, (extra_args ++ ["--options=runtime"])%list) in
  let extra_args :=
    if negb (falsy entitlements_file)
    then ((extra_args ++ ["--entitlements"]) ++ [default "" entitlements_file])%list
    else extra_args in
  let extra_args := if deep then (extra_args ++ ["--deep"])%list else extra_args in
  logger_emit (LogDebug "Signing file %r" [filename]) ;;
  let cmd_args :=
    (["codesign"; "-s"; identity; "--force"; "--all-architectures"; "--timestamp"]
       ++ extra_args ++ [filename])%list in
  r <- exec_command_all cmd_args ;;
  codesign_check cmd_args r.

End WithCodesign.

End OsxSign.
Export PosixPath OsxEnv OsxSign.

(* ===================================================================== *)
(** * Facts about the Python fragments *)
(* ===================================================================== *)

Section PyFacts.

Lemma round53_small (n : Z) : Z.abs n < 2 ^ 53 -> round53 n = n.
Proof.
  intros H. unfold round53.
  destruct (Z.ltb_spec (Z.abs n) (2 ^ 53)); [reflexivity | lia].
Qed.

(** Below 2^53 the division is exact, so [math.ceil] of it is the integer
    ceiling. *)
Lemma ceil_truediv_exact (n p : Z) :
  0 <= n < 2 ^ 53 -> 0 < p ->
  ceil_truediv n p = Ok (- ((- n) / p)).
Proof.
  intros Hn Hp. unfold ceil_truediv.
  rewrite round53_small by lia.
  destruct (Z.leb_spec (2 ^ 1024 * p) (Z.abs n)) as [H|H]; [|reflexivity].
  exfalso.
  assert (2 ^ 53 < 2 ^ 1024) by (apply Z.pow_lt_mono_r; lia).
  nia.
Qed.

(** From 2^53 on the division rounds: [(2**53 + 1) / 4096] is the float
    [2.0**41], so the rounded-up size would fall short of the dividend. *)
Lemma ceil_truediv_inexact : ceil_truediv (2 ^ 53 + 1) 0x1000 = Ok (2 ^ 41).
Proof. reflexivity. Qed.

(** The integer ceiling times [p] is the least multiple of [p] that is at
    least [n]. *)
Lemma ceil_mul_least (n p : Z) :
  0 < p ->
  let v := - ((- n) / p) * p in
  n <= v /\ v < n + p /\ forall k, n <= k * p -> v <= k * p.
Proof.
  intros Hp v. subst v.
  pose proof (Z.div_mod (- n) p ltac:(lia)) as Hdm.
  pose proof (Z.mod_pos_bound (- n) p Hp) as Hb.
  set (q := (- n) / p) in *.
  repeat split; try nia.
  intros k Hk.
  assert (- k <= q) by (apply Z.div_le_lower_bound; nia).
  nia.
Qed.

Lemma triplet_ltb_spec (a b : triplet) :
  triplet_ltb a b = false <-> triplet_le b a.
Proof.
  destruct a as [[a1 a2] a3], b as [[b1 b2] b3]. unfold triplet_ltb, triplet_le.
  destruct (Z.eqb_spec a1 b1), (Z.eqb_spec a2 b2);
    rewrite ?Z.ltb_ge; lia.
Qed.

Lemma triplet_le_refl (a : triplet) : triplet_le a a.
Proof. destruct a as [[a1 a2] a3]. unfold triplet_le. lia. Qed.

Lemma triplet_le_trans (a b c : triplet) :
  triplet_le a b -> triplet_le b c -> triplet_le a c.
Proof.
  destruct a as [[a1 a2] a3], b as [[b1 b2] b3], c as [[c1 c2] c3].
  unfold triplet_le. lia.
Qed.

Lemma triplet_ltb_le (a b : triplet) : triplet_ltb a b = true -> triplet_le a b.
Proof.
  destruct a as [[a1 a2] a3], b as [[b1 b2] b3]. unfold triplet_ltb, triplet_le.
  destruct (Z.eqb_spec a1 b1), (Z.eqb_spec a2 b2);
    rewrite ?Z.ltb_lt; lia.
Qed.

(** [min_from] returns an item it was given, below all of them. *)
Lemma min_from_spec (l : list triplet) (cur : triplet) :
  let m := min_from cur l in
  In m (cur :: l) /\ forall x, In x (cur :: l) -> triplet_le m x.
Proof.
  revert cur. induction l as [|y l IH]; intros cur; simpl.
  - split; [now left|]. intros x [<-|[]]. apply triplet_le_refl.
  - specialize (IH (if triplet_ltb y cur then y else cur)).
    simpl in IH. destruct IH as [Hin Hle].
    destruct (triplet_ltb y cur) eqn:E.
    + split.
      * destruct Hin as [<-|Hin]; [right; now left | right; now right].
      * intros x [<-|[<-|Hx]].
        -- eapply triplet_le_trans; [apply Hle; now left|].
           now apply triplet_ltb_le.
        -- apply Hle. now left.
        -- apply Hle. now right.
    + split.
      * destruct Hin as [<-|Hin]; [now left | right; now right].
      * intros x [<-|[<-|Hx]].
        -- apply Hle. now left.
        -- eapply triplet_le_trans; [apply Hle; now left|].
           now apply triplet_ltb_spec.
        -- apply Hle. now right.
Qed.

End PyFacts.

(* ===================================================================== *)
(** * Facts about selections and sequential writes *)
(* ===================================================================== *)

Section SeqFacts.

Context {A : Type}.
Implicit Types (p : A -> bool) (l : list A).

Lemma where_from_sound p k l i c :
  In (i, c) (where_from p k l) ->
  (k <= i)%nat /\ l !! (i - k)%nat = Some c /\ p c = true.
Proof.
  revert k. induction l as [|x l IH]; intros k; simpl; [tauto|].
  destruct (p x) eqn:E; simpl.
  - intros [Heq|Hin].
    + inversion Heq; subst. rewrite Nat.sub_diag. auto.
    + apply IH in Hin as (Hk & Hl & Hp).
      replace (i - k)%nat with (S (i - S k)) by lia. simpl. split; [lia|auto].
  - intros Hin. apply IH in Hin as (Hk & Hl & Hp).
    replace (i - k)%nat with (S (i - S k)) by lia. simpl. split; [lia|auto].
Qed.

Lemma where_sound p l i c :
  In (i, c) (where_ p l) -> l !! i = Some c /\ p c = true.
Proof.
  intros H. apply where_from_sound in H as (_ & Hl & Hp).
  rewrite Nat.sub_0_r in Hl. auto.
Qed.

Lemma where_from_complete p k l i c :
  l !! i = Some c -> p c = true -> In ((k + i)%nat, c) (where_from p k l).
Proof.
  revert k i. induction l as [|x l IH]; intros k i; simpl; [discriminate|].
  destruct i as [|i]; simpl.
  - intros [= ->] ->. rewrite Nat.add_0_r. now left.
  - intros Hl Hp. replace (k + S i)%nat with (S k + i)%nat by lia.
    destruct (p x); [right|]; now apply IH.
Qed.

(** Nothing is selected exactly when no element satisfies the test. *)
Lemma where_nil p l :
  where_ p l = [] <-> forall c, In c l -> p c = false.
Proof.
  unfold where_. generalize 0%nat.
  induction l as [|x l IH]; intros k; simpl.
  - split; [intros _ c []|reflexivity].
  - destruct (p x) eqn:E.
    + split; [discriminate|]. intros H. specialize (H x (or_introl eq_refl)). congruence.
    + rewrite IH. split.
      * intros H c [<-|Hc]; auto.
      * intros H c Hc. apply H. now right.
Qed.

(** Assigning to the object at position [i] an object that passes the
    test exactly when the old one did changes the selection at [i] only. *)
Lemma where_from_insert p k l i c c' :
  l !! i = Some c -> p c' = p c ->
  where_from p k (<[i := c']> l) =
  map (fun x => if (fst x =? k + i)%nat then (fst x, c') else x) (where_from p k l).
Proof.
  revert k i. induction l as [|x l IH]; intros k i; simpl; [discriminate|].
  destruct i as [|i]; simpl.
  - intros [= ->] Hp. rewrite Hp.
    assert (Hrest : forall l0 k0, (k < k0)%nat ->
              where_from p k0 l0 =
              map (fun x => if (fst x =? k + 0)%nat then (fst x, c') else x)
                (where_from p k0 l0)).
    { induction l0 as [|y l0 IH0]; intros k0 Hk; simpl; [reflexivity|].
      destruct (p y); simpl.
      - destruct (Nat.eqb_spec k0 (k + 0)); [lia|]. f_equal. apply IH0. lia.
      - apply IH0. lia. }
    destruct (p c); simpl.
    + rewrite Nat.add_0_r, Nat.eqb_refl. f_equal.
      rewrite (Hrest l (S k)) at 1 by lia. now rewrite Nat.add_0_r.
    + rewrite (Hrest l (S k)) at 1 by lia. reflexivity.
  - intros Hl Hp. rewrite (IH (S k) i Hl Hp).
    replace (S k + i)%nat with (k + S i)%nat by lia.
    destruct (p x); simpl; [|reflexivity].
    destruct (Nat.eqb_spec k (k + S i)); [lia|reflexivity].
Qed.

Lemma where_insert_single p l i c c' :
  where_ p l = [(i, c)] -> p c' = true ->
  where_ p (<[i := c']> l) = [(i, c')].
Proof.
  intros Hw Hp.
  assert (Hin : In (i, c) (where_ p l)) by (rewrite Hw; now left).
  apply where_sound in Hin as [Hl Hc].
  unfold where_ in *. rewrite (where_from_insert p 0 l i c c' Hl) by congruence.
  rewrite Hw. simpl. now rewrite Nat.eqb_refl.
Qed.

Lemma where_insert_other p l i c c' :
  l !! i = Some c -> p c = false -> p c' = false ->
  where_ p (<[i := c']> l) = where_ p l.
Proof.
  intros Hl Hc Hc'. unfold where_.
  rewrite (where_from_insert p 0 l i c c' Hl) by congruence.
  rewrite <- (map_id (where_from p 0 l)) at 2.
  apply map_ext_in. intros [j x] Hin. simpl.
  destruct (Nat.eqb_spec j i) as [->|]; [|reflexivity].
  apply where_from_sound in Hin as (_ & Hl' & Hp).
  rewrite Nat.sub_0_r in Hl'. congruence.
Qed.

(** A selection of length one is a single reference. *)
Lemma length_one {B} (l : list B) :
  (length l =? 1)%nat = true -> exists x, l = [x].
Proof.
  destruct l as [|x [|y l]]; simpl; try discriminate. eauto.
Qed.

Lemma length_zero {B} (l : list B) :
  (length l =? 0)%nat = true <-> l = [].
Proof. destruct l; simpl; split; congruence. Qed.

(** ** Sequential writes *)

Lemma write_seq_ok (packs : A -> bool) (new old : list A) :
  forallb packs new = true -> length new = length old ->
  write_seq packs new old = (Ok tt, new).
Proof.
  revert old. induction new as [|x new IH]; intros old; simpl.
  - destruct old; [reflexivity|discriminate].
  - intros [Hx Hnew]%andb_true_iff Hlen. rewrite Hx.
    destruct old as [|y old]; [discriminate|]. simpl.
    rewrite IH by (auto; simpl in Hlen; lia). reflexivity.
Qed.

Lemma write_seq_ok_inv (packs : A -> bool) (new old res : list A) :
  write_seq packs new old = (Ok tt, res) -> forallb packs new = true.
Proof.
  revert old res. induction new as [|x new IH]; intros old res; simpl; [reflexivity|].
  destruct (packs x); [|discriminate].
  destruct (write_seq packs new (tail old)) as [r rest] eqn:E.
  intros [= -> <-]. simpl. eauto.
Qed.

End SeqFacts.

Section WriteFacts.

Lemma write_headers_ok (new old : list MachOHeader) :
  forallb all_packable new = true -> Forall2 same_shape new old ->
  write_headers new old = (Ok tt, new).
Proof.
  intros Hp Hs. induction Hs as [|n o new old Hno Hs IH]; simpl; [reflexivity|].
  simpl in Hp. apply andb_true_iff in Hp as [Hn Hnew].
  unfold write_header. rewrite write_seq_ok by assumption.
  rewrite (IH Hnew). destruct n; reflexivity.
Qed.

Lemma write_headers_ok_inv (new old res : list MachOHeader) :
  write_headers new old = (Ok tt, res) -> forallb all_packable new = true.
Proof.
  revert old res. induction new as [|n new IH]; intros old res; simpl; [reflexivity|].
  unfold write_header.
  destruct (write_seq packable (commands n) _) as [r cmds] eqn:E.
  destruct r as [[]|e]; [|discriminate].
  destruct (write_headers new (tail old)) as [r' rest] eqn:E'.
  intros [= -> <-].
  apply write_seq_ok_inv in E. unfold all_packable at 1. rewrite E. simpl. eauto.
Qed.

Lemma same_shape_refl (l : list MachOHeader) : Forall2 same_shape l l.
Proof. induction l; constructor; auto. reflexivity. Qed.

Lemma same_shape_insert (l : list MachOHeader) (k : nat) (h h' : MachOHeader) :
  l !! k = Some h -> same_shape h' h -> Forall2 same_shape (<[k := h']> l) l.
Proof.
  revert k. induction l as [|x l IH]; intros k; [discriminate|].
  destruct k as [|k]; simpl.
  - intros [= ->] Hs. constructor; [assumption|apply same_shape_refl].
  - intros Hl Hs. constructor; [reflexivity|]. now apply IH.
Qed.

Lemma MachO_write_ok (path : string) (m : MachO) (w : World) f ft sl :
  fs w !! path = Some f -> content f = Image ft sl ->
  forallb all_packable (headers m) = true ->
  Forall2 same_shape (headers m) sl ->
  MachO_write path m w =
  (Ok tt, {| fs := <[path := {| st_size := st_size f;
                                content := Image ft (headers m) |}]> (fs w);
             log := log w |}).
Proof.
  intros Hf Hc Hp Hs. unfold MachO_write. rewrite Hf, Hc. simpl slices_of.
  now rewrite (write_headers_ok _ _ Hp Hs).
Qed.

Lemma MachO_write_ok_inv (path : string) (m : MachO) (w w' : World) :
  MachO_write path m w = (Ok tt, w') ->
  forallb all_packable (headers m) = true.
Proof.
  unfold MachO_write. destruct (fs w !! path) as [f|]; [|discriminate].
  destruct (write_headers _ _) as [r sl] eqn:E.
  intros [= -> _]. now apply write_headers_ok_inv in E.
Qed.

End WriteFacts.

(* ===================================================================== *)
(** * The version codec *)
(* ===================================================================== *)

Section CodecFacts.

Lemma land_shiftr_byte (v k : Z) :
  0 <= k ->
  Z.shiftr (Z.land v (Z.shiftl 0xFF k)) k = (v / 2 ^ k) mod 2 ^ 8.
Proof.
  intros Hk. rewrite Z.shiftr_land, Z.shiftr_shiftl_l by lia.
  rewrite Z.sub_diag, Z.shiftl_0_r.
  change 0xFF with (Z.ones 8). rewrite Z.land_ones by lia.
  now rewrite Z.shiftr_div_pow2 by lia.
Qed.

Lemma hex_triplet_div_mod (v : Z) :
  _hex_triplet v = ((v / 2 ^ 16) mod 2 ^ 8, (v / 2 ^ 8) mod 2 ^ 8, v mod 2 ^ 8).
Proof.
  unfold _hex_triplet.
  change 0xFF0000 with (Z.shiftl 0xFF 16). change 0xFF00 with (Z.shiftl 0xFF 8).
  rewrite !land_shiftr_byte by lia.
  change 0xFF with (Z.ones 8). now rewrite Z.land_ones by lia.
Qed.

Lemma same_low24_mod (v v' : Z) :
  same_low24 v v' <-> v mod 2 ^ 24 = v' mod 2 ^ 24.
Proof.
  unfold same_low24. change 0xFFFFFF with (Z.ones 24).
  now rewrite !Z.land_ones by lia.
Qed.

Lemma hex_triplet_low24 (v v' : Z) :
  same_low24 v v' -> _hex_triplet v = _hex_triplet v'.
Proof.
  rewrite same_low24_mod. intros H. rewrite !hex_triplet_div_mod.
  assert (Hb : forall x k, 0 <= k <= 16 ->
            (x / 2 ^ k) mod 2 ^ 8 = ((x mod 2 ^ 24) / 2 ^ k) mod 2 ^ 8).
  { intros x k Hk.
    rewrite <- !Z.shiftr_div_pow2 by lia.
    rewrite <- !Z.land_ones by lia.
    apply Z.bits_inj'. intros n Hn.
    rewrite !Z.land_spec, !Z.shiftr_spec, Z.land_spec by lia.
    destruct (Z.ltb_spec n 8).
    - rewrite (Z.ones_spec_low 24 (n + k)) by lia. now rewrite andb_true_r.
    - rewrite (Z.ones_spec_high 8 n) by lia. now rewrite !andb_false_r. }
  pose proof (Hb v 0 ltac:(lia)) as H0. pose proof (Hb v' 0 ltac:(lia)) as H0'.
  change (2 ^ 0) with 1 in H0, H0'. rewrite !Z.div_1_r in H0, H0'.
  rewrite (Hb v 16), (Hb v' 16), (Hb v 8), (Hb v' 8), H0, H0' by lia.
  now rewrite H.
Qed.

Lemma small_bits_high (b k n : Z) :
  0 <= b < 2 ^ k -> k <= n -> Z.testbit b n = false.
Proof.
  intros Hb Hn.
  destruct (Z.eq_dec b 0) as [->|Hne]; [apply Z.bits_0|].
  apply Z.bits_above_log2; [lia|].
  assert (Z.log2 b < k) by (apply Z.log2_lt_pow2; lia). lia.
Qed.

(** A value below [2^k] or-ed under a multiple of [2^k] is added to it. *)
Lemma lor_add (a b k : Z) :
  0 <= k -> 0 <= b < 2 ^ k -> Z.lor (a * 2 ^ k) b = a * 2 ^ k + b.
Proof.
  intros Hk Hb.
  assert (Hland : Z.land (a * 2 ^ k) b = 0).
  { apply Z.bits_inj'. intros n Hn. rewrite Z.land_spec, Z.bits_0.
    destruct (Z.ltb_spec n k).
    - now rewrite Z.mul_pow2_bits_low by lia.
    - rewrite (small_bits_high b k n) by lia. apply andb_false_r. }
  rewrite <- Z.lxor_lor by assumption.
  symmetry. now apply Z.add_nocarry_lxor.
Qed.

(** Packing three bytes and unpacking them gives them back. *)
Lemma hex_triplet_pack (major minor revision : Z) :
  0 <= major <= 255 -> 0 <= minor <= 255 -> 0 <= revision <= 255 ->
  _hex_triplet (Z.lor (Z.lor (Z.shiftl major 16) (Z.shiftl minor 8)) revision)
  = (major, minor, revision).
Proof.
  intros HM HN HR.
  assert (Hsum : Z.lor (Z.lor (Z.shiftl major 16) (Z.shiftl minor 8)) revision
                 = major * 65536 + minor * 256 + revision).
  { rewrite !Z.shiftl_mul_pow2 by lia.
    rewrite (lor_add major (minor * 2 ^ 8) 16) by lia.
    replace (major * 2 ^ 16 + minor * 2 ^ 8) with ((major * 256 + minor) * 2 ^ 8) by lia.
    rewrite lor_add by lia. lia. }
  rewrite Hsum, hex_triplet_div_mod.
  change (2 ^ 16) with 65536. change (2 ^ 8) with 256.
  repeat f_equal.
  - replace (major * 65536 + minor * 256 + revision)
      with (minor * 256 + revision + major * 65536) by lia.
    rewrite Z.div_add by lia. rewrite (Z.div_small (minor * 256 + revision)) by lia.
    rewrite Z.mod_small; lia.
  - replace (major * 65536 + minor * 256 + revision)
      with (revision + (major * 256 + minor) * 256) by lia.
    rewrite Z.div_add by lia. rewrite (Z.div_small revision) by lia.
    replace (0 + (major * 256 + minor)) with (minor + major * 256) by lia.
    rewrite Z.mod_add by lia. rewrite Z.mod_small; lia.
  - replace (major * 65536 + minor * 256 + revision)
      with (revision + (major * 256 + minor) * 256) by lia.
    rewrite Z.mod_add by lia. rewrite Z.mod_small; lia.
Qed.

(** A major number that does not fit a byte is decoded modulo 256. *)
Lemma hex_triplet_major_mod (major minor revision : Z) :
  0 <= minor < 256 -> 0 <= revision < 256 ->
  _hex_triplet (major * 2 ^ 16 + minor * 2 ^ 8 + revision) = (major mod 256, minor, revision).
Proof.
  intros HN HR. rewrite hex_triplet_div_mod.
  change (2 ^ 16) with 65536. change (2 ^ 8) with 256.
  repeat f_equal.
  - replace (major * 65536 + minor * 256 + revision)
      with (minor * 256 + revision + major * 65536) by lia.
    rewrite Z.div_add by lia. now rewrite (Z.div_small (minor * 256 + revision)) by lia.
  - replace (major * 65536 + minor * 256 + revision)
      with (revision + (major * 256 + minor) * 256) by lia.
    rewrite Z.div_add by lia. rewrite (Z.div_small revision) by lia.
    replace (0 + (major * 256 + minor)) with (minor + major * 256) by lia.
    rewrite Z.mod_add by lia. apply Z.mod_small; lia.
  - replace (major * 65536 + minor * 256 + revision)
      with (revision + (major * 256 + minor) * 256) by lia.
    rewrite Z.mod_add by lia. apply Z.mod_small; lia.
Qed.

End CodecFacts.

(* ===================================================================== *)
(** * The architecture resolver *)
(* ===================================================================== *)

(** C6. The resolver masks the top four bits of the subtype and then reads
    the table: x86_64 family gives "x86_64h" on subtype 8 and "x86_64"
    otherwise, arm64 family gives "arm64e" on subtype 2 and "arm64"
    otherwise, i386 gives "i386" on any subtype, and every other cpu type is
    the assertion failure "Unhandled architecture!", never a default name. *)
Theorem arch_resolver_table (h : mach_header) :
  let s := Z.land (cpusubtype h) 0x0FFFFFFF in
  let r := _get_arch_string h in
  (cputype h = 0x01000007 /\ s = 8 /\ r = Ok "x86_64h") \/
  (cputype h = 0x01000007 /\ s <> 8 /\ r = Ok "x86_64") \/
  (cputype h = 0x0100000C /\ s = 2 /\ r = Ok "arm64e") \/
  (cputype h = 0x0100000C /\ s <> 2 /\ r = Ok "arm64") \/
  (cputype h = 7 /\ r = Ok "i386") \/
  (cputype h <> 0x01000007 /\ cputype h <> 0x0100000C /\ cputype h <> 7 /\
   r = Raise (AssertionError "Unhandled architecture!")).
Proof.
  intros s r. subst s r. unfold _get_arch_string.
  change (Z.lor 0x01000000 7) with 0x01000007.
  change (Z.lor 0x01000000 12) with 0x0100000C.
  destruct (Z.eqb_spec (cputype h) 0x01000007) as [E1|E1].
  - destruct (Z.eqb_spec (Z.land (cpusubtype h) 0x0FFFFFFF) 8); auto 10.
  - destruct (Z.eqb_spec (cputype h) 0x0100000C) as [E2|E2].
    + destruct (Z.eqb_spec (Z.land (cpusubtype h) 0x0FFFFFFF) 2); auto 10.
    + destruct (Z.eqb_spec (cputype h) 7) as [E3|E3]; auto 10.
Qed.

Lemma page_size_pos (a : string) : 0 < page_size_of a.
Proof. unfold page_size_of. destruct (startswith a "arm64"); lia. Qed.

(* ===================================================================== *)
(** * Reading and writing the SDK version *)
(* ===================================================================== *)

Section VersionFacts.

Lemma find_version_cmd_inv (h : MachOHeader) (i : nat) (c : command) :
  _find_version_cmd h = Ok (i, c) ->
  where_ is_version_cmd (commands h) = [(i, c)].
Proof.
  unfold _find_version_cmd, assert_, rbind.
  destruct (length (where_ is_version_cmd (commands h)) =? 1)%nat eqn:E; [|discriminate].
  apply length_one in E as [x ->]. unfold index. simpl. now intros [= ->].
Qed.

Lemma find_version_cmd_intro (h : MachOHeader) (i : nat) (c : command) :
  where_ is_version_cmd (commands h) = [(i, c)] ->
  _find_version_cmd h = Ok (i, c).
Proof. unfold _find_version_cmd. now intros ->. Qed.

Lemma forallb_insert {A} (p : A -> bool) (l : list A) (i : nat) (x : A) :
  forallb p l = true -> p x = true -> forallb p (<[i := x]> l) = true.
Proof.
  revert i. induction l as [|y l IH]; intros i; simpl; [auto|].
  intros [Hy Hl]%andb_true_iff Hx. destruct i; simpl.
  - now rewrite Hx.
  - rewrite Hy. now apply IH.
Qed.

Lemma wf_content_packable ft sl :
  wf_content (Image ft sl) = true -> forallb all_packable sl = true.
Proof.
  assert (H : forallb wf_header sl = true -> forallb all_packable sl = true).
  { induction sl as [|h sl IH]; simpl; [auto|].
    unfold wf_header at 1, all_packable at 1.
    intros [[_ ->]%andb_true_iff Hsl]%andb_true_iff. simpl. auto. }
  unfold wf_content. destruct ft as [[m archs]|].
  - intros [[Hw _]%andb_true_iff _]%andb_true_iff. auto.
  - intros [[Hw _]%andb_true_iff _]%andb_true_iff. auto.
Qed.

(** The SDK field as the triplet the reader reports. *)
Lemma get_sdk_set_sdk (c c' : command) (x : Z) :
  set_sdk c x = Ok c' ->
  get_sdk c' = Ok x /\ is_version_cmd c' = true /\
  (packable c = true -> u32 x = true -> packable c' = true).
Proof.
  destruct c; simpl; try discriminate; intros [= <-]; simpl;
    (split; [reflexivity|split; [reflexivity|]]).
  - intros [Hv _]%andb_true_iff ->. now rewrite Hv.
  - intros [[[Hp Hm]%andb_true_iff _]%andb_true_iff Hn]%andb_true_iff ->.
    now rewrite Hp, Hm, Hn.
Qed.

Lemma get_sdk_defined (c : command) (v x : Z) :
  get_sdk c = Ok v -> exists c', set_sdk c x = Ok c'.
Proof. destruct c; simpl; try discriminate; eauto. Qed.

(** What a successful read of the SDK version says about the file. *)
Lemma get_macos_sdk_version_inv (path : string) (w : World) (t : triplet) :
  fst (get_macos_sdk_version path w) = Ok t ->
  exists f ft h sl i c v,
    fs w !! path = Some f /\ content f = Image ft (h :: sl) /\
    _find_version_cmd h = Ok (i, c) /\ get_sdk c = Ok v /\ t = _hex_triplet v.
Proof.
  unfold get_macos_sdk_version, bind, lift, ret, MachO_load.
  destruct (fs w !! path) as [f|] eqn:Ef; [|discriminate].
  destruct (content f) as [|ft sl] eqn:Ec; [destruct (st_size f <? 4); discriminate|]. simpl.
  destruct sl as [|h sl]; [discriminate|]. unfold index. simpl.
  destruct (_find_version_cmd h) as [[i c]|e] eqn:Efind; [|discriminate]. simpl.
  destruct (get_sdk c) as [v|e] eqn:Eget; [|discriminate]. simpl.
  intros [= <-]. exists f, ft, h, sl, i, c, v. auto.
Qed.

Lemma get_macos_sdk_version_run (path : string) (w : World) f ft h sl i c v :
  fs w !! path = Some f -> content f = Image ft (h :: sl) ->
  _find_version_cmd h = Ok (i, c) -> get_sdk c = Ok v ->
  get_macos_sdk_version path w = (Ok (_hex_triplet v), w).
Proof.
  intros Ef Ec Efind Eget.
  unfold get_macos_sdk_version, bind, lift, ret, MachO_load.
  rewrite Ef, Ec. simpl. unfold index. simpl. rewrite Efind. simpl.
  now rewrite Eget.
Qed.

End VersionFacts.

(** C4. Writing an SDK version with every component in 0..255 into a
    binary whose SDK version can be read, and reading it again, returns the
    triplet written. *)
Theorem sdk_version_round_trip (path : string) (w : World) (f : File)
    (major minor revision : Z) (t0 : triplet) :
  0 <= major <= 255 -> 0 <= minor <= 255 -> 0 <= revision <= 255 ->
  fs w !! path = Some f -> wf_content (content f) = true ->
  fst (get_macos_sdk_version path w) = Ok t0 ->
  exists w',
    set_macos_sdk_version path major minor revision w = (Ok tt, w') /\
    get_macos_sdk_version path w' = (Ok (major, minor, revision), w').
Proof.
  intros HM HN HR Hf Hwf Hget.
  apply get_macos_sdk_version_inv in Hget
    as (f' & ft & h & sl & i & c & v & Hf' & Hc & Hfind & Hsdk & _).
  rewrite Hf in Hf'. injection Hf' as <-.
  set (x := Z.lor (Z.lor (Z.shiftl major 16) (Z.shiftl minor 8)) revision).
  destruct (get_sdk_defined c v x Hsdk) as [c' Hset].
  destruct (get_sdk_set_sdk c c' x Hset) as (Hsdk' & Hkind & Hpack).
  pose proof (find_version_cmd_inv h i c Hfind) as Hwhere.
  assert (Hin : In (i, c) (where_ is_version_cmd (commands h)))
    by (rewrite Hwhere; now left).
  apply where_sound in Hin as [Hlook _].
  rewrite Hc in Hwf. pose proof (wf_content_packable ft (h :: sl) Hwf) as Hall.
  simpl in Hall. apply andb_true_iff in Hall as [Hh Hsl].
  assert (Hx : u32 x = true).
  { pose proof (hex_triplet_pack major minor revision HM HN HR) as Hp.
    assert (Hsum : x = major * 65536 + minor * 256 + revision).
    { unfold x. rewrite !Z.shiftl_mul_pow2 by lia.
      rewrite (lor_add major (minor * 2 ^ 8) 16) by lia.
      replace (major * 2 ^ 16 + minor * 2 ^ 8)
        with ((major * 256 + minor) * 2 ^ 8) by lia.
      rewrite lor_add by lia. lia. }
    unfold u32. apply andb_true_iff. split; [apply Z.leb_le|apply Z.ltb_lt]; lia. }
  assert (Hc'pack : packable c' = true).
  { apply Hpack; [|assumption].
    unfold all_packable in Hh. rewrite forallb_forall in Hh. apply Hh.
    apply list_elem_of_In. eapply list_elem_of_lookup_2; eassumption. }
  set (h' := set_commands h (<[i := c']> (commands h))).
  set (f1 := {| st_size := st_size f; content := Image ft (h' :: sl) |}).
  exists {| fs := <[path := f1]> (fs w); log := log w |}.
  split.
  - unfold set_macos_sdk_version, bind, lift, assert_, ret, MachO_load.
    destruct (Z.leb_spec 0 major), (Z.leb_spec major 255); try lia.
    destruct (Z.leb_spec 0 minor), (Z.leb_spec minor 255); try lia.
    destruct (Z.leb_spec 0 revision), (Z.leb_spec revision 255); try lia.
    cbn [andb]. rewrite Hf, Hc. unfold index. cbn [headers lookup list_lookup].
    rewrite Hfind. cbn [snd fst]. fold x. rewrite Hset.
    cbn [list_insert set_headers headers Macholib.filename]. fold h'.
    rewrite (MachO_write_ok path _ w f ft (h :: sl) Hf Hc); [reflexivity| |].
    + simpl. rewrite Hsl, andb_true_r. unfold all_packable. simpl.
      now apply forallb_insert.
    + simpl. constructor; [|apply same_shape_refl].
      unfold same_shape. simpl. apply length_insert.
  - rewrite <- (hex_triplet_pack major minor revision HM HN HR). fold x.
    eapply (get_macos_sdk_version_run path _ f1 ft h' sl i c' x).
    + simpl. apply lookup_insert_eq.
    + reflexivity.
    + apply find_version_cmd_intro. simpl.
      now apply where_insert_single with (c := c).
    + assumption.
Qed.

Lemma sdk_version_round_trip_witness :
  exists w',
    set_macos_sdk_version "a.out" 12 3 1 (Samples.world_of "a.out" Samples.thin_arm64)
    = (Ok tt, w') /\
    get_macos_sdk_version "a.out" w' = (Ok (12, 3, 1), w').
Proof.
  apply (sdk_version_round_trip "a.out" (Samples.world_of "a.out" Samples.thin_arm64)
           Samples.thin_arm64 12 3 1 (11, 3, 0));
    [lia | lia | lia | reflexivity | reflexivity | reflexivity].
Defined.

(** C8. With a component outside 0..255 the call fails on the assertion
    that validates it, and the files and the log are as they were. *)
Theorem set_sdk_version_rejects (path : string) (w : World) (major minor revision : Z) :
  ~ (0 <= major <= 255 /\ 0 <= minor <= 255 /\ 0 <= revision <= 255) ->
  exists msg,
    set_macos_sdk_version path major minor revision w = (Raise (AssertionError msg), w) /\
    In msg ["Invalid major version value!"; "Invalid minor version value!";
            "Invalid revision value!"].
Proof.
  intros Hbad.
  unfold set_macos_sdk_version, bind, lift, assert_.
  destruct (Z.leb_spec 0 major), (Z.leb_spec major 255); cbn [andb];
    try (eexists; split; [reflexivity|simpl; auto]; fail).
  destruct (Z.leb_spec 0 minor), (Z.leb_spec minor 255); cbn [andb];
    try (eexists; split; [reflexivity|simpl; auto]; fail).
  destruct (Z.leb_spec 0 revision), (Z.leb_spec revision 255); cbn [andb];
    try (eexists; split; [reflexivity|simpl; auto]; fail).
  lia.
Qed.

Lemma set_sdk_version_rejects_witness :
  (exists msg,
     set_macos_sdk_version "a.out" 256 0 0 (Samples.world_of "a.out" Samples.thin_arm64)
     = (Raise (AssertionError msg), Samples.world_of "a.out" Samples.thin_arm64) /\
     In msg ["Invalid major version value!"; "Invalid minor version value!";
             "Invalid revision value!"]) /\
  (exists msg,
     set_macos_sdk_version "a.out" 0 (-1) 0 (Samples.world_of "a.out" Samples.thin_arm64)
     = (Raise (AssertionError msg), Samples.world_of "a.out" Samples.thin_arm64) /\
     In msg ["Invalid major version value!"; "Invalid minor version value!";
             "Invalid revision value!"]).
Proof.
  split.
  - apply (set_sdk_version_rejects "a.out" _ 256 0 0). lia.
  - apply (set_sdk_version_rejects "a.out" _ 0 (-1) 0). lia.
Defined.

(* ===================================================================== *)
(** * The minimum OS version *)
(* ===================================================================== *)

Section MinOsFacts.

Lemma header_min_version_slice (h : MachOHeader) (v : Z) :
  slice_min_os h v -> header_min_version h = Ok v.
Proof.
  intros [h' i vm Hw|h' i b Hw]; unfold header_min_version;
    rewrite (find_version_cmd_intro _ _ _ Hw); reflexivity.
Qed.

Lemma collect_versions_ok (sl : list MachOHeader) (vs acc : list Z) :
  Forall2 slice_min_os sl vs -> collect_versions sl acc = Ok (acc ++ vs)%list.
Proof.
  intros H. revert acc. induction H as [|h v sl vs Hh Hsl IH]; intros acc; simpl.
  - now rewrite app_nil_r.
  - rewrite (header_min_version_slice h v Hh). simpl.
    rewrite IH, <- app_assoc. reflexivity.
Qed.

(** The run of [macosx_version_min] on a binary every slice of which has a
    minimum-OS field: the result is decoded from one of the fields and is
    below or equal to what the others decode to. *)
Lemma macosx_version_min_run (path : string) (w : World) f ft sl (vs : list Z) :
  fs w !! path = Some f -> content f = Image ft sl ->
  Forall2 slice_min_os sl vs -> sl <> [] ->
  exists v,
    In v vs /\
    macosx_version_min path w = (Ok (_hex_triplet v), w) /\
    forall v', In v' vs -> triplet_le (_hex_triplet v) (_hex_triplet v').
Proof.
  intros Hf Hc Hvs Hne.
  unfold macosx_version_min, bind, lift, MachO_load. rewrite Hf, Hc.
  cbn [headers]. rewrite (collect_versions_ok sl vs [] Hvs). cbn [app].
  destruct Hvs as [|h v0 sl vs Hh Hsl]; [congruence|].
  cbn [map Py.min].
  pose proof (min_from_spec (map _hex_triplet vs) (_hex_triplet v0)) as [Hin Hle].
  change (_hex_triplet v0 :: map _hex_triplet vs) with (map _hex_triplet (v0 :: vs)) in Hin, Hle.
  apply in_map_iff in Hin as (v & Hv & Hin).
  exists v. split; [assumption|]. split; [now rewrite Hv|].
  intros v' Hv'. rewrite Hv. apply Hle. now apply in_map.
Qed.

End MinOsFacts.

(** C5. The minimum OS version of a binary is the lexicographically
    smallest of the triplets decoded from the minimum-OS field of each of
    its slices, the triplet decoded from a field [v] being
    [((v / 2^16) mod 256, (v / 2^8) mod 256, v mod 256)]. *)
Theorem macosx_version_min_least (path : string) (w : World) (f : File)
    ft (sl : list MachOHeader) (vs : list Z) :
  fs w !! path = Some f -> content f = Image ft sl ->
  Forall2 slice_min_os sl vs -> sl <> [] ->
  exists v,
    In v vs /\
    macosx_version_min path w
    = (Ok ((v / 2 ^ 16) mod 256, (v / 2 ^ 8) mod 256, v mod 256), w) /\
    forall v', In v' vs ->
      triplet_le ((v / 2 ^ 16) mod 256, (v / 2 ^ 8) mod 256, v mod 256)
                 ((v' / 2 ^ 16) mod 256, (v' / 2 ^ 8) mod 256, v' mod 256).
Proof.
  intros Hf Hc Hvs Hne.
  destruct (macosx_version_min_run path w f ft sl vs Hf Hc Hvs Hne) as (v & Hin & Hrun & Hle).
  exists v. split; [assumption|]. split.
  - now rewrite Hrun, hex_triplet_div_mod.
  - intros v' Hv'. specialize (Hle v' Hv'). now rewrite !hex_triplet_div_mod in Hle.
Qed.

Lemma macosx_version_min_least_witness :
  exists v,
    In v [0x000A0900; 0x000A0F00] /\
    macosx_version_min "a.out" (Samples.world_of "a.out" Samples.fat_universal2)
    = (Ok ((v / 2 ^ 16) mod 256, (v / 2 ^ 8) mod 256, v mod 256),
       Samples.world_of "a.out" Samples.fat_universal2) /\
    forall v', In v' [0x000A0900; 0x000A0F00] ->
      triplet_le ((v / 2 ^ 16) mod 256, (v / 2 ^ 8) mod 256, v mod 256)
                 ((v' / 2 ^ 16) mod 256, (v' / 2 ^ 8) mod 256, v' mod 256).
Proof.
  apply (macosx_version_min_least "a.out" _ Samples.fat_universal2
           (Some (FAT_MAGIC, [Samples.fat_entry 0x01000007 0x4000 0x8100;
                              Samples.fat_entry 0x0100000C 0x10000 0x8100]))
           [Samples.x86_64_slice 0x4000; Samples.arm64_slice 0x10000]);
    [reflexivity | reflexivity | | discriminate].
  constructor; [|constructor; [|constructor]].
  - apply (min_os_of_version_min _ 2%nat Samples.version_min). reflexivity.
  - apply (min_os_of_build_version _ 2%nat Samples.build_version). reflexivity.
Defined.

(* ===================================================================== *)
(** * The decoder reads bits 0 to 23 only *)
(* ===================================================================== *)

Section Low24Facts.

Lemma cmd_low24_kind (c c' : command) : cmd_low24 c c' -> cmd c = cmd c'.
Proof. now intros []. Qed.

Lemma where_from_low24 (k : nat) (l l' : list command) :
  Forall2 cmd_low24 l l' ->
  Forall2 ref_low24 (where_from is_version_cmd k l) (where_from is_version_cmd k l').
Proof.
  intros H. revert k. induction H as [|c c' l l' Hc Hl IH]; intros k; simpl.
  - constructor.
  - assert (Hk : is_version_cmd c = is_version_cmd c')
      by (unfold is_version_cmd; now rewrite (cmd_low24_kind c c' Hc)).
    rewrite Hk. destruct (is_version_cmd c').
    + constructor; [split; auto|apply IH].
    + apply IH.
Qed.

Lemma find_version_cmd_low24 (h h' : MachOHeader) :
  header_low24 h h' ->
  rel_result ref_low24 (_find_version_cmd h) (_find_version_cmd h').
Proof.
  intros (_ & _ & Hcmds). unfold _find_version_cmd, where_.
  pose proof (where_from_low24 0 _ _ Hcmds) as Hw.
  destruct Hw as [|x y l l' Hxy Hl]; simpl; [reflexivity|].
  destruct Hl as [|x2 y2 l l' _ _]; simpl; [assumption|reflexivity].
Qed.

Lemma get_sdk_low24 (c c' : command) :
  cmd_low24 c c' -> rel_result same_low24 (get_sdk c) (get_sdk c').
Proof.
  intros [v v' _ H|b b' _ _ _ H|c0]; simpl; try assumption.
  destruct c0; simpl; reflexivity.
Qed.

Lemma header_min_version_low24 (h h' : MachOHeader) :
  header_low24 h h' ->
  rel_result same_low24 (header_min_version h) (header_min_version h').
Proof.
  intros H. apply find_version_cmd_low24 in H. unfold header_min_version.
  destruct (_find_version_cmd h) as [[i c]|e], (_find_version_cmd h') as [[i' c']|e'];
    simpl in *; try tauto.
  destruct H as [_ H]. simpl in H.
  destruct H as [v v' H _|b b' _ _ H _|c0]; simpl; try assumption.
  destruct c0; simpl; reflexivity.
Qed.

Lemma collect_versions_low24 (sl sl' : list MachOHeader) (acc acc' : list Z) :
  Forall2 header_low24 sl sl' -> Forall2 same_low24 acc acc' ->
  rel_result (Forall2 same_low24) (collect_versions sl acc) (collect_versions sl' acc').
Proof.
  intros H. revert acc acc'.
  induction H as [|h h' sl sl' Hh Hsl IH]; intros acc acc' Hacc; simpl; [assumption|].
  apply header_min_version_low24 in Hh.
  destruct (header_min_version h) as [v|e], (header_min_version h') as [v'|e'];
    simpl in *; try tauto.
  apply IH. apply Forall2_app; [assumption|]. constructor; [assumption|constructor].
Qed.

Lemma map_hex_triplet_low24 (vs vs' : list Z) :
  Forall2 same_low24 vs vs' -> map _hex_triplet vs = map _hex_triplet vs'.
Proof.
  induction 1 as [|v v' vs vs' Hv _ IH]; simpl; [reflexivity|].
  now rewrite (hex_triplet_low24 v v' Hv), IH.
Qed.

End Low24Facts.

(** C10. The decoder reads bits 16-23, 8-15 and 0-7 of the stored value
    and nothing above.  On a binary whose SDK field holds [v]
    [get_macos_sdk_version] returns
    [((v / 2^16) mod 256, (v / 2^8) mod 256, v mod 256)], and
    [macosx_version_min] returns the triplet so decoded from the
    minimum-OS field of one of the slices; two binaries whose stored
    version values agree on bits 0 to 23 therefore report the same SDK
    version and the same minimum OS version, and a major number above 255
    is reported modulo 256. *)
Theorem version_decoder_reads_low_24_bits (path : string) (w w' : World) (f f' : File) :
  fs w !! path = Some f -> fs w' !! path = Some f' ->
  content_low24 (content f) (content f') ->
  (fst (get_macos_sdk_version path w) = fst (get_macos_sdk_version path w') /\
   fst (macosx_version_min path w) = fst (macosx_version_min path w')) /\
  (forall ft h sl v,
     content f = Image ft (h :: sl) -> slice_sdk h v ->
     get_macos_sdk_version path w
     = (Ok ((v / 2 ^ 16) mod 256, (v / 2 ^ 8) mod 256, v mod 256), w)) /\
  (forall ft sl vs,
     content f = Image ft sl -> sl <> [] -> Forall2 slice_min_os sl vs ->
     exists v,
       In v vs /\
       macosx_version_min path w
       = (Ok ((v / 2 ^ 16) mod 256, (v / 2 ^ 8) mod 256, v mod 256), w)) /\
  (forall v, _hex_triplet v = ((v / 2 ^ 16) mod 2 ^ 8, (v / 2 ^ 8) mod 2 ^ 8, v mod 2 ^ 8)) /\
  (forall major minor revision,
     0 <= minor < 256 -> 0 <= revision < 256 ->
     _hex_triplet (major * 2 ^ 16 + minor * 2 ^ 8 + revision)
     = (major mod 256, minor, revision)).
Proof.
  intros Hf Hf' Hc. split; [split|split; [|split; [|split]]].
  - unfold get_macos_sdk_version, bind, lift, ret, MachO_load. rewrite Hf, Hf'.
    destruct Hc as [ft sl sl' Hsl]. cbn [headers].
    destruct Hsl as [|h h' sl sl' Hh Hsl]; [reflexivity|].
    unfold index. cbn [lookup list_lookup].
    apply find_version_cmd_low24 in Hh.
    destruct (_find_version_cmd h) as [[i c]|e], (_find_version_cmd h') as [[i' c']|e'];
      simpl in Hh; try tauto; [|now subst].
    destruct Hh as [_ Hcc]. apply get_sdk_low24 in Hcc. cbn [snd] in *.
    destruct (get_sdk c) as [v|e], (get_sdk c') as [v'|e'];
      simpl in Hcc; try tauto; [|now subst].
    cbn [fst]. now rewrite (hex_triplet_low24 v v' Hcc).
  - unfold macosx_version_min, bind, lift, MachO_load. rewrite Hf, Hf'.
    destruct Hc as [ft sl sl' Hsl]. cbn [headers].
    pose proof (collect_versions_low24 sl sl' [] [] Hsl (List.Forall2_nil _)) as Hcol.
    destruct (collect_versions sl []) as [vs|e], (collect_versions sl' []) as [vs'|e'];
      simpl in Hcol; try tauto; [|now subst].
    cbn [fst]. now rewrite (map_hex_triplet_low24 vs vs' Hcol).
  - intros ft h sl v Hcf Hsdk.
    assert (E : _hex_triplet v = ((v / 2 ^ 16) mod 256, (v / 2 ^ 8) mod 256, v mod 256))
      by apply hex_triplet_div_mod.
    rewrite <- E. clear E.
    destruct Hsdk as [h i vm Hw|h i b Hw].
    + apply (get_macos_sdk_version_run path w f ft h sl i (VersionMin vm));
        [assumption|assumption|now apply find_version_cmd_intro|reflexivity].
    + apply (get_macos_sdk_version_run path w f ft h sl i (BuildVersion b));
        [assumption|assumption|now apply find_version_cmd_intro|reflexivity].
  - intros ft sl vs Hcf Hne Hvs.
    destruct (macosx_version_min_run path w f ft sl vs Hf Hcf Hvs Hne) as (v & Hin & Hrun & _).
    exists v. split; [assumption|]. now rewrite Hrun, hex_triplet_div_mod.
  - apply hex_triplet_div_mod.
  - intros major minor revision HN HR. apply hex_triplet_major_mod; assumption.
Qed.

Lemma version_decoder_reads_low_24_bits_witness :
  (fst (get_macos_sdk_version "a.out" (Samples.world_of "a.out" Samples.thin_arm64_high_bits))
   = fst (get_macos_sdk_version "a.out" (Samples.world_of "a.out" Samples.thin_arm64)) /\
   fst (macosx_version_min "a.out" (Samples.world_of "a.out" Samples.thin_arm64_high_bits))
   = fst (macosx_version_min "a.out" (Samples.world_of "a.out" Samples.thin_arm64))) /\
  get_macos_sdk_version "a.out" (Samples.world_of "a.out" Samples.thin_arm64_high_bits)
  = (Ok (11, 3, 0), Samples.world_of "a.out" Samples.thin_arm64_high_bits) /\
  exists v,
    In v [0xAB0A0F00] /\
    macosx_version_min "a.out" (Samples.world_of "a.out" Samples.thin_arm64_high_bits)
    = (Ok ((v / 2 ^ 16) mod 256, (v / 2 ^ 8) mod 256, v mod 256),
       Samples.world_of "a.out" Samples.thin_arm64_high_bits).
Proof.
  destruct (version_decoder_reads_low_24_bits "a.out"
              (Samples.world_of "a.out" Samples.thin_arm64_high_bits)
              (Samples.world_of "a.out" Samples.thin_arm64)
              Samples.thin_arm64_high_bits Samples.thin_arm64 eq_refl eq_refl)
    as (Hsame & Hsdk & Hmin & _).
  - constructor. constructor; [|constructor].
    split; [reflexivity|split; [reflexivity|]].
    repeat (constructor; try apply low24_same).
  - split; [exact Hsame|]. split.
    + apply (Hsdk None _ [] 0xFF0B0300 eq_refl).
      apply (sdk_of_build_version _ 2%nat
               {| platform := 1; minos := 0xAB0A0F00; bv_sdk := 0xFF0B0300; ntools := 0 |}).
      reflexivity.
    + apply (Hmin None _ [0xAB0A0F00] eq_refl); [discriminate|].
      constructor; [|constructor].
      apply (min_os_of_build_version _ 2%nat
               {| platform := 1; minos := 0xAB0A0F00; bv_sdk := 0xFF0B0300; ntools := 0 |}).
      reflexivity.
Defined.

(* ===================================================================== *)
(** * The link-edit patcher *)
(* ===================================================================== *)

Section PatcherFacts.

Lemma has_signature_where (h : MachOHeader) :
  where_ is_signature (commands h) = [] <-> ~ has_signature h.
Proof.
  rewrite where_nil. unfold has_signature. split.
  - intros H [l Hl]. specialize (H _ Hl). discriminate.
  - intros H c Hc. destruct c; try reflexivity. exfalso. apply H. eauto.
Qed.

Lemma last_pos_length {A} (l : list A) : last_pos l = (length l - 1)%nat.
Proof. unfold last_pos. now rewrite Nat.sub_1_r. Qed.

Lemma index_last_lookup {A} (l : list A) (x : A) :
  index_last l = Ok x <-> l !! last_pos l = Some x /\ l <> [].
Proof.
  unfold index_last, index. destruct l as [|y l]; [split; [discriminate|intros [_ []]; reflexivity]|].
  destruct ((y :: l) !! last_pos (y :: l)) eqn:E; split.
  - intros [= ->]. split; [reflexivity|discriminate].
  - intros [[= ->] _]. reflexivity.
  - discriminate.
  - intros [[=] _].
Qed.

Lemma is_linkedit_segment (c : command) :
  is_linkedit c = true -> exists seg, c = Segment64 seg.
Proof. destruct c; simpl; try discriminate. eauto. Qed.

Lemma is_symtab_symtab (c : command) :
  is_symtab c = true -> exists sym, c = Symtab sym.
Proof. destruct c; simpl; try discriminate. eauto. Qed.

(** A selection of length one by [is_linkedit] is one segment command. *)
Lemma where_linkedit_one (cmds : list command) :
  (length (where_ is_linkedit cmds) =? 1)%nat = true ->
  exists i seg, where_ is_linkedit cmds = [(i, Segment64 seg)].
Proof.
  intros H. apply length_one in H as [[i c] Hw].
  assert (Hin : In (i, c) (where_ is_linkedit cmds)) by (rewrite Hw; now left).
  apply where_sound in Hin as [_ Hc].
  apply is_linkedit_segment in Hc as [seg ->]. eauto.
Qed.

Lemma where_symtab_one (cmds : list command) :
  (length (where_ is_symtab cmds) =? 1)%nat = true ->
  exists j sym, where_ is_symtab cmds = [(j, Symtab sym)].
Proof.
  intros H. apply length_one in H as [[j c] Hw].
  assert (Hin : In (j, c) (where_ is_symtab cmds)) by (rewrite Hw; now left).
  apply where_sound in Hin as [_ Hc].
  apply is_symtab_symtab in Hc as [sym ->]. eauto.
Qed.

(** The run of the patcher on a slice that passes the three checks and
    whose architecture resolves: what is left is the division, the write
    and the fat table. *)
Lemma fix_exe_run (path : string) (w : World) f ft sl h i seg j sym a :
  fs w !! path = Some f -> content f = Image ft sl -> index_last sl = Ok h ->
  where_ is_signature (commands h) = [] ->
  where_ is_linkedit (commands h) = [(i, Segment64 seg)] ->
  where_ is_symtab (commands h) = [(j, Symtab sym)] ->
  _get_arch_string (header h) = Ok a ->
  fix_exe_for_code_signing path w =
  match ceil_truediv (st_size f - (offset h + fileoff seg)) (page_size_of a) with
  | Raise e => (Raise e, w)
  | Ok pages =>
      let h' := patched_slice (st_size f) (pages * page_size_of a) h i seg j sym in
      let m' := {| filename := path; fat := load_fat_header <$> ft;
                   headers := <[last_pos sl := h']> sl |} in
      bind (MachO_write path m')
           (fun _ => match ft with
                     | Some _ => fix_fat_header path (st_size f)
                     | None => ret tt
                     end) w
  end.
Proof.
  intros Hf Hc Hlast Hsig Hseg Hsym Harch.
  unfold fix_exe_for_code_signing.
  unfold bind at 1. unfold getsize. rewrite Hf.
  unfold bind at 1. unfold MachO_load. rewrite Hf, Hc.
  unfold bind at 1. unfold lift at 1. cbn [headers]. rewrite Hlast.
  unfold bind at 1. unfold lift at 1. rewrite Hsig. cbn [length Nat.eqb assert_].
  unfold bind at 1. unfold lift at 1. rewrite Hseg. cbn [length Nat.eqb assert_].
  unfold bind at 1. unfold lift at 1. unfold index at 1. cbn [lookup list_lookup].
  unfold bind at 1. unfold lift at 1. cbn [snd as_segment].
  unfold bind at 1. unfold lift at 1. rewrite Hsym. cbn [length Nat.eqb assert_].
  unfold bind at 1. unfold lift at 1. unfold index at 1. cbn [lookup list_lookup].
  unfold bind at 1. unfold lift at 1. cbn [snd as_symtab].
  unfold bind at 1. unfold lift at 1. rewrite Harch.
  unfold bind at 1. unfold lift at 1.
  cbn [filesize set_filesize fileoff].
  change (if startswith a "arm64" then 16384 else 4096) with (page_size_of a).
  destruct (ceil_truediv _ _) as [pages|e]; [|reflexivity].
  cbn [fst fat]. destruct ft as [ft0|]; reflexivity.
Qed.

End PatcherFacts.

Section PatcherStages.

Lemma bind_lift {A B} (r : result A) (k : A -> M B) (w : World) :
  bind (lift r) k w = match r with Ok a => k a w | Raise e => (Raise e, w) end.
Proof. unfold bind, lift. destruct r; reflexivity. Qed.

(** ** Exceptions of the write stages *)

Lemma write_seq_exn {A} (packs : A -> bool) (new old : list A) (e : exn) :
  fst (write_seq packs new old) = Raise e -> e = struct_error.
Proof.
  revert old. induction new as [|x new IH]; intros old; simpl; [discriminate|].
  destruct (packs x); [|now intros [= <-]].
  specialize (IH (tail old)).
  destruct (write_seq packs new (tail old)) as [r rest]. simpl in *. exact IH.
Qed.

Lemma write_headers_exn (new old : list MachOHeader) (e : exn) :
  fst (write_headers new old) = Raise e -> e = struct_error.
Proof.
  revert old. induction new as [|n new IH]; intros old; simpl; [discriminate|].
  unfold write_header.
  pose proof (write_seq_exn packable (commands n)
                (match old with [] => [] | o :: _ => commands o end)) as Hseq.
  destruct (write_seq packable (commands n) _) as [r cmds]. simpl in Hseq.
  destruct r as [[]|e0].
  - specialize (IH (tail old)).
    destruct (write_headers new (tail old)) as [r' rest]. simpl in *. exact IH.
  - simpl. intros [= <-]. now apply Hseq.
Qed.

Lemma MachO_write_exn (path : string) (m : MachO) (w : World) (e : exn) :
  fst (MachO_write path m w) = Raise e -> e = struct_error \/ e = FileNotFoundError.
Proof.
  unfold MachO_write. destruct (fs w !! path) as [f|]; [|intros [= <-]; now right].
  pose proof (write_headers_exn (headers m) (slices_of (content f)) e) as H.
  destruct (write_headers _ _) as [r sl]. simpl in *. intros Hr. left. now apply H.
Qed.

Lemma fix_fat_header_exn (path : string) (F : Z) (w : World) (e : exn) :
  fst (fix_fat_header path F w) = Raise e ->
  e = struct_error \/ e = FileNotFoundError \/ e = UnboundLocalError \/ e = IndexError.
Proof.
  unfold fix_fat_header, bind at 1, read_fat.
  destruct (fs w !! path) as [f|] eqn:Ef; [|intros [= <-]; auto].
  destruct (fat_table_of (content f)) as [[m archs]|] eqn:Eft; [|intros [= <-]; auto].
  rewrite bind_lift. cbn [snd fst].
  destruct (index_last archs) as [arch|e0] eqn:Elast.
  - unfold write_fat. rewrite Ef, Eft. cbn [snd].
    match goal with |- context [write_seq ?p ?n ?o] =>
      pose proof (write_seq_exn p n o e) as H; destruct (write_seq p n o) as [r rest]
    end.
    simpl in *. intros Hr. left. now apply H.
  - unfold index_last, index in Elast. destruct archs as [|x archs]; [|].
    + injection Elast as <-. intros [= <-]. auto.
    + destruct ((x :: archs) !! last_pos (x :: archs)); [discriminate|].
      injection Elast as <-. intros [= <-]. auto.
Qed.

Lemma get_arch_string_exn (hd : mach_header) (e : exn) :
  _get_arch_string hd = Raise e -> e = AssertionError "Unhandled architecture!".
Proof.
  unfold _get_arch_string.
  repeat match goal with |- context [if ?b then _ else _] => destruct b end;
    try discriminate.
  now intros [= <-].
Qed.


(** ** The fat table *)

Lemma fix_fat_header_run (path : string) (F : Z) (w : World) f m archs sl arch :
  fs w !! path = Some f -> content f = Image (Some (m, archs)) sl ->
  index_last archs = Ok arch ->
  forallb (packable_arch m) (patched_archs F archs arch) = true ->
  fix_fat_header path F w =
  (Ok tt, {| fs := <[path := {| st_size := st_size f;
                                content := Image (Some (m, patched_archs F archs arch)) sl |}]>
                     (fs w);
             log := log w |}).
Proof.
  intros Hf Hc Hlast Hpack.
  unfold fix_fat_header, bind at 1, read_fat. rewrite Hf, Hc. cbn [fat_table_of].
  rewrite bind_lift. cbn [snd fst]. rewrite Hlast.
  unfold write_fat. rewrite Hf, Hc. cbn [fat_table_of snd slices_of].
  fold (patched_archs F archs arch).
  rewrite write_seq_ok; [reflexivity|assumption|].
  unfold patched_archs. apply length_insert.
Qed.

Lemma fix_fat_header_ok_inv (path : string) (F : Z) (w w' : World) f m archs sl :
  fs w !! path = Some f -> content f = Image (Some (m, archs)) sl ->
  fix_fat_header path F w = (Ok tt, w') ->
  exists arch,
    index_last archs = Ok arch /\
    forallb (packable_arch m) (patched_archs F archs arch) = true.
Proof.
  intros Hf Hc.
  unfold fix_fat_header, bind at 1, read_fat. rewrite Hf, Hc. cbn [fat_table_of].
  rewrite bind_lift. cbn [snd fst].
  destruct (index_last archs) as [arch|e] eqn:Hlast; [|discriminate].
  unfold write_fat. rewrite Hf, Hc. cbn [fat_table_of snd slices_of].
  fold (patched_archs F archs arch).
  destruct (write_seq _ _ _) as [r rest] eqn:E. intros [= -> _].
  exists arch. split; [reflexivity|]. now apply write_seq_ok_inv in E.
Qed.

End PatcherStages.

Section PatcherRuns.

Lemma patched_slice_shape (F vm : Z) (h : MachOHeader) i seg j sym :
  same_shape (patched_slice F vm h i seg j sym) h.
Proof. unfold same_shape, patched_slice. simpl. now rewrite !length_insert. Qed.

(** A successful run passed every check. *)
Lemma fix_exe_ok_checks (path : string) (w w' : World) :
  fix_exe_for_code_signing path w = (Ok tt, w') ->
  exists f ft sl h i seg j sym a,
    fs w !! path = Some f /\ content f = Image ft sl /\ index_last sl = Ok h /\
    where_ is_signature (commands h) = [] /\
    where_ is_linkedit (commands h) = [(i, Segment64 seg)] /\
    where_ is_symtab (commands h) = [(j, Symtab sym)] /\
    _get_arch_string (header h) = Ok a.
Proof.
  unfold fix_exe_for_code_signing.
  unfold bind at 1. unfold getsize.
  destruct (fs w !! path) as [f|] eqn:Hf; [|discriminate].
  unfold bind at 1. unfold MachO_load. rewrite Hf.
  destruct (content f) as [|ft sl] eqn:Hc; [destruct (st_size f <? 4); discriminate|].
  rewrite bind_lift. cbn [headers].
  destruct (index_last sl) as [h|e] eqn:Hlast; [|discriminate].
  rewrite bind_lift. unfold assert_ at 1.
  destruct (length (where_ is_signature (commands h)) =? 0)%nat eqn:Hsig; [|discriminate].
  apply length_zero in Hsig.
  rewrite bind_lift. unfold assert_ at 1.
  destruct (length (where_ is_linkedit (commands h)) =? 1)%nat eqn:Hseg; [|discriminate].
  apply where_linkedit_one in Hseg as (i & seg & Hseg).
  rewrite bind_lift. rewrite Hseg. unfold index at 1. cbn [lookup list_lookup].
  rewrite bind_lift. cbn [snd as_segment].
  rewrite bind_lift. unfold assert_ at 1.
  destruct (length (where_ is_symtab (commands h)) =? 1)%nat eqn:Hsym; [|discriminate].
  apply where_symtab_one in Hsym as (j & sym & Hsym).
  rewrite bind_lift. rewrite Hsym. unfold index at 1. cbn [lookup list_lookup].
  rewrite bind_lift. cbn [snd as_symtab].
  rewrite bind_lift.
  destruct (_get_arch_string (header h)) as [a|e] eqn:Harch; [|discriminate].
  intros _. exists f, ft, sl, h, i, seg, j, sym, a. auto 10.
Qed.

(** Success of the patcher on a slice that passes the checks, and the
    files it leaves. *)
Lemma fix_exe_success (path : string) (w w' : World) f ft sl h i seg j sym a :
  fs w !! path = Some f -> content f = Image ft sl -> index_last sl = Ok h ->
  where_ is_signature (commands h) = [] ->
  where_ is_linkedit (commands h) = [(i, Segment64 seg)] ->
  where_ is_symtab (commands h) = [(j, Symtab sym)] ->
  _get_arch_string (header h) = Ok a ->
  fix_exe_for_code_signing path w = (Ok tt, w') <->
  exists pages,
    ceil_truediv (st_size f - (offset h + fileoff seg)) (page_size_of a) = Ok pages /\
    let sl' := <[last_pos sl :=
                   patched_slice (st_size f) (pages * page_size_of a) h i seg j sym]> sl in
    forallb all_packable sl' = true /\
    match ft with
    | None =>
        w' = {| fs := <[path := {| st_size := st_size f; content := Image None sl' |}]> (fs w);
                log := log w |}
    | Some (m, archs) =>
        exists arch,
          index_last archs = Ok arch /\
          forallb (packable_arch m) (patched_archs (st_size f) archs arch) = true /\
          w' = {| fs := <[path := {| st_size := st_size f;
                                     content := Image (Some (m, patched_archs (st_size f) archs arch))
                                                  sl' |}]> (fs w);
                  log := log w |}
    end.
Proof.
  intros Hf Hc Hlast Hsig Hseg Hsym Harch.
  rewrite (fix_exe_run path w f ft sl h i seg j sym a) by assumption.
  apply index_last_lookup in Hlast as [Hlook Hne].
  destruct (ceil_truediv _ _) as [pages|e]; [|split; [discriminate|intros (p & [=] & _)]].
  set (h' := patched_slice (st_size f) (pages * page_size_of a) h i seg j sym).
  assert (Hshape : Forall2 same_shape (<[last_pos sl := h']> sl) sl)
    by (eapply same_shape_insert; [eassumption|apply patched_slice_shape]).
  cbv zeta. unfold bind.
  set (m' := {| filename := path; fat := load_fat_header <$> ft;
                headers := <[last_pos sl := h']> sl |}).
  set (f1 := {| st_size := st_size f; content := Image ft (<[last_pos sl := h']> sl) |}).
  set (w1 := {| fs := <[path := f1]> (fs w); log := log w |}).
  assert (Hf1 : fs w1 !! path = Some f1) by apply lookup_insert_eq.
  split.
  - destruct (MachO_write path m' w) as [[[]|e] w0] eqn:Ew; [|discriminate].
    pose proof (MachO_write_ok_inv _ _ _ _ Ew) as Hpack.
    rewrite (MachO_write_ok path m' w f ft sl Hf Hc Hpack Hshape) in Ew.
    injection Ew as <-. cbn [headers m'] in *. fold f1 w1.
    intros Hrun. exists pages. split; [reflexivity|]. split; [assumption|].
    destruct ft as [[m archs]|].
    + destruct (fix_fat_header_ok_inv path (st_size f) w1 w' f1 m archs
                  (<[last_pos sl := h']> sl) Hf1 eq_refl Hrun) as (arch & Harchs & Hp).
      exists arch. split; [assumption|]. split; [assumption|].
      rewrite (fix_fat_header_run path (st_size f) w1 f1 m archs
                 (<[last_pos sl := h']> sl) arch Hf1 eq_refl Harchs Hp) in Hrun.
      injection Hrun as <-. cbn [fs log st_size w1 f1]. now rewrite insert_insert_eq.
    + unfold ret in Hrun. now injection Hrun as <-.
  - intros (pages' & [= <-] & Hpack & Hw').
    rewrite (MachO_write_ok path m' w f ft sl Hf Hc Hpack Hshape). cbn [headers m'].
    fold f1 w1.
    destruct ft as [[m archs]|].
    + destruct Hw' as (arch & Harchs & Hp & ->).
      rewrite (fix_fat_header_run path (st_size f) w1 f1 m archs
                 (<[last_pos sl := h']> sl) arch Hf1 eq_refl Harchs Hp).
      cbn [fs log st_size w1 f1]. now rewrite insert_insert_eq.
    + now subst w'.
Qed.

End PatcherRuns.

Section RangeFacts.

Lemma u32_spec (x : Z) : u32 x = true <-> 0 <= x < 2 ^ 32.
Proof. unfold u32. rewrite andb_true_iff, Z.leb_le, Z.ltb_lt. tauto. Qed.

Lemma u64_spec (x : Z) : u64 x = true <-> 0 <= x < 2 ^ 64.
Proof. unfold u64. rewrite andb_true_iff, Z.leb_le, Z.ltb_lt. tauto. Qed.

Lemma packable_segment (s : segment_command_64) :
  packable (Segment64 s) = true <->
  (0 <= vmaddr s < 2 ^ 64 /\ 0 <= vmsize s < 2 ^ 64) /\
  0 <= fileoff s < 2 ^ 64 /\ 0 <= filesize s < 2 ^ 64.
Proof. simpl. rewrite !andb_true_iff, !u64_spec. tauto. Qed.

Lemma packable_symtab (s : symtab_command) :
  packable (Symtab s) = true <->
  (0 <= symoff s < 2 ^ 32 /\ 0 <= nsyms s < 2 ^ 32) /\
  0 <= stroff s < 2 ^ 32 /\ 0 <= strsize s < 2 ^ 32.
Proof. simpl. rewrite !andb_true_iff, !u32_spec. tauto. Qed.

Lemma forallb_lookup {A} (p : A -> bool) (l : list A) (i : nat) (x : A) :
  forallb p l = true -> l !! i = Some x -> p x = true.
Proof.
  intros H Hl. rewrite forallb_forall in H. apply H.
  apply list_elem_of_In. eapply list_elem_of_lookup_2. eassumption.
Qed.

(** The two references of the patcher point at different commands, and
    both are found again, updated, in the patched slice. *)
Lemma patched_lookups (cmds : list command) i seg j sym (c1 c2 : command) :
  where_ is_linkedit cmds = [(i, Segment64 seg)] ->
  where_ is_symtab cmds = [(j, Symtab sym)] ->
  cmds !! i = Some (Segment64 seg) /\ cmds !! j = Some (Symtab sym) /\ i <> j /\
  (<[i := c1]> (<[j := c2]> cmds)) !! i = Some c1 /\
  (<[i := c1]> (<[j := c2]> cmds)) !! j = Some c2.
Proof.
  intros Hseg Hsym.
  assert (Hi : In (i, Segment64 seg) (where_ is_linkedit cmds)) by (rewrite Hseg; now left).
  assert (Hj : In (j, Symtab sym) (where_ is_symtab cmds)) by (rewrite Hsym; now left).
  apply where_sound in Hi as [Hi _]. apply where_sound in Hj as [Hj _].
  assert (Hne : i <> j) by (intros ->; congruence).
  repeat split; try assumption.
  - apply list_lookup_insert_eq. rewrite length_insert. eapply lookup_lt_Some; eassumption.
  - rewrite list_lookup_insert_ne by assumption.
    apply list_lookup_insert_eq. eapply lookup_lt_Some; eassumption.
Qed.

Lemma wf_content_lookup ft sl (k : nat) (h : MachOHeader) :
  wf_content (Image ft sl) = true -> sl !! k = Some h ->
  0 <= offset h /\ forallb packable (commands h) = true.
Proof.
  intros Hwf Hk.
  assert (H : forallb wf_header sl = true).
  { unfold wf_content in Hwf. destruct ft as [[m archs]|];
      apply andb_true_iff in Hwf as [[H _]%andb_true_iff _]; exact H. }
  pose proof (forallb_lookup _ _ _ _ H Hk) as Hh.
  unfold wf_header in Hh. apply andb_true_iff in Hh as [Ho Hp].
  split; [now apply Z.leb_le|assumption].
Qed.

End RangeFacts.

(** C1. Thin binary, one slice, no code signature: after the patcher has
    run on a file of [F] bytes, the symbol table's [strsize] is [F] minus
    [stroff], the __LINKEDIT segment's [filesize] is [F] minus [fileoff],
    and its [vmsize] is the least multiple of the page size (16 KiB when
    the resolved architecture name starts with "arm64", 4 KiB otherwise)
    that is at least the new [filesize]. The slice the run leaves is
    written out field by field: its offset, its header and every other
    command and field are those of the slice before the run. *)
Theorem thin_patch_sizes (path : string) (w w' : World) (f : File) (h : MachOHeader) :
  fs w !! path = Some f -> content f = Image None [h] ->
  wf_content (content f) = true -> ~ has_signature h ->
  fix_exe_for_code_signing path w = (Ok tt, w') ->
  exists i seg j sym a vm,
    where_ is_linkedit (commands h) = [(i, Segment64 seg)] /\
    where_ is_symtab (commands h) = [(j, Symtab sym)] /\
    _get_arch_string (header h) = Ok a /\
    fs w' !! path =
      Some {| st_size := st_size f;
              content := Image None
                [{| offset := offset h;
                    header := header h;
                    commands :=
                      <[i := Segment64 {| segname := segname seg; vmaddr := vmaddr seg;
                                          vmsize := vm; fileoff := fileoff seg;
                                          filesize := st_size f - fileoff seg |}]>
                        (<[j := Symtab {| symoff := symoff sym; nsyms := nsyms sym;
                                          stroff := stroff sym;
                                          strsize := st_size f - stroff sym |}]>
                           (commands h)) |}] |} /\
    (exists k, vm = k * page_size_of a) /\
    st_size f - fileoff seg <= vm /\
    forall k, st_size f - fileoff seg <= k * page_size_of a -> vm <= k * page_size_of a.
Proof.
  intros Hf Hc Hwf Hnosig Hrun.
  destruct (fix_exe_ok_checks path w w' Hrun)
    as (f0 & ft & sl & h0 & i & seg & j & sym & a & Hf0 & Hc0 & Hlast & Hsig & Hseg & Hsym & Harch).
  rewrite Hf in Hf0. injection Hf0 as <-.
  rewrite Hc in Hc0. injection Hc0 as <- <-.
  injection Hlast as <-.
  destruct (proj1 (fix_exe_success path w w' f None [h] h i seg j sym a Hf Hc eq_refl
                     Hsig Hseg Hsym Harch) Hrun) as (pages & Hceil & Hrest).
  cbv zeta in Hrest. destruct Hrest as [Hpack Hw']. subst w'. clear Hrun.
  rewrite Hc in Hwf.
  assert (Hoff : offset h = 0).
  { unfold wf_content in Hwf. apply andb_true_iff in Hwf as [[_ H0]%andb_true_iff _].
    simpl in H0. rewrite andb_true_r in H0. now apply Z.eqb_eq. }
  destruct (wf_content_lookup None [h] 0 h Hwf eq_refl) as [_ Hcmds].
  cbn [last_pos length Nat.pred list_insert] in Hpack. simpl in Hpack.
  rewrite andb_true_r in Hpack. unfold all_packable, patched_slice in Hpack.
  cbn [commands set_commands] in Hpack.
  destruct (patched_lookups (commands h) i seg j sym
              (Segment64 (patched_segment (st_size f) (offset h) (pages * page_size_of a) seg))
              (Symtab (patched_symtab (st_size f) (offset h) sym)) Hseg Hsym)
    as (Hi & Hj & _ & Hi' & Hj').
  pose proof (forallb_lookup _ _ _ _ Hcmds Hi) as Pseg.
  pose proof (forallb_lookup _ _ _ _ Hcmds Hj) as Psym.
  pose proof (forallb_lookup _ _ _ _ Hpack Hi') as Pseg'.
  pose proof (forallb_lookup _ _ _ _ Hpack Hj') as Psym'.
  apply packable_segment in Pseg, Pseg'. apply packable_symtab in Psym, Psym'.
  cbn [patched_segment patched_symtab vmaddr vmsize fileoff filesize
       symoff nsyms stroff strsize] in Pseg', Psym'.
  rewrite Hoff in *. rewrite !Z.add_0_l in *.
  pose proof (page_size_pos a) as Hpage.
  rewrite ceil_truediv_exact in Hceil by lia. injection Hceil as <-.
  destruct (ceil_mul_least (st_size f - fileoff seg) (page_size_of a) Hpage)
    as (Hle & _ & Hleast).
  exists i, seg, j, sym, a, (- (- (st_size f - fileoff seg) / page_size_of a) * page_size_of a).
  repeat split; try assumption.
  - cbn [fs]. rewrite lookup_insert_eq.
    unfold patched_slice, patched_segment, patched_symtab, set_commands.
    rewrite !Hoff, !Z.add_0_l. reflexivity.
  - eexists. reflexivity.
Qed.

Lemma thin_patch_sizes_witness :
  let w := Samples.world_of "a.out" Samples.thin_arm64 in
  let h := Samples.arm64_slice 0 in
  exists i seg j sym a vm,
    where_ is_linkedit (commands h) = [(i, Segment64 seg)] /\
    where_ is_symtab (commands h) = [(j, Symtab sym)] /\
    _get_arch_string (header h) = Ok a /\
    fs (snd (fix_exe_for_code_signing "a.out" w)) !! "a.out" =
      Some {| st_size := 0x9000;
              content := Image None
                [{| offset := offset h;
                    header := header h;
                    commands :=
                      <[i := Segment64 {| segname := segname seg; vmaddr := vmaddr seg;
                                          vmsize := vm; fileoff := fileoff seg;
                                          filesize := 0x9000 - fileoff seg |}]>
                        (<[j := Symtab {| symoff := symoff sym; nsyms := nsyms sym;
                                          stroff := stroff sym;
                                          strsize := 0x9000 - stroff sym |}]>
                           (commands h)) |}] |} /\
    (exists k, vm = k * page_size_of a) /\
    0x9000 - fileoff seg <= vm /\
    forall k, 0x9000 - fileoff seg <= k * page_size_of a -> vm <= k * page_size_of a.
Proof.
  apply (thin_patch_sizes "a.out" (Samples.world_of "a.out" Samples.thin_arm64)
           (snd (fix_exe_for_code_signing "a.out"
                   (Samples.world_of "a.out" Samples.thin_arm64)))
           Samples.thin_arm64 (Samples.arm64_slice 0));
    [reflexivity | reflexivity | reflexivity | | reflexivity].
  intros [l Hl]. simpl in Hl. intuition discriminate.
Defined.

(** C2. Fat binary: after the patcher has run on a file of [F] bytes, the
    last entry of the fat table, the one at position [length archs - 1],
    has size [F] minus that entry's offset and is otherwise as before, and
    the entry at every other position is as before; the table keeps its
    length and the file its size. *)
Theorem fat_patch_table (path : string) (w w' : World) (f : File)
    (m : fat_magic) (archs : list fat_arch) (sl : list MachOHeader) :
  fs w !! path = Some f -> content f = Image (Some (m, archs)) sl ->
  fix_exe_for_code_signing path w = (Ok tt, w') ->
  exists f' sl' archs' arch,
    fs w' !! path = Some f' /\ st_size f' = st_size f /\
    content f' = Image (Some (m, archs')) sl' /\
    archs <> [] /\
    archs !! (length archs - 1)%nat = Some arch /\
    length archs' = length archs /\
    archs' !! (length archs - 1)%nat =
      Some {| fa_cputype := fa_cputype arch; fa_cpusubtype := fa_cpusubtype arch;
              fa_offset := fa_offset arch; fa_size := st_size f - fa_offset arch;
              fa_align := fa_align arch |} /\
    forall k, k <> (length archs - 1)%nat -> archs' !! k = archs !! k.
Proof.
  intros Hf Hc Hrun.
  destruct (fix_exe_ok_checks path w w' Hrun)
    as (f0 & ft & sl0 & h & i & seg & j & sym & a & Hf0 & Hc0 & Hlast & Hsig & Hseg & Hsym & Harch).
  rewrite Hf in Hf0. injection Hf0 as <-.
  rewrite Hc in Hc0. injection Hc0 as <- <-.
  destruct (proj1 (fix_exe_success path w w' f _ sl h i seg j sym a Hf Hc Hlast
                     Hsig Hseg Hsym Harch) Hrun) as (pages & Hceil & Hrest).
  cbv zeta in Hrest. destruct Hrest as (_ & arch & Harchs & _ & ->).
  eexists _, _, (patched_archs (st_size f) archs arch), arch.
  split; [cbn [fs]; apply lookup_insert_eq|].
  split; [reflexivity|]. split; [reflexivity|].
  apply index_last_lookup in Harchs as [Hlook Hne].
  unfold patched_archs. rewrite last_pos_length in *.
  split; [assumption|]. split; [assumption|].
  split; [apply length_insert|]. split.
  - apply list_lookup_insert_eq. eapply lookup_lt_Some; eassumption.
  - intros k Hk. apply list_lookup_insert_ne. congruence.
Qed.

Lemma fat_patch_table_witness :
  let w := Samples.world_of "a.out" Samples.fat_universal2 in
  let archs := [Samples.fat_entry 0x01000007 0x4000 0x8100;
                Samples.fat_entry 0x0100000C 0x10000 0x8100] in
  exists f' sl' archs' arch,
    fs (snd (fix_exe_for_code_signing "a.out" w)) !! "a.out" = Some f' /\
    st_size f' = 0x19000 /\
    content f' = Image (Some (FAT_MAGIC, archs')) sl' /\
    archs <> [] /\
    archs !! 1%nat = Some arch /\
    length archs' = 2%nat /\
    archs' !! 1%nat =
      Some {| fa_cputype := fa_cputype arch; fa_cpusubtype := fa_cpusubtype arch;
              fa_offset := fa_offset arch; fa_size := 0x19000 - fa_offset arch;
              fa_align := fa_align arch |} /\
    forall k, k <> 1%nat -> archs' !! k = archs !! k.
Proof.
  apply (fat_patch_table "a.out" (Samples.world_of "a.out" Samples.fat_universal2)
           (snd (fix_exe_for_code_signing "a.out"
                   (Samples.world_of "a.out" Samples.fat_universal2)))
           Samples.fat_universal2 FAT_MAGIC
           [Samples.fat_entry 0x01000007 0x4000 0x8100;
            Samples.fat_entry 0x0100000C 0x10000 0x8100]
           [Samples.x86_64_slice 0x4000; Samples.arm64_slice 0x10000]);
    reflexivity.
Defined.

Section PreconditionFacts.





End PreconditionFacts.




(* ===================================================================== *)
(** * The architecture gate *)
(* ===================================================================== *)

Section GateFacts.

Lemma get_binary_architectures_run (path : string) (w : World) f ft sl names :
  fs w !! path = Some f -> content f = Image ft sl -> slice_names sl = Ok names ->
  get_binary_architectures path w =
  (Ok (match ft with Some _ => true | None => false end, names), w).
Proof.
  intros Hf Hc Hn.
  unfold get_binary_architectures, bind at 1, except_ValueError, MachO_load.
  rewrite Hf, Hc. rewrite bind_lift. cbn [headers fat].
  unfold slice_names in Hn. rewrite Hn. unfold ret.
  destruct ft; reflexivity.
Qed.

End GateFacts.

(** C7, as the code has it. For a binary every slice of which has an
    architecture the resolver handles, requiring "universal2" succeeds
    exactly when the binary is fat, and on a thin binary it fails with
    [IncompatibleBinaryArchError], whatever the architecture. *)
Theorem universal2_gate (exec_command_all : list string -> M (Z * string * string))
    (path : string) (display_name : option string) (w : World) (f : File)
    ft (sl : list MachOHeader) (names : list string) :
  fs w !! path = Some f -> content f = Image ft sl -> slice_names sl = Ok names ->
  (binary_to_target_arch exec_command_all path "universal2" display_name w = (Ok tt, w)
   <-> ft <> None) /\
  (ft = None ->
   binary_to_target_arch exec_command_all path "universal2" display_name w =
   (Raise (IncompatibleBinaryArchError
             (shown_name path display_name +:+ " is not a fat binary!")), w)).
Proof.
  intros Hf Hc Hn.
  assert (Hrun : binary_to_target_arch exec_command_all path "universal2" display_name w =
                 match ft with
                 | Some _ => (Ok tt, w)
                 | None => (Raise (IncompatibleBinaryArchError
                                     (shown_name path display_name +:+ " is not a fat binary!")),
                            w)
                 end).
  { unfold binary_to_target_arch, bind at 1.
    rewrite (get_binary_architectures_run path w f ft sl names Hf Hc Hn).
    cbn [String.eqb Ascii.eqb Bool.eqb]. fold (shown_name path display_name).
    destruct ft; reflexivity. }
  rewrite Hrun. destruct ft as [ft0|].
  - split; [split; [discriminate|reflexivity]|discriminate].
  - split; [split; [discriminate|congruence]|reflexivity].
Qed.

(** C7, where the claim as stated fails: a fat binary with a PowerPC slice
    is refused, and a thin PowerPC binary is refused with an assertion
    failure, not with [IncompatibleBinaryArchError]. *)
Lemma universal2_unhandled_arch :
  binary_to_target_arch lipo_succeeds "a.out" "universal2" None
    (Samples.world_of "a.out" Samples.fat_ppc)
  = (Raise (AssertionError "Unhandled architecture!"),
     Samples.world_of "a.out" Samples.fat_ppc) /\
  binary_to_target_arch lipo_succeeds "a.out" "universal2" None
    (Samples.world_of "a.out" Samples.thin_ppc64)
  = (Raise (AssertionError "Unhandled architecture!"),
     Samples.world_of "a.out" Samples.thin_ppc64).
Proof. split; reflexivity. Qed.

Lemma universal2_gate_witness :
  (binary_to_target_arch lipo_succeeds "a.out" "universal2" None
     (Samples.world_of "a.out" Samples.fat_universal2)
   = (Ok tt, Samples.world_of "a.out" Samples.fat_universal2)
   <-> Some (FAT_MAGIC, [Samples.fat_entry 0x01000007 0x4000 0x8100;
                         Samples.fat_entry 0x0100000C 0x10000 0x8100]) <> None) /\
  binary_to_target_arch lipo_succeeds "a.out" "universal2" (Some "app")
    (Samples.world_of "a.out" Samples.thin_x86_64)
  = (Raise (IncompatibleBinaryArchError
              (shown_name "a.out" (Some "app") +:+ " is not a fat binary!")),
     Samples.world_of "a.out" Samples.thin_x86_64).
Proof.
  split.
  - apply (universal2_gate lipo_succeeds "a.out" None
             (Samples.world_of "a.out" Samples.fat_universal2) Samples.fat_universal2
             _ [Samples.x86_64_slice 0x4000; Samples.arm64_slice 0x10000]
             ["x86_64"; "arm64"]); reflexivity.
  - apply (universal2_gate lipo_succeeds "a.out" (Some "app")
             (Samples.world_of "a.out" Samples.thin_x86_64) Samples.thin_x86_64
             None [Samples.x86_64_slice 0] ["x86_64"]); reflexivity.
Defined.

(** C9, as the code has it. When the gate sends a fat binary to the
    thinning tool and the tool exits with a non-zero status, the call
    raises [SystemError] with the fixed message "lipo failure!"; the
    command line, the exit status and the two outputs go to the log, in a
    warning. *)
Theorem thinning_failure (exec_command_all : list string -> M (Z * string * string))
    (path target : string) (display_name : option string) (w w1 : World) (f : File)
    (m : fat_magic) (archs : list fat_arch) (sl : list MachOHeader) (names : list string)
    (retcode : Z) (stdout stderr : string) :
  fs w !! path = Some f -> content f = Image (Some (m, archs)) sl ->
  slice_names sl = Ok names ->
  target <> "universal2" -> str_in target names = true ->
  exec_command_all (lipo_args path target)
    {| fs := fs w;
       log := log w ++ [LogDebug "Converting fat binary %s (%s) to thin binary (%s)"
                          [path; shown_name path display_name; target]] |}
  = (Ok (retcode, stdout, stderr), w1) ->
  retcode <> 0 ->
  binary_to_target_arch exec_command_all path target display_name w =
  (Raise (SystemError "lipo failure!"),
   {| fs := fs w1;
      log := log w1 ++
             [LogWarning ("lipo command (%r) failed with error code %d!" +:+ LF +:+
                          "stdout: %r" +:+ LF +:+ "stderr: %r")
                (lipo_args path target) retcode stdout stderr] |}).
Proof.
  intros Hf Hc Hn Htarget Hin Hexec Hret.
  unfold binary_to_target_arch, bind at 1.
  rewrite (get_binary_architectures_run path w f _ sl names Hf Hc Hn).
  fold (shown_name path display_name).
  destruct (String.eqb_spec target "universal2") as [->|_]; [congruence|].
  rewrite Hin. cbn [negb].
  unfold bind at 1, logger_emit at 1.
  unfold convert_binary_to_thin_arch, bind at 1.
  fold (lipo_args path target). rewrite Hexec.
  destruct (Z.eqb_spec retcode 0) as [->|_]; [congruence|]. cbn [negb].
  reflexivity.
Qed.

(** C9, where the claim as stated fails: two failures of the tool that
    differ in exit status and in both outputs raise the same exception,
    which therefore carries none of them. *)
Lemma lipo_failure_same_exception :
  fst (binary_to_target_arch (lipo_fails 1 "" "can't open input file") "a.out" "arm64" None
         (Samples.world_of "a.out" Samples.fat_universal2))
  = Raise (SystemError "lipo failure!") /\
  fst (binary_to_target_arch (lipo_fails 70 "fatal error" "") "a.out" "arm64" None
         (Samples.world_of "a.out" Samples.fat_universal2))
  = Raise (SystemError "lipo failure!").
Proof. split; reflexivity. Qed.

Lemma thinning_failure_witness :
  binary_to_target_arch (lipo_fails 1 "" "can't open input file") "a.out" "arm64" None
    (Samples.world_of "a.out" Samples.fat_universal2)
  = (Raise (SystemError "lipo failure!"),
     {| fs := {[ "a.out" := Samples.fat_universal2 ]};
        log := [LogDebug "Converting fat binary %s (%s) to thin binary (%s)"
                  ["a.out"; "a.out"; "arm64"];
                LogWarning ("lipo command (%r) failed with error code %d!" +:+ LF +:+
                            "stdout: %r" +:+ LF +:+ "stderr: %r")
                  (lipo_args "a.out" "arm64") 1 "" "can't open input file"] |}).
Proof.
  exact (thinning_failure (lipo_fails 1 "" "can't open input file") "a.out" "arm64" None
           (Samples.world_of "a.out" Samples.fat_universal2)
           {| fs := {[ "a.out" := Samples.fat_universal2 ]};
              log := [LogDebug "Converting fat binary %s (%s) to thin binary (%s)"
                        ["a.out"; "a.out"; "arm64"]] |}
           Samples.fat_universal2 FAT_MAGIC
           [Samples.fat_entry 0x01000007 0x4000 0x8100;
            Samples.fat_entry 0x0100000C 0x10000 0x8100]
           [Samples.x86_64_slice 0x4000; Samples.arm64_slice 0x10000]
           ["x86_64"; "arm64"] 1 "" "can't open input file"
           eq_refl eq_refl eq_refl ltac:(discriminate) eq_refl eq_refl ltac:(discriminate)).
Defined.

(* ===================================================================== *)
(** * Further properties of the version codec *)
(* ===================================================================== *)

Section FindVersionFacts.

Lemma where_from_nil {A} (p : A -> bool) (k : nat) (l : list A) :
  where_from p k l = [] <-> forall j c, l !! j = Some c -> p c = false.
Proof.
  revert k. induction l as [|x l IH]; intros k; simpl.
  - split; [intros _ j c; destruct j; discriminate|reflexivity].
  - destruct (p x) eqn:E.
    + split; [discriminate|]. intros H. specialize (H 0%nat x eq_refl). congruence.
    + rewrite IH. split.
      * intros H [|j] c; simpl; [now intros [= <-]|apply H].
      * intros H j c Hj. apply (H (S j)). exact Hj.
Qed.

(** One reference is selected exactly when one position passes the test. *)
Lemma where_from_single {A} (p : A -> bool) (k : nat) (l : list A) (i : nat) (c : A) :
  where_from p k l = [(i, c)] <->
  exists n, i = (k + n)%nat /\ l !! n = Some c /\ p c = true /\
            forall j c', l !! j = Some c' -> p c' = true -> j = n.
Proof.
  revert k. induction l as [|x l IH]; intros k; simpl.
  - split; [discriminate|]. intros (n & _ & Hn & _). destruct n; discriminate.
  - destruct (p x) eqn:E.
    + split.
      * intros [= <- <- Hrest]. exists 0%nat. rewrite Nat.add_0_r.
        repeat split; try assumption.
        intros [|j] c' Hj Hc'; [reflexivity|]. simpl in Hj.
        rewrite where_from_nil in Hrest. specialize (Hrest j c' Hj). congruence.
      * intros (n & -> & Hn & Hc & Huniq).
        assert (n = 0%nat) as -> by (symmetry; apply (Huniq 0%nat x eq_refl E)).
        simpl in Hn. injection Hn as <-. rewrite Nat.add_0_r. f_equal.
        apply where_from_nil. intros j c' Hj.
        destruct (p c') eqn:Ec'; [|reflexivity].
        specialize (Huniq (S j) c' Hj Ec'). discriminate.
    + rewrite IH. split.
      * intros (n & -> & Hn & Hc & Huniq). exists (S n).
        repeat split; try assumption; [lia|].
        intros [|j] c' Hj Hc'; simpl in Hj.
        -- injection Hj as <-. congruence.
        -- f_equal. now apply (Huniq j c').
      * intros (n & -> & Hn & Hc & Huniq).
        destruct n as [|n]; [simpl in Hn; injection Hn as <-; congruence|].
        exists n. repeat split; try assumption; [lia|].
        intros j c' Hj Hc'. specialize (Huniq (S j) c' Hj Hc'). lia.
Qed.

End FindVersionFacts.

(** X1. [_find_version_cmd] returns the command at position [i] exactly
    when that command is the one version command of the slice: it is a
    [BuildVersion] or a [VersionMin], and no other position holds one. *)
Theorem find_version_cmd_unique (h : MachOHeader) (i : nat) (c : command) :
  _find_version_cmd h = Ok (i, c) <->
  commands h !! i = Some c /\ is_version_cmd c = true /\
  forall j c', commands h !! j = Some c' -> is_version_cmd c' = true -> j = i.
Proof.
  split.
  - intros H. apply find_version_cmd_inv in H. unfold where_ in H.
    apply where_from_single in H as (n & -> & Hn & Hc & Hu). auto.
  - intros (Hi & Hc & Hu). apply find_version_cmd_intro. unfold where_.
    apply where_from_single. exists i. auto.
Qed.

(** With no version command, or with two, the finder fails its assertion. *)
Lemma find_version_cmd_refuses (h : MachOHeader) :
  length (where_ is_version_cmd (commands h)) <> 1%nat ->
  _find_version_cmd h =
  Raise (AssertionError
           "Expected exactly one LC_BUILD_VERSION or LC_VERSION_MIN_MACOSX command!").
Proof.
  intros H. unfold _find_version_cmd, assert_.
  destruct (Nat.eqb_spec (length (where_ is_version_cmd (commands h))) 1); [contradiction|].
  reflexivity.
Qed.

Section RepackFacts.

Lemma pack_sum (major minor revision : Z) :
  0 <= major -> 0 <= minor < 256 -> 0 <= revision < 256 ->
  Z.lor (Z.lor (Z.shiftl major 16) (Z.shiftl minor 8)) revision
  = major * 65536 + minor * 256 + revision.
Proof.
  intros HM HN HR. rewrite !Z.shiftl_mul_pow2 by lia.
  rewrite (lor_add major (minor * 2 ^ 8) 16) by lia.
  replace (major * 2 ^ 16 + minor * 2 ^ 8) with ((major * 256 + minor) * 2 ^ 8) by lia.
  rewrite lor_add by lia. lia.
Qed.

End RepackFacts.

(** X2. Whatever the stored 32-bit value, the three decoded components
    are bytes, and packing them again the way [set_macos_sdk_version] does
    gives the stored value with bits 24 and up cleared. *)
Theorem hex_triplet_repack (version : Z) :
  let '(major, minor, revision) := _hex_triplet version in
  (0 <= major <= 255 /\ 0 <= minor <= 255 /\ 0 <= revision <= 255) /\
  Z.lor (Z.lor (Z.shiftl major 16) (Z.shiftl minor 8)) revision
  = Z.land version 0xFFFFFF.
Proof.
  rewrite hex_triplet_div_mod.
  change (2 ^ 16) with 65536. change (2 ^ 8) with 256.
  pose proof (Z.mod_pos_bound (version / 65536) 256 ltac:(lia)) as HM.
  pose proof (Z.mod_pos_bound (version / 256) 256 ltac:(lia)) as HN.
  pose proof (Z.mod_pos_bound version 256 ltac:(lia)) as HR.
  split; [lia|].
  rewrite pack_sum by lia.
  change 0xFFFFFF with (Z.ones 24). rewrite Z.land_ones by lia.
  change (2 ^ 24) with 16777216.
  pose proof (Z.div_mod version 256 ltac:(lia)) as E1.
  pose proof (Z.div_mod (version / 256) 256 ltac:(lia)) as E2.
  pose proof (Z.div_mod (version / 65536) 256 ltac:(lia)) as E3.
  rewrite Z.div_div in E2 by lia. change (256 * 256) with 65536 in E2.
  apply Z.mod_unique_pos with (q := version / 65536 / 256); lia.
Qed.

(* ===================================================================== *)
(** * The readers *)
(* ===================================================================== *)

(** X3. The three readers never write: whatever they return or raise,
    the files and the log are as they were. *)
Theorem readers_leave_the_world (path : string) (w : World) :
  snd (get_macos_sdk_version path w) = w /\
  snd (macosx_version_min path w) = w /\
  snd (get_binary_architectures path w) = w.
Proof.
  repeat split.
  - unfold get_macos_sdk_version, bind, lift, ret, MachO_load.
    destruct (fs w !! path) as [f|]; [|reflexivity].
    destruct (content f); [destruct (st_size f <? 4); reflexivity|]. cbn [headers].
    destruct (index _ _); [|reflexivity].
    destruct (_find_version_cmd _); [|reflexivity].
    destruct (get_sdk _); reflexivity.
  - unfold macosx_version_min, bind, lift, MachO_load.
    destruct (fs w !! path) as [f|]; [|reflexivity].
    destruct (content f); [destruct (st_size f <? 4); reflexivity|]. cbn [headers].
    destruct (collect_versions _ _); reflexivity.
  - unfold get_binary_architectures, bind, lift, ret, except_ValueError, MachO_load.
    destruct (fs w !! path) as [f|]; [|reflexivity].
    destruct (content f); [destruct (st_size f <? 4); reflexivity|]. cbn [headers].
    destruct (map_result _ _); reflexivity.
Qed.

Section ArchitecturesFacts.

Lemma map_result_Forall2 {A B} (f : A -> result B) (l : list A) (ys : list B) :
  map_result f l = Ok ys <-> Forall2 (fun x y => f x = Ok y) l ys.
Proof.
  revert ys. induction l as [|x l IH]; intros ys; simpl.
  - split; [intros [= <-]; constructor|intros H; inversion H; reflexivity].
  - destruct (f x) as [y|e] eqn:Ex; simpl.
    + destruct (map_result f l) as [ys'|e] eqn:El; simpl.
      * split.
        -- intros [= <-]. constructor; [assumption|now apply IH].
        -- intros H. inversion H as [|x0 y0 l0 ys0 Hy Hl]; subst.
           apply IH in Hl. congruence.
      * split; [discriminate|].
        intros H. inversion H as [|x0 y0 l0 ys0 Hy Hl]; subst.
        apply IH in Hl. discriminate.
    + split; [discriminate|].
      intros H. inversion H as [|x0 y0 l0 ys0 Hy Hl]; subst. congruence.
Qed.

End ArchitecturesFacts.

(** X4. [get_binary_architectures] turns the reader's [ValueError] into
    [InvalidBinaryError] and nothing else: on bytes of at least the length
    of a magic number that are no Mach-O image it raises
    [InvalidBinaryError], and on a file of fewer than four bytes the
    reader's [struct.error] comes through as it is. On a Mach-O image it
    returns [(is_fat, archs)] exactly when [is_fat] tells whether the file
    has a fat header and [archs] holds the resolved name of every slice,
    one per slice, in the order of the slices. *)
Theorem get_binary_architectures_spec (path : string) (w : World) (f : File) :
  fs w !! path = Some f ->
  match content f with
  | NotMachO =>
      (4 <= st_size f ->
       fst (get_binary_architectures path w)
       = Raise (InvalidBinaryError "Invalid Mach-O binary!")) /\
      (st_size f < 4 ->
       fst (get_binary_architectures path w) = Raise struct_error)
  | Image ft sl =>
      forall is_fat archs,
        fst (get_binary_architectures path w) = Ok (is_fat, archs) <->
        is_fat = match ft with Some _ => true | None => false end /\
        Forall2 (fun h a => _get_arch_string (header h) = Ok a) sl archs
  end.
Proof.
  intros Hf.
  unfold get_binary_architectures, bind, lift, ret, except_ValueError, MachO_load.
  rewrite Hf. destruct (content f) as [|ft sl].
  { destruct (Z.ltb_spec (st_size f) 4); split; intros; try lia; reflexivity. }
  intros is_fat archs. cbn [headers fat].
  rewrite <- map_result_Forall2.
  destruct (map_result _ sl) as [names|e]; cbn [fst].
  - destruct ft; cbn; split.
    + intros [= <- <-]. auto.
    + intros [-> [= ->]]. reflexivity.
    + intros [= <- <-]. auto.
    + intros [-> [= ->]]. reflexivity.
  - split; [discriminate|intros [_ [=]]].
Qed.

Lemma get_binary_architectures_spec_witness :
  (fst (get_binary_architectures "a.out" (Samples.world_of "a.out" Samples.fat_universal2))
   = Ok (true, ["x86_64"; "arm64"]) <->
   true = true /\
   Forall2 (fun h a => _get_arch_string (header h) = Ok a)
     [Samples.x86_64_slice 0x4000; Samples.arm64_slice 0x10000] ["x86_64"; "arm64"]) /\
  fst (get_binary_architectures "a.txt" (Samples.world_of "a.txt" Samples.text_file))
  = Raise (InvalidBinaryError "Invalid Mach-O binary!") /\
  fst (get_binary_architectures "empty" (Samples.world_of "empty" Samples.empty_file))
  = Raise struct_error.
Proof.
  split; [|split].
  - exact (get_binary_architectures_spec "a.out"
             (Samples.world_of "a.out" Samples.fat_universal2) Samples.fat_universal2
             eq_refl true ["x86_64"; "arm64"]).
  - apply (get_binary_architectures_spec "a.txt"
             (Samples.world_of "a.txt" Samples.text_file) Samples.text_file eq_refl).
    simpl. lia.
  - apply (get_binary_architectures_spec "empty"
             (Samples.world_of "empty" Samples.empty_file) Samples.empty_file eq_refl).
    simpl. lia.
Defined.

(* ===================================================================== *)
(** * Further properties of the architecture gate *)
(* ===================================================================== *)

Section GateMoreFacts.

Lemma get_binary_architectures_world (path : string) (w : World) :
  snd (get_binary_architectures path w) = w.
Proof.
  unfold get_binary_architectures, bind, lift, ret, except_ValueError, MachO_load.
  destruct (fs w !! path) as [f|]; [|reflexivity].
  destruct (content f); [destruct (st_size f <? 4); reflexivity|]. cbn [headers].
  destruct (map_result _ _); reflexivity.
Qed.

End GateMoreFacts.

(** X5. Unless the binary is fat, the target is a concrete architecture
    and one of the slices has it, the gate does not run the thinning tool:
    its outcome is the same with any tool, and the files and the log are
    as they were. *)
Theorem gate_without_tool (exec exec' : list string -> M (Z * string * string))
    (path target : string) (display_name : option string) (w : World) :
  needs_thinning path target w = false ->
  binary_to_target_arch exec path target display_name w
  = binary_to_target_arch exec' path target display_name w /\
  snd (binary_to_target_arch exec path target display_name w) = w.
Proof.
  unfold needs_thinning, binary_to_target_arch, bind at 1 4 7.
  pose proof (get_binary_architectures_world path w) as Hw.
  destruct (get_binary_architectures path w) as [[[is_fat archs]|e] w0];
    cbn [fst snd] in *; subst w0; [|auto].
  destruct is_fat; cbn [negb].
  - destruct (String.eqb target "universal2"); cbn [negb andb]; [auto|].
    intros ->. cbn [negb]. auto.
  - intros _. destruct (String.eqb target "universal2"); [auto|].
    destruct (str_in target archs); cbn [negb]; [auto|].
    unfold bind, lift, raise. destruct (index archs 0); auto.
Qed.

Lemma gate_without_tool_witness :
  binary_to_target_arch (lipo_fails 1 "" "") "a.out" "arm64" None
    (Samples.world_of "a.out" Samples.thin_x86_64)
  = binary_to_target_arch lipo_succeeds "a.out" "arm64" None
      (Samples.world_of "a.out" Samples.thin_x86_64) /\
  snd (binary_to_target_arch (lipo_fails 1 "" "") "a.out" "arm64" None
         (Samples.world_of "a.out" Samples.thin_x86_64))
  = Samples.world_of "a.out" Samples.thin_x86_64.
Proof.
  apply (gate_without_tool (lipo_fails 1 "" "") lipo_succeeds "a.out" "arm64" None).
  reflexivity.
Defined.

(** X6. A thin binary whose architecture resolves passes the gate for a
    concrete target exactly when the target is that architecture;
    otherwise the gate raises [IncompatibleBinaryArchError] with a message
    that names the architecture the binary has. Nothing is written either
    way. *)
Theorem gate_thin (exec : list string -> M (Z * string * string))
    (path target : string) (display_name : option string) (w : World) (f : File)
    (h : MachOHeader) (a : string) :
  fs w !! path = Some f -> content f = Image None [h] ->
  _get_arch_string (header h) = Ok a -> target <> "universal2" ->
  binary_to_target_arch exec path target display_name w =
  if String.eqb target a then (Ok tt, w)
  else (Raise (IncompatibleBinaryArchError
                 (shown_name path display_name +:+ " is incompatible with target arch "
                  +:+ target +:+ " (has arch: " +:+ a +:+ ")!")), w).
Proof.
  intros Hf Hc Ha Ht.
  unfold binary_to_target_arch, bind at 1.
  rewrite (get_binary_architectures_run path w f None [h] [a] Hf Hc)
    by (unfold slice_names; simpl; now rewrite Ha).
  fold (shown_name path display_name).
  destruct (String.eqb_spec target "universal2"); [contradiction|].
  unfold str_in. cbn [existsb]. rewrite orb_false_r.
  destruct (String.eqb target a); reflexivity.
Qed.

Lemma gate_thin_witness :
  binary_to_target_arch lipo_succeeds "a.out" "arm64" (Some "app")
    (Samples.world_of "a.out" Samples.thin_x86_64)
  = (Raise (IncompatibleBinaryArchError
              "app is incompatible with target arch arm64 (has arch: x86_64)!"),
     Samples.world_of "a.out" Samples.thin_x86_64).
Proof.
  exact (gate_thin lipo_succeeds "a.out" "arm64" (Some "app")
           (Samples.world_of "a.out" Samples.thin_x86_64) Samples.thin_x86_64
           (Samples.x86_64_slice 0) "x86_64" eq_refl eq_refl eq_refl ltac:(discriminate)).
Defined.

(** X7. When the gate decides to thin, it logs one debug line and runs
    [lipo -thin target path -output path] once; when the tool exits with
    status 0 the gate returns normally and the world is the one the tool
    left. *)
Theorem gate_thins (exec : list string -> M (Z * string * string))
    (path target : string) (display_name : option string) (w w1 : World)
    (stdout stderr : string) :
  needs_thinning path target w = true ->
  exec (lipo_args path target) (with_thinning_logged path target display_name w)
  = (Ok (0, stdout, stderr), w1) ->
  binary_to_target_arch exec path target display_name w = (Ok tt, w1).
Proof.
  unfold needs_thinning, binary_to_target_arch, bind at 1.
  pose proof (get_binary_architectures_world path w) as Hw.
  destruct (get_binary_architectures path w) as [[[is_fat archs]|e] w0];
    cbn [fst snd] in *; subst w0; [|discriminate].
  destruct is_fat; [|discriminate].
  destruct (String.eqb target "universal2"); [discriminate|]. cbn [negb andb].
  intros -> Hexec. cbn [negb].
  unfold bind at 1, logger_emit at 1.
  fold (shown_name path display_name).
  fold (with_thinning_logged path target display_name w).
  unfold convert_binary_to_thin_arch, bind at 1.
  fold (lipo_args path target). rewrite Hexec. reflexivity.
Qed.

Lemma gate_thins_witness :
  binary_to_target_arch lipo_succeeds "a.out" "arm64" None
    (Samples.world_of "a.out" Samples.fat_universal2)
  = (Ok tt, with_thinning_logged "a.out" "arm64" None
              (Samples.world_of "a.out" Samples.fat_universal2)).
Proof.
  exact (gate_thins lipo_succeeds "a.out" "arm64" None
           (Samples.world_of "a.out" Samples.fat_universal2) _ "" "" eq_refl eq_refl).
Defined.

(* ===================================================================== *)
(** * Further properties of [set_macos_sdk_version] *)
(* ===================================================================== *)

Section SetSdkFacts.

(** The packed value [set_macos_sdk_version] stores. *)
Lemma packed_u32 (major minor revision : Z) :
  0 <= major <= 255 -> 0 <= minor <= 255 -> 0 <= revision <= 255 ->
  u32 (Z.lor (Z.lor (Z.shiftl major 16) (Z.shiftl minor 8)) revision) = true.
Proof.
  intros HM HN HR. rewrite pack_sum by lia. apply u32_spec. lia.
Qed.

Lemma valid_triplet_asserts (major minor revision : Z) :
  0 <= major <= 255 -> 0 <= minor <= 255 -> 0 <= revision <= 255 ->
  (0 <=? major) && (major <=? 255) = true /\
  (0 <=? minor) && (minor <=? 255) = true /\
  (0 <=? revision) && (revision <=? 255) = true.
Proof. intros. rewrite !andb_true_iff, !Z.leb_le. lia. Qed.

(** The run of the setter on a valid triplet once the version command is
    found: what is left is the write. *)
Lemma set_macos_sdk_version_run (path : string) (w : World) (major minor revision : Z)
    f ft h sl i c c' :
  0 <= major <= 255 -> 0 <= minor <= 255 -> 0 <= revision <= 255 ->
  fs w !! path = Some f -> content f = Image ft (h :: sl) ->
  _find_version_cmd h = Ok (i, c) ->
  set_sdk c (Z.lor (Z.lor (Z.shiftl major 16) (Z.shiftl minor 8)) revision) = Ok c' ->
  set_macos_sdk_version path major minor revision w =
  MachO_write path
    {| filename := path; fat := load_fat_header <$> ft;
       headers := set_commands h (<[i := c']> (commands h)) :: sl |} w.
Proof.
  intros HM HN HR Hf Hc Hfind Hset.
  destruct (valid_triplet_asserts major minor revision HM HN HR) as (A1 & A2 & A3).
  unfold set_macos_sdk_version.
  rewrite bind_lift, A1. cbn [assert_]. rewrite bind_lift, A2. cbn [assert_].
  rewrite bind_lift, A3. cbn [assert_].
  unfold bind at 1. unfold MachO_load. rewrite Hf, Hc.
  rewrite bind_lift. cbn [headers]. unfold index. cbn [lookup list_lookup].
  rewrite bind_lift, Hfind. cbn [snd fst]. rewrite bind_lift, Hset.
  reflexivity.
Qed.

(** A successful run of the setter, taken apart. *)
Lemma set_macos_sdk_version_ok_inv (path : string) (w w' : World)
    (major minor revision : Z) :
  set_macos_sdk_version path major minor revision w = (Ok tt, w') ->
  (0 <= major <= 255 /\ 0 <= minor <= 255 /\ 0 <= revision <= 255) /\
  exists f ft h sl i c c',
    fs w !! path = Some f /\ content f = Image ft (h :: sl) /\
    _find_version_cmd h = Ok (i, c) /\
    set_sdk c (Z.lor (Z.lor (Z.shiftl major 16) (Z.shiftl minor 8)) revision) = Ok c' /\
    forallb all_packable (set_commands h (<[i := c']> (commands h)) :: sl) = true /\
    w' = {| fs := <[path := {| st_size := st_size f;
                               content := Image ft (set_commands h (<[i := c']> (commands h))
                                                    :: sl) |}]> (fs w);
            log := log w |}.
Proof.
  intros Hrun.
  assert (Hvalid : 0 <= major <= 255 /\ 0 <= minor <= 255 /\ 0 <= revision <= 255).
  { revert Hrun. unfold set_macos_sdk_version.
    rewrite bind_lift. unfold assert_ at 1.
    destruct ((0 <=? major) && (major <=? 255)) eqn:A1; [|discriminate].
    rewrite bind_lift. unfold assert_ at 1.
    destruct ((0 <=? minor) && (minor <=? 255)) eqn:A2; [|discriminate].
    rewrite bind_lift. unfold assert_ at 1.
    destruct ((0 <=? revision) && (revision <=? 255)) eqn:A3; [|discriminate].
    intros _. rewrite andb_true_iff, !Z.leb_le in A1, A2, A3. lia. }
  split; [exact Hvalid|]. destruct Hvalid as (HM & HN & HR).
  destruct (valid_triplet_asserts major minor revision HM HN HR) as (A1 & A2 & A3).
  revert Hrun. unfold set_macos_sdk_version.
  rewrite bind_lift, A1. cbn [assert_]. rewrite bind_lift, A2. cbn [assert_].
  rewrite bind_lift, A3. cbn [assert_].
  unfold bind at 1. unfold MachO_load.
  destruct (fs w !! path) as [f|] eqn:Hf; [|discriminate].
  destruct (content f) as [|ft sl0] eqn:Hc; [destruct (st_size f <? 4); discriminate|].
  rewrite bind_lift. cbn [headers]. unfold index.
  destruct sl0 as [|h sl]; [discriminate|]. cbn [lookup list_lookup].
  rewrite bind_lift.
  destruct (_find_version_cmd h) as [[i c]|e] eqn:Hfind; [|discriminate].
  cbn [snd fst]. rewrite bind_lift.
  destruct (set_sdk c _) as [c'|e] eqn:Hset; [|discriminate].
  cbn [list_insert set_headers headers Macholib.filename].
  intros Hw.
  pose proof (MachO_write_ok_inv _ _ _ _ Hw) as Hpack. cbn [headers] in Hpack.
  rewrite (MachO_write_ok path _ w f ft (h :: sl) Hf Hc Hpack) in Hw.
  - injection Hw as <-. exists f, ft, h, sl, i, c, c'. cbn [headers]. auto 10.
  - cbn [headers]. constructor; [|apply same_shape_refl].
    unfold same_shape. simpl. apply length_insert.
Qed.

(** Assigning the SDK field changes nothing else of the command. *)
Lemma set_sdk_keeps (c c' : command) (x : Z) :
  set_sdk c x = Ok c' ->
  cmd c' = cmd c /\ get_version c' = get_version c /\ get_minos c' = get_minos c /\
  is_version_cmd c' = true /\ forall y, set_sdk c' y = set_sdk c y.
Proof.
  destruct c; simpl; try discriminate; intros [= <-]; simpl; auto.
Qed.

Lemma header_min_version_set_sdk (h : MachOHeader) (i : nat) (c c' : command) (x : Z) :
  _find_version_cmd h = Ok (i, c) -> set_sdk c x = Ok c' ->
  _find_version_cmd (set_commands h (<[i := c']> (commands h))) = Ok (i, c') /\
  header_min_version (set_commands h (<[i := c']> (commands h))) = header_min_version h.
Proof.
  intros Hfind Hset.
  destruct (set_sdk_keeps c c' x Hset) as (Hk & Hv & Hm & Hp & _).
  assert (Hfind' : _find_version_cmd (set_commands h (<[i := c']> (commands h)))
                   = Ok (i, c')).
  { apply find_version_cmd_intro. simpl.
    apply where_insert_single with (c := c); [|assumption].
    now apply find_version_cmd_inv. }
  split; [assumption|].
  unfold header_min_version. rewrite Hfind, Hfind'. simpl.
  now rewrite Hk, Hv, Hm.
Qed.

End SetSdkFacts.

(** X8. A successful [set_macos_sdk_version] changes the SDK field and
    nothing a reader can see besides: the minimum OS version and the
    architectures of the binary are what they were, the log is untouched
    and so is every other file. *)
Theorem set_sdk_version_frame (path : string) (w w' : World) (major minor revision : Z) :
  set_macos_sdk_version path major minor revision w = (Ok tt, w') ->
  fst (macosx_version_min path w') = fst (macosx_version_min path w) /\
  fst (get_binary_architectures path w') = fst (get_binary_architectures path w) /\
  log w' = log w /\
  forall p, p <> path -> fs w' !! p = fs w !! p.
Proof.
  intros Hrun.
  apply set_macos_sdk_version_ok_inv in Hrun
    as (_ & f & ft & h & sl & i & c & c' & Hf & Hc & Hfind & Hset & _ & ->).
  destruct (header_min_version_set_sdk h i c c' _ Hfind Hset) as [_ Hmin].
  repeat split.
  - unfold macosx_version_min, bind, lift, MachO_load. cbn [fs].
    rewrite lookup_insert_eq, Hf, Hc. cbn [content headers collect_versions].
    rewrite Hmin. destruct (rbind _ _); reflexivity.
  - unfold get_binary_architectures, bind, lift, ret, except_ValueError, MachO_load.
    cbn [fs]. rewrite lookup_insert_eq, Hf, Hc. cbn [content headers fat map_result].
    cbn [header set_commands]. destruct (rbind _ _); reflexivity.
  - intros p Hp. cbn [fs]. now apply lookup_insert_ne.
Qed.

Lemma set_sdk_version_frame_witness :
  let w := Samples.world_of "a.out" Samples.fat_universal2 in
  let w' := snd (set_macos_sdk_version "a.out" 12 3 1 w) in
  fst (macosx_version_min "a.out" w') = fst (macosx_version_min "a.out" w) /\
  fst (get_binary_architectures "a.out" w') = fst (get_binary_architectures "a.out" w) /\
  log w' = log w /\
  forall p, p <> "a.out" -> fs w' !! p = fs w !! p.
Proof.
  apply (set_sdk_version_frame "a.out" (Samples.world_of "a.out" Samples.fat_universal2)
           _ 12 3 1).
  reflexivity.
Defined.

(** X9. The last write wins: after one successful
    [set_macos_sdk_version], a second one with a valid triplet succeeds and
    leaves exactly the file that second call alone would have left. *)
Theorem set_sdk_version_overwrites (path : string) (w w1 : World)
    (major minor revision major' minor' revision' : Z) :
  set_macos_sdk_version path major minor revision w = (Ok tt, w1) ->
  0 <= major' <= 255 -> 0 <= minor' <= 255 -> 0 <= revision' <= 255 ->
  exists w2,
    set_macos_sdk_version path major' minor' revision' w1 = (Ok tt, w2) /\
    set_macos_sdk_version path major' minor' revision' w = (Ok tt, w2).
Proof.
  intros Hrun HM HN HR.
  apply set_macos_sdk_version_ok_inv in Hrun
    as (_ & f & ft & h & sl & i & c & c1 & Hf & Hc & Hfind & Hset & Hpack & ->).
  set (x' := Z.lor (Z.lor (Z.shiftl major' 16) (Z.shiftl minor' 8)) revision').
  destruct (header_min_version_set_sdk h i c c1 _ Hfind Hset) as [Hfind1 _].
  destruct (set_sdk_keeps c c1 _ Hset) as (_ & _ & _ & _ & Hsame).
  assert (Hlook : commands h !! i = Some c).
  { apply find_version_cmd_inv in Hfind.
    assert (Hin : In (i, c) (where_ is_version_cmd (commands h))) by (rewrite Hfind; now left).
    now apply where_sound in Hin. }
  assert (Hc2 : exists c2, set_sdk c x' = Ok c2)
    by (destruct c; simpl in Hset |- *; try discriminate; eauto).
  destruct Hc2 as [c2 Hset2].
  assert (Hpack2 : forallb all_packable (set_commands h (<[i := c2]> (commands h)) :: sl)
                   = true).
  { cbn [forallb] in Hpack |- *. apply andb_true_iff in Hpack as [Hh Hsl].
    rewrite Hsl, andb_true_r. unfold all_packable in *. cbn [commands set_commands] in *.
    assert (Hc1 : packable c1 = true).
    { eapply forallb_lookup; [exact Hh|].
      apply list_lookup_insert_eq. eapply lookup_lt_Some; eassumption. }
    assert (Hp2 : packable c2 = true).
    { pose proof (packed_u32 major' minor' revision' HM HN HR) as Hx. fold x' in Hx.
      destruct c; simpl in Hset, Hset2; try discriminate;
        injection Hset as <-; injection Hset2 as <-; simpl in Hc1 |- *;
        rewrite !andb_true_iff in *; tauto. }
    rewrite <- (list_insert_insert_eq (commands h) i c2 c1).
    now apply forallb_insert. }
  set (h1 := set_commands h (<[i := c1]> (commands h))).
  set (f1 := {| st_size := st_size f; content := Image ft (h1 :: sl) |}).
  set (w1 := {| fs := <[path := f1]> (fs w); log := log w |}).
  assert (Hf1 : fs w1 !! path = Some f1) by apply lookup_insert_eq.
  set (h2 := set_commands h (<[i := c2]> (commands h))).
  set (f2 := {| st_size := st_size f; content := Image ft (h2 :: sl) |}).
  assert (Hh12 : set_commands h1 (<[i := c2]> (commands h1)) = h2).
  { unfold h1, h2, set_commands. cbn [commands offset header].
    now rewrite list_insert_insert_eq. }
  exists {| fs := <[path := f2]> (fs w); log := log w |}.
  split.
  - rewrite (set_macos_sdk_version_run path w1 major' minor' revision'
               f1 ft h1 sl i c1 c2 HM HN HR Hf1 eq_refl Hfind1)
      by (fold x'; now rewrite Hsame).
    rewrite Hh12.
    rewrite (MachO_write_ok path _ w1 f1 ft (h1 :: sl) Hf1 eq_refl).
    + cbn [fs log st_size headers w1 f1]. now rewrite insert_insert_eq.
    + exact Hpack2.
    + cbn [headers]. constructor; [|apply same_shape_refl].
      unfold same_shape. simpl. now rewrite !length_insert.
  - rewrite (set_macos_sdk_version_run path w major' minor' revision'
               f ft h sl i c c2 HM HN HR Hf Hc Hfind Hset2).
    rewrite (MachO_write_ok path _ w f ft (h :: sl) Hf Hc).
    + reflexivity.
    + exact Hpack2.
    + cbn [headers]. constructor; [|apply same_shape_refl].
      unfold same_shape. simpl. now rewrite length_insert.
Qed.

Lemma set_sdk_version_overwrites_witness :
  exists w2,
    set_macos_sdk_version "a.out" 10 15 7
      (snd (set_macos_sdk_version "a.out" 12 3 1
              (Samples.world_of "a.out" Samples.thin_x86_64)))
    = (Ok tt, w2) /\
    set_macos_sdk_version "a.out" 10 15 7 (Samples.world_of "a.out" Samples.thin_x86_64)
    = (Ok tt, w2).
Proof.
  apply (set_sdk_version_overwrites "a.out" (Samples.world_of "a.out" Samples.thin_x86_64)
           _ 12 3 1 10 15 7); [reflexivity|lia|lia|lia].
Defined.

(** X10. When the first slice has no version command, or more than one,
    reading the SDK version and writing a valid one both fail the
    finder's assertion, and nothing is written. *)
Theorem sdk_version_needs_one_command (path : string) (w : World) (f : File)
    ft (h : MachOHeader) (sl : list MachOHeader) (major minor revision : Z) :
  fs w !! path = Some f -> content f = Image ft (h :: sl) ->
  length (where_ is_version_cmd (commands h)) <> 1%nat ->
  0 <= major <= 255 -> 0 <= minor <= 255 -> 0 <= revision <= 255 ->
  let e := AssertionError
             "Expected exactly one LC_BUILD_VERSION or LC_VERSION_MIN_MACOSX command!" in
  get_macos_sdk_version path w = (Raise e, w) /\
  set_macos_sdk_version path major minor revision w = (Raise e, w).
Proof.
  intros Hf Hc Hlen HM HN HR e.
  pose proof (find_version_cmd_refuses h Hlen) as Hfind.
  destruct (valid_triplet_asserts major minor revision HM HN HR) as (A1 & A2 & A3).
  split.
  - unfold get_macos_sdk_version, bind at 1, MachO_load. rewrite Hf, Hc.
    rewrite bind_lift. cbn [headers]. unfold index. cbn [lookup list_lookup].
    rewrite bind_lift, Hfind. reflexivity.
  - unfold set_macos_sdk_version.
    rewrite bind_lift, A1. cbn [assert_]. rewrite bind_lift, A2. cbn [assert_].
    rewrite bind_lift, A3. cbn [assert_].
    unfold bind at 1. unfold MachO_load. rewrite Hf, Hc.
    rewrite bind_lift. cbn [headers]. unfold index. cbn [lookup list_lookup].
    rewrite bind_lift, Hfind. reflexivity.
Qed.

Lemma sdk_version_needs_one_command_witness :
  let e := AssertionError
             "Expected exactly one LC_BUILD_VERSION or LC_VERSION_MIN_MACOSX command!" in
  let w := Samples.world_of "a.out" BrokenSamples.thin_no_version in
  get_macos_sdk_version "a.out" w = (Raise e, w) /\
  set_macos_sdk_version "a.out" 12 3 1 w = (Raise e, w).
Proof.
  refine (sdk_version_needs_one_command "a.out"
            (Samples.world_of "a.out" BrokenSamples.thin_no_version)
            BrokenSamples.thin_no_version None _ [] 12 3 1 eq_refl eq_refl _ _ _ _);
    [simpl; discriminate | lia | lia | lia].
Defined.

(* ===================================================================== *)
(** * Further properties of the link-edit patcher *)
(* ===================================================================== *)

Section PatchedFinders.

Lemma is_linkedit_patched (F off vm : Z) (seg : segment_command_64) :
  is_linkedit (Segment64 (patched_segment F off vm seg)) = is_linkedit (Segment64 seg).
Proof. reflexivity. Qed.

(** In the patched slice every finder of the module selects what it
    selected before, with the two patched commands in the place of the
    old ones. *)
Lemma patched_finders (F vm : Z) (h : MachOHeader) i seg j sym :
  where_ is_linkedit (commands h) = [(i, Segment64 seg)] ->
  where_ is_symtab (commands h) = [(j, Symtab sym)] ->
  let h' := patched_slice F vm h i seg j sym in
  where_ is_linkedit (commands h') = [(i, Segment64 (patched_segment F (offset h) vm seg))] /\
  where_ is_symtab (commands h') = [(j, Symtab (patched_symtab F (offset h) sym))] /\
  where_ is_signature (commands h') = where_ is_signature (commands h) /\
  where_ is_version_cmd (commands h') = where_ is_version_cmd (commands h).
Proof.
  intros Hseg Hsym h'. subst h'. unfold patched_slice. cbn [commands set_commands].
  set (seg' := patched_segment F (offset h) vm seg).
  set (sym' := patched_symtab F (offset h) sym).
  destruct (patched_lookups (commands h) i seg j sym (Segment64 seg') (Symtab sym') Hseg Hsym)
    as (Hi & Hj & Hne & _ & _).
  assert (Hi2 : (<[j := Symtab sym']> (commands h)) !! i = Some (Segment64 seg))
    by (rewrite list_lookup_insert_ne by congruence; exact Hi).
  assert (Hlk : is_linkedit (Segment64 seg) = true).
  { assert (Hin : In (i, Segment64 seg) (where_ is_linkedit (commands h)))
      by (rewrite Hseg; now left).
    now apply where_sound in Hin. }
  repeat split.
  - apply where_insert_single with (c := Segment64 seg); [|exact Hlk].
    rewrite (where_insert_other is_linkedit _ j (Symtab sym) (Symtab sym')) by auto.
    exact Hseg.
  - rewrite (where_insert_other is_symtab _ i (Segment64 seg) (Segment64 seg')) by auto.
    now apply where_insert_single with (c := Symtab sym).
  - rewrite (where_insert_other is_signature _ i (Segment64 seg) (Segment64 seg')) by auto.
    now rewrite (where_insert_other is_signature _ j (Symtab sym) (Symtab sym')) by auto.
  - rewrite (where_insert_other is_version_cmd _ i (Segment64 seg) (Segment64 seg')) by auto.
    now rewrite (where_insert_other is_version_cmd _ j (Symtab sym) (Symtab sym')) by auto.
Qed.

Lemma index_last_insert {A} (l : list A) (x y : A) :
  index_last l = Ok x -> index_last (<[last_pos l := y]> l) = Ok y.
Proof.
  intros H. apply index_last_lookup in H as [Hl Hne].
  apply index_last_lookup. unfold last_pos in *. rewrite length_insert. split.
  - apply list_lookup_insert_eq. eapply lookup_lt_Some; eassumption.
  - intros E. apply (f_equal length) in E. rewrite length_insert in E.
    destruct l; [contradiction|discriminate].
Qed.

(** What a successful run has packed bounds the new segment size. *)
Lemma patched_sizes_bounds (F vm : Z) (h : MachOHeader) i seg j sym :
  where_ is_linkedit (commands h) = [(i, Segment64 seg)] ->
  where_ is_symtab (commands h) = [(j, Symtab sym)] ->
  all_packable (patched_slice F vm h i seg j sym) = true ->
  0 <= F - (offset h + fileoff seg) < 2 ^ 33 /\
  0 <= F - (offset h + stroff sym) < 2 ^ 32.
Proof.
  intros Hseg Hsym Hpack. unfold all_packable, patched_slice in Hpack.
  cbn [commands set_commands] in Hpack.
  destruct (patched_lookups (commands h) i seg j sym
              (Segment64 (patched_segment F (offset h) vm seg))
              (Symtab (patched_symtab F (offset h) sym)) Hseg Hsym)
    as (_ & _ & _ & Hi' & Hj').
  pose proof (forallb_lookup _ _ _ _ Hpack Hi') as Pseg.
  pose proof (forallb_lookup _ _ _ _ Hpack Hj') as Psym.
  apply packable_segment in Pseg. apply packable_symtab in Psym.
  cbn [patched_segment patched_symtab vmaddr vmsize fileoff filesize
       symoff nsyms stroff strsize] in Pseg, Psym.
  lia.
Qed.

End PatchedFinders.

Section PatcherShape.

(** A successful run of the patcher, taken apart: the checks it passed,
    the sizes it computed, and the world it left. *)
Lemma fix_exe_ok_shape (path : string) (w w' : World) :
  fix_exe_for_code_signing path w = (Ok tt, w') ->
  exists f ft sl h i seg j sym a,
    fs w !! path = Some f /\ content f = Image ft sl /\ index_last sl = Ok h /\
    where_ is_signature (commands h) = [] /\
    where_ is_linkedit (commands h) = [(i, Segment64 seg)] /\
    where_ is_symtab (commands h) = [(j, Symtab sym)] /\
    _get_arch_string (header h) = Ok a /\
    let n := st_size f - (offset h + fileoff seg) in
    let vm := - (- n / page_size_of a) * page_size_of a in
    let sl' := <[last_pos sl := patched_slice (st_size f) vm h i seg j sym]> sl in
    0 <= n < 2 ^ 33 /\
    0 <= st_size f - (offset h + stroff sym) < 2 ^ 32 /\
    forallb all_packable sl' = true /\
    exists ft',
      w' = {| fs := <[path := {| st_size := st_size f; content := Image ft' sl' |}]> (fs w);
              log := log w |} /\
      match ft with
      | None => ft' = None
      | Some (m, archs) =>
          exists arch,
            index_last archs = Ok arch /\
            forallb (packable_arch m) (patched_archs (st_size f) archs arch) = true /\
            ft' = Some (m, patched_archs (st_size f) archs arch)
      end.
Proof.
  intros Hrun.
  destruct (fix_exe_ok_checks path w w' Hrun)
    as (f & ft & sl & h & i & seg & j & sym & a & Hf & Hc & Hlast & Hsig & Hseg & Hsym & Harch).
  exists f, ft, sl, h, i, seg, j, sym, a.
  repeat (split; [assumption|]).
  destruct (proj1 (fix_exe_success path w w' f ft sl h i seg j sym a Hf Hc Hlast
                     Hsig Hseg Hsym Harch) Hrun) as (pages & Hceil & Hrest).
  cbv zeta in Hrest. destruct Hrest as [Hpack Hw']. cbv zeta.
  pose proof Hlast as Hlast'. apply index_last_lookup in Hlast' as [Hlook Hne].
  assert (Hh' : all_packable
                  (patched_slice (st_size f) (pages * page_size_of a) h i seg j sym) = true).
  { eapply forallb_lookup; [exact Hpack|].
    apply list_lookup_insert_eq. eapply lookup_lt_Some; eassumption. }
  destruct (patched_sizes_bounds _ _ h i seg j sym Hseg Hsym Hh') as [Hn Hs].
  pose proof (page_size_pos a) as Hpage.
  rewrite ceil_truediv_exact in Hceil by lia. injection Hceil as <-.
  repeat (split; [assumption || lia|]).
  destruct ft as [[m archs]|].
  - destruct Hw' as (arch & Harchs & Hp & ->). eexists. split; [reflexivity|]. eauto.
  - subst w'. eexists. split; reflexivity.
Qed.

End PatcherShape.



(** X12. The patcher is idempotent: run again on the file a successful
    run has left, it succeeds and changes nothing. *)
Theorem patch_idempotent (path : string) (w w' : World) :
  fix_exe_for_code_signing path w = (Ok tt, w') ->
  fix_exe_for_code_signing path w' = (Ok tt, w').
Proof.
  intros Hrun.
  destruct (fix_exe_ok_shape path w w' Hrun)
    as (f & ft & sl & h & i & seg & j & sym & a & Hf & Hc & Hlast & Hsig & Hseg & Hsym
        & Harch & Hshape).
  cbv zeta in Hshape. destruct Hshape as (Hn & Hs & Hpack & ft' & -> & Hft).
  set (F := st_size f) in *.
  set (n := F - (offset h + fileoff seg)) in *.
  set (vm := - (- n / page_size_of a) * page_size_of a) in *.
  set (h' := patched_slice F vm h i seg j sym) in *.
  set (sl' := <[last_pos sl := h']> sl) in *.
  set (f' := {| st_size := F; content := Image ft' sl' |}).
  destruct (patched_finders F vm h i seg j sym Hseg Hsym) as (Hseg' & Hsym' & Hsig' & _).
  fold h' in Hseg', Hsym', Hsig'. rewrite Hsig in Hsig'.
  assert (Hlast' : index_last sl' = Ok h') by now apply index_last_insert with (x := h).
  pose proof (page_size_pos a) as Hpage.
  apply (fix_exe_success path _ _ f' ft' sl' h' i _ j _ a
           (lookup_insert_eq _ _ _) eq_refl Hlast' Hsig' Hseg' Hsym' Harch).
  cbn [st_size f' offset h' patched_slice set_commands fileoff patched_segment].
  fold n. exists (- (- n / page_size_of a)).
  split; [apply ceil_truediv_exact; lia|]. fold vm. cbv zeta.
  assert (Hsame : patched_slice F vm h' i (patched_segment F (offset h) vm seg) j
                    (patched_symtab F (offset h) sym) = h').
  { destruct (patched_lookups (commands h) i seg j sym
                (Segment64 (patched_segment F (offset h) vm seg))
                (Symtab (patched_symtab F (offset h) sym)) Hseg Hsym)
      as (_ & _ & _ & Hi' & Hj').
    unfold h', patched_slice, set_commands. cbn [commands offset header].
    change (patched_segment F (offset h) vm (patched_segment F (offset h) vm seg))
      with (patched_segment F (offset h) vm seg).
    change (patched_symtab F (offset h) (patched_symtab F (offset h) sym))
      with (patched_symtab F (offset h) sym).
    rewrite (list_insert_id _ j _ Hj'), (list_insert_id _ i _ Hi'). reflexivity. }
  rewrite Hsame.
  assert (Hsl : <[last_pos sl' := h']> sl' = sl').
  { unfold sl', last_pos. rewrite length_insert. apply list_insert_insert_eq. }
  rewrite Hsl. split; [exact Hpack|].
  destruct ft as [[m archs]|].
  - destruct Hft as (arch & Harchs & Hp & ->).
    set (arch' := set_size arch (F - fa_offset arch)).
    assert (Hpa : patched_archs F (patched_archs F archs arch) arch' = patched_archs F archs arch).
    { unfold patched_archs, last_pos. rewrite length_insert.
      rewrite list_insert_insert_eq. reflexivity. }
    exists arch'. split; [unfold patched_archs; now apply index_last_insert with (x := arch)|].
    rewrite Hpa. split; [exact Hp|].
    cbn [fs log]. now rewrite insert_insert_eq.
  - subst ft'. cbn [fs log]. now rewrite insert_insert_eq.
Qed.

Lemma patch_idempotent_witness :
  fix_exe_for_code_signing "a.out"
    (snd (fix_exe_for_code_signing "a.out" (Samples.world_of "a.out" Samples.fat_universal2)))
  = (Ok tt,
     snd (fix_exe_for_code_signing "a.out" (Samples.world_of "a.out" Samples.fat_universal2))).
Proof.
  apply (patch_idempotent "a.out" (Samples.world_of "a.out" Samples.fat_universal2)).
  reflexivity.
Defined.

Section PatcherReaders.

Lemma reads_alike_insert (sl : list MachOHeader) (k : nat) (h h' : MachOHeader) :
  sl !! k = Some h -> reads_alike h' h -> Forall2 reads_alike (<[k := h']> sl) sl.
Proof.
  assert (Hrefl : forall l, Forall2 reads_alike l l)
    by (induction l; constructor; [split; reflexivity|assumption]).
  revert k. induction sl as [|x sl IH]; intros k; [discriminate|].
  destruct k as [|k]; simpl.
  - intros [= ->] Hs. constructor; [assumption|apply Hrefl].
  - intros Hl Hs. constructor; [split; reflexivity|]. now apply IH.
Qed.

Lemma collect_versions_alike (sl' sl : list MachOHeader) (acc : list Z) :
  Forall2 reads_alike sl' sl -> collect_versions sl' acc = collect_versions sl acc.
Proof.
  intros H. revert acc. induction H as [|h' h sl' sl [_ Hh] _ IH]; intros acc; simpl.
  - reflexivity.
  - unfold header_min_version. rewrite Hh.
    destruct (rbind (_find_version_cmd h) _); simpl; [apply IH|reflexivity].
Qed.

Lemma map_result_alike (sl' sl : list MachOHeader) :
  Forall2 reads_alike sl' sl ->
  map_result (fun hdr => _get_arch_string (header hdr)) sl'
  = map_result (fun hdr => _get_arch_string (header hdr)) sl.
Proof.
  induction 1 as [|h' h sl' sl [Hh _] _ IH]; simpl; [reflexivity|].
  now rewrite Hh, IH.
Qed.

Lemma readers_alike (path : string) (w w' : World) (f f' : File) ft ft' sl sl' :
  fs w !! path = Some f -> content f = Image ft sl ->
  fs w' !! path = Some f' -> content f' = Image ft' sl' ->
  Forall2 reads_alike sl' sl ->
  match ft', ft with Some _, Some _ | None, None => True | _, _ => False end ->
  fst (get_macos_sdk_version path w') = fst (get_macos_sdk_version path w) /\
  fst (macosx_version_min path w') = fst (macosx_version_min path w) /\
  fst (get_binary_architectures path w') = fst (get_binary_architectures path w).
Proof.
  intros Hf Hc Hf' Hc' Hsl Hft. repeat split.
  - unfold get_macos_sdk_version, bind, lift, ret, MachO_load.
    rewrite Hf, Hc, Hf', Hc'. cbn [headers]. unfold index.
    destruct Hsl as [|h' h sl' sl [_ Hh] _]; cbn [lookup list_lookup]; [reflexivity|].
    rewrite Hh. destruct (_find_version_cmd h) as [[i c]|e]; [|reflexivity].
    cbn [snd]. destruct (get_sdk c); reflexivity.
  - unfold macosx_version_min, bind, lift, MachO_load.
    rewrite Hf, Hc, Hf', Hc'. cbn [headers].
    rewrite (collect_versions_alike sl' sl [] Hsl).
    destruct (collect_versions sl []); reflexivity.
  - unfold get_binary_architectures, bind, lift, ret, except_ValueError, MachO_load.
    rewrite Hf, Hc, Hf', Hc'. cbn [headers fat].
    rewrite (map_result_alike sl' sl Hsl).
    destruct (map_result _ sl); [|reflexivity].
    destruct ft' as [[]|], ft as [[]|]; try contradiction; reflexivity.
Qed.

End PatcherReaders.

(** X13. The patcher changes nothing a reader reports: after a
    successful run the SDK version, the minimum OS version and the
    architectures of the binary are what they were. *)
Theorem patch_keeps_readers (path : string) (w w' : World) :
  fix_exe_for_code_signing path w = (Ok tt, w') ->
  fst (get_macos_sdk_version path w') = fst (get_macos_sdk_version path w) /\
  fst (macosx_version_min path w') = fst (macosx_version_min path w) /\
  fst (get_binary_architectures path w') = fst (get_binary_architectures path w).
Proof.
  intros Hrun.
  destruct (fix_exe_ok_shape path w w' Hrun)
    as (f & ft & sl & h & i & seg & j & sym & a & Hf & Hc & Hlast & Hsig & Hseg & Hsym
        & Harch & Hshape).
  cbv zeta in Hshape. destruct Hshape as (_ & _ & _ & ft' & -> & Hft).
  apply index_last_lookup in Hlast as [Hlook _].
  eapply (readers_alike path w _ f _ ft ft' sl _ Hf Hc).
  - cbn [fs]. apply lookup_insert_eq.
  - reflexivity.
  - apply reads_alike_insert with (h := h); [exact Hlook|].
    split; [reflexivity|].
    unfold _find_version_cmd.
    destruct (patched_finders (st_size f)
                (- (- (st_size f - (offset h + fileoff seg)) / page_size_of a) * page_size_of a)
                h i seg j sym Hseg Hsym) as (_ & _ & _ & Hv).
    now rewrite Hv.
  - destruct ft as [[m archs]|].
    + destruct Hft as (arch & _ & _ & ->). exact I.
    + now subst ft'.
Qed.

Lemma patch_keeps_readers_witness :
  let w := Samples.world_of "a.out" Samples.fat_universal2 in
  let w' := snd (fix_exe_for_code_signing "a.out" w) in
  fst (get_macos_sdk_version "a.out" w') = fst (get_macos_sdk_version "a.out" w) /\
  fst (macosx_version_min "a.out" w') = fst (macosx_version_min "a.out" w) /\
  fst (get_binary_architectures "a.out" w') = fst (get_binary_architectures "a.out" w).
Proof.
  apply (patch_keeps_readers "a.out" (Samples.world_of "a.out" Samples.fat_universal2)).
  reflexivity.
Defined.

Section PatcherWorlds.

Lemma same_elsewhere_refl (path : string) (w : World) : same_elsewhere path w w.
Proof. repeat split. Qed.

Lemma same_elsewhere_trans (path : string) (w1 w2 w3 : World) :
  same_elsewhere path w1 w2 -> same_elsewhere path w2 w3 -> same_elsewhere path w1 w3.
Proof.
  intros (L1 & O1 & S1) (L2 & O2 & S2). repeat split.
  - congruence.
  - intros p Hp. rewrite O2, O1 by assumption. reflexivity.
  - congruence.
Qed.

(** Rewriting the file at [path] with its size kept. *)
Lemma same_elsewhere_insert (path : string) (w : World) (f : File) (c : Content) :
  fs w !! path = Some f ->
  same_elsewhere path w
    {| fs := <[path := {| st_size := st_size f; content := c |}]> (fs w); log := log w |}.
Proof.
  intros Hf. repeat split; cbn [fs log].
  - intros p Hp. now apply lookup_insert_ne.
  - now rewrite lookup_insert_eq, Hf.
Qed.

Lemma MachO_write_elsewhere (path : string) (m : MachO) (w : World) :
  same_elsewhere path w (snd (MachO_write path m w)).
Proof.
  unfold MachO_write. destruct (fs w !! path) as [f|] eqn:Hf;
    [|apply same_elsewhere_refl].
  destruct (write_headers _ _) as [r sl]. cbn [snd].
  now apply same_elsewhere_insert.
Qed.

Lemma fix_fat_header_elsewhere (path : string) (F : Z) (w : World) :
  same_elsewhere path w (snd (fix_fat_header path F w)).
Proof.
  unfold fix_fat_header, bind at 1, read_fat.
  destruct (fs w !! path) as [f|] eqn:Hf; [|apply same_elsewhere_refl].
  destruct (fat_table_of (content f)) as [ft|]; [|apply same_elsewhere_refl].
  rewrite bind_lift. destruct (index_last (snd ft)); [|apply same_elsewhere_refl].
  unfold write_fat. rewrite Hf.
  destruct (write_seq _ _ _) as [r archs']. cbn [snd].
  now apply same_elsewhere_insert.
Qed.

(** The patcher either stops before it writes, or comes to its write of
    the slices, followed in a fat binary by the write of the fat table. *)
Lemma fix_exe_stops_or_writes (path : string) (w : World) :
  let out := fix_exe_for_code_signing path w in
  (exists r, out = (r, w) /\ r <> Ok tt) \/
  exists m F (is_fat : bool),
    out = bind (MachO_write path m)
            (fun _ => if is_fat then fix_fat_header path F else ret tt) w.
Proof.
  intros out0. subst out0.
  set (out := fix_exe_for_code_signing path w).
  assert (E : out = fix_exe_for_code_signing path w) by reflexivity.
  clearbody out. revert E.
  unfold fix_exe_for_code_signing.
  unfold bind at 1. unfold getsize.
  destruct (fs w !! path) as [f|] eqn:Hf;
    [|intros ->; left; eexists; split; [reflexivity|discriminate]].
  unfold bind at 1. unfold MachO_load. rewrite Hf.
  destruct (content f) as [|ft sl];
    [destruct (st_size f <? 4); intros ->; left; eexists;
     (split; [reflexivity|discriminate])|].
  rewrite bind_lift. cbn [headers].
  destruct (index_last sl) as [h|e];
    [|intros ->; left; eexists; split; [reflexivity|discriminate]].
  rewrite bind_lift.
  destruct (assert_ _ _) as [[]|e];
    [|intros ->; left; eexists; split; [reflexivity|discriminate]].
  rewrite bind_lift.
  destruct (assert_ _ _) as [[]|e];
    [|intros ->; left; eexists; split; [reflexivity|discriminate]].
  rewrite bind_lift.
  destruct (index _ _) as [lref|e];
    [|intros ->; left; eexists; split; [reflexivity|discriminate]].
  rewrite bind_lift.
  destruct (as_segment _) as [seg|e];
    [|intros ->; left; eexists; split; [reflexivity|discriminate]].
  rewrite bind_lift.
  destruct (assert_ _ _) as [[]|e];
    [|intros ->; left; eexists; split; [reflexivity|discriminate]].
  rewrite bind_lift.
  destruct (index _ _) as [sref|e];
    [|intros ->; left; eexists; split; [reflexivity|discriminate]].
  rewrite bind_lift.
  destruct (as_symtab _) as [sym|e];
    [|intros ->; left; eexists; split; [reflexivity|discriminate]].
  rewrite bind_lift.
  destruct (_get_arch_string _) as [a|e];
    [|intros ->; left; eexists; split; [reflexivity|discriminate]].
  rewrite bind_lift.
  destruct (ceil_truediv _ _) as [pages|e];
    [|intros ->; left; eexists; split; [reflexivity|discriminate]].
  intros ->. right. cbn [fat]. destruct ft as [ft0|].
  - eexists _, _, true. reflexivity.
  - eexists _, 0, false. reflexivity.
Qed.

End PatcherWorlds.

(** X14. Whatever the patcher returns or raises, it touches nothing but
    the contents of the file it was given: the log, every other file, and
    the size of the file itself are as they were. *)
Theorem patch_touches_one_file (path : string) (w : World) :
  same_elsewhere path w (snd (fix_exe_for_code_signing path w)).
Proof.
  destruct (fix_exe_stops_or_writes path w) as [(r & -> & _)|(m & F & is_fat & ->)];
    [apply same_elsewhere_refl|].
  unfold bind.
  pose proof (MachO_write_elsewhere path m w) as Hw.
  destruct (MachO_write path m w) as [[[]|e] w1]; cbn [snd] in *; [|exact Hw].
  destruct is_fat; [|exact Hw].
  eapply same_elsewhere_trans; [exact Hw|apply fix_fat_header_elsewhere].
Qed.

(** X15. A binary the patcher refuses is never half-patched: when the
    call fails on an assertion (signature present, not exactly one
    __LINKEDIT segment or symbol table, unhandled architecture), nothing
    has been written. *)
Theorem patch_refusal_writes_nothing (path : string) (w : World) (msg : string) :
  fst (fix_exe_for_code_signing path w) = Raise (AssertionError msg) ->
  snd (fix_exe_for_code_signing path w) = w.
Proof.
  destruct (fix_exe_stops_or_writes path w) as [(r & -> & _)|(m & F & is_fat & ->)];
    [reflexivity|].
  unfold bind.
  pose proof (MachO_write_exn path m w) as Hw.
  destruct (MachO_write path m w) as [[[]|e] w1]; cbn [fst snd] in *.
  - destruct is_fat; [|unfold ret; discriminate].
    pose proof (fix_fat_header_exn path F w1) as Hfat.
    destruct (fix_fat_header path F w1) as [[[]|e] w2]; cbn [fst snd] in *;
      [discriminate|].
    intros [= ->]. destruct (Hfat _ eq_refl) as [H|[H|[H|H]]]; discriminate.
  - intros [= ->]. destruct (Hw _ eq_refl) as [H|H]; discriminate.
Qed.

Lemma patch_refusal_writes_nothing_witness :
  snd (fix_exe_for_code_signing "a.out" (Samples.world_of "a.out" Samples.thin_signed))
  = Samples.world_of "a.out" Samples.thin_signed.
Proof.
  apply (patch_refusal_writes_nothing "a.out" _ signed_msg). reflexivity.
Defined.

(** X16. The checks of the patcher come in this order on an unsigned last
    slice: not exactly one __LINKEDIT segment is reported first, then not
    exactly one symbol table, then an architecture the resolver does not
    handle; each is an assertion failure with its own message. *)
Theorem patch_refusals_in_order (path : string) (w : World) (f : File)
    ft (sl : list MachOHeader) (h : MachOHeader) :
  fs w !! path = Some f -> content f = Image ft sl -> index_last sl = Ok h ->
  ~ has_signature h ->
  let linkedits := length (where_ is_linkedit (commands h)) in
  let symtabs := length (where_ is_symtab (commands h)) in
  (linkedits <> 1%nat ->
   fix_exe_for_code_signing path w
   = (Raise (AssertionError "Expected exactly one __LINKEDIT segment!"), w)) /\
  (linkedits = 1%nat -> symtabs <> 1%nat ->
   fix_exe_for_code_signing path w
   = (Raise (AssertionError "Expected exactly one SYMTAB section!"), w)) /\
  (linkedits = 1%nat -> symtabs = 1%nat ->
   (forall a, _get_arch_string (header h) <> Ok a) ->
   fix_exe_for_code_signing path w
   = (Raise (AssertionError "Unhandled architecture!"), w)).
Proof.
  intros Hf Hc Hlast Hsig linkedits symtabs. subst linkedits symtabs.
  apply has_signature_where in Hsig.
  repeat split.
  - intros Hl. apply Nat.eqb_neq in Hl.
    unfold fix_exe_for_code_signing.
    unfold bind at 1. unfold getsize. rewrite Hf.
    unfold bind at 1. unfold MachO_load. rewrite Hf, Hc.
    rewrite bind_lift. cbn [headers]. rewrite Hlast.
    rewrite bind_lift, Hsig. cbn [length Nat.eqb assert_].
    rewrite bind_lift, Hl. reflexivity.
  - intros Hl Hs. apply Nat.eqb_neq in Hs. apply Nat.eqb_eq in Hl.
    unfold fix_exe_for_code_signing.
    unfold bind at 1. unfold getsize. rewrite Hf.
    unfold bind at 1. unfold MachO_load. rewrite Hf, Hc.
    rewrite bind_lift. cbn [headers]. rewrite Hlast.
    rewrite bind_lift, Hsig. cbn [length Nat.eqb assert_].
    rewrite bind_lift, Hl. cbn [assert_].
    apply where_linkedit_one in Hl as (i & seg & Hseg).
    rewrite bind_lift, Hseg. unfold index at 1. cbn [lookup list_lookup].
    rewrite bind_lift. cbn [snd as_segment].
    rewrite bind_lift, Hs. reflexivity.
  - intros Hl Hs Ha. apply Nat.eqb_eq in Hl, Hs.
    apply where_linkedit_one in Hl as (i & seg & Hseg).
    apply where_symtab_one in Hs as (j & sym & Hsym).
    destruct (_get_arch_string (header h)) as [a|e] eqn:Harch; [now destruct (Ha a)|].
    apply get_arch_string_exn in Harch as He. subst e.
    unfold fix_exe_for_code_signing.
    unfold bind at 1. unfold getsize. rewrite Hf.
    unfold bind at 1. unfold MachO_load. rewrite Hf, Hc.
    rewrite bind_lift. cbn [headers]. rewrite Hlast.
    rewrite bind_lift, Hsig. cbn [length Nat.eqb assert_].
    rewrite bind_lift, Hseg. cbn [length Nat.eqb assert_].
    rewrite bind_lift. unfold index at 1. cbn [lookup list_lookup].
    rewrite bind_lift. cbn [snd as_segment].
    rewrite bind_lift, Hsym. cbn [length Nat.eqb assert_].
    rewrite bind_lift. unfold index at 1. cbn [lookup list_lookup].
    rewrite bind_lift. cbn [snd as_symtab].
    rewrite bind_lift, Harch. reflexivity.
Qed.

Lemma patch_refusals_in_order_witness :
  fix_exe_for_code_signing "a.out" (Samples.world_of "a.out" BrokenSamples.thin_two_linkedit)
  = (Raise (AssertionError "Expected exactly one __LINKEDIT segment!"),
     Samples.world_of "a.out" BrokenSamples.thin_two_linkedit) /\
  fix_exe_for_code_signing "a.out" (Samples.world_of "a.out" BrokenSamples.thin_no_symtab)
  = (Raise (AssertionError "Expected exactly one SYMTAB section!"),
     Samples.world_of "a.out" BrokenSamples.thin_no_symtab).
Proof.
  split.
  - refine (proj1 (patch_refusals_in_order "a.out"
                     (Samples.world_of "a.out" BrokenSamples.thin_two_linkedit)
                     BrokenSamples.thin_two_linkedit None _ _ eq_refl eq_refl eq_refl _) _).
    + intros [l Hl]. simpl in Hl. intuition discriminate.
    + simpl. discriminate.
  - refine (proj1 (proj2 (patch_refusals_in_order "a.out"
                     (Samples.world_of "a.out" BrokenSamples.thin_no_symtab)
                     BrokenSamples.thin_no_symtab None _ _ eq_refl eq_refl eq_refl _)) _ _).
    + intros [l Hl]. simpl in Hl. intuition discriminate.
    + reflexivity.
    + simpl. discriminate.
Defined.

(* ===================================================================== *)
(** * The codesign helpers *)
(* ===================================================================== *)

(** X17. Both codesign helpers log one debug line and run the tool once.
    [remove_signature_from_binary] runs [codesign --remove
    --all-architectures file]; [sign_binary] runs [codesign -s identity
    --force --all-architectures --timestamp ... file], with [-] as
    identity and no [--options=runtime] when no identity is given,
    [--entitlements file] only when an entitlements file is given and
    [--deep] only when asked for. A zero exit status returns normally in
    the world the tool left; any other status is logged in a warning with
    the command line and raised as [SystemError "codesign failure!"]. *)
Theorem codesign_helpers (exec : list string -> M (Z * string * string))
    (filename : string) (identity entitlements_file : option string) (deep : bool)
    (w : World) :
  remove_signature_from_binary exec filename w
  = codesign_outcome (remove_signature_args filename)
      (exec (remove_signature_args filename)
         (with_debug "Removing signature from file %r" [filename] w)) /\
  sign_binary exec filename identity entitlements_file deep w
  = codesign_outcome (sign_args filename identity entitlements_file deep)
      (exec (sign_args filename identity entitlements_file deep)
         (with_debug "Signing file %r" [filename] w)).
Proof.
  split.
  - unfold remove_signature_from_binary, bind at 1, logger_emit at 1.
    fold (remove_signature_args filename).
    fold (with_debug "Removing signature from file %r" [filename] w).
    unfold bind at 1.
    destruct (exec _ _) as [[[[rc out] err]|e] w1]; [|reflexivity].
    unfold codesign_check, codesign_outcome.
    destruct (rc =? 0); reflexivity.
  - unfold sign_binary, sign_args.
    destruct (falsy identity), (falsy entitlements_file), deep; cbn [negb app];
      unfold bind at 1, logger_emit at 1;
      fold (with_debug "Signing file %r" [filename] w);
      unfold bind at 1;
      (destruct (exec _ _) as [[[[rc out] err]|e] w1]; [|reflexivity]);
      unfold codesign_check, codesign_outcome;
      destruct (rc =? 0); reflexivity.
Qed.

(* ===================================================================== *)
(** * Package-manager prefixes *)
(* ===================================================================== *)

Section DirnameFacts.

Lemma append_cons (c : ascii) (a b : string) :
  (String c a ++ b)%string = String c (a ++ b).
Proof. reflexivity. Qed.

Lemma rfind_from_no_sep (k : Z) (s : string) (found : Z) :
  no_sep s = true -> rfind_from k s found = found.
Proof.
  revert k found. induction s as [|c s IH]; intros k found; simpl; [reflexivity|].
  intros [Hc Hs]%andb_true_iff. apply negb_true_iff in Hc. rewrite Hc. now apply IH.
Qed.

(** The last slash of [a/b], when [b] has none. *)
Lemma rfind_from_split (k : Z) (a b : string) (found : Z) :
  no_sep b = true ->
  rfind_from k (a ++ String "/" b) found = k + Z.of_nat (String.length a).
Proof.
  intros Hb. revert k found. induction a as [|c a IH]; intros k found.
  - change ("" ++ String "/" b)%string with (String "/" b). cbn [rfind_from Ascii.eqb Bool.eqb].
    rewrite rfind_from_no_sep by assumption. cbn [String.length]. lia.
  - rewrite append_cons. cbn [rfind_from String.length]. rewrite IH. lia.
Qed.

Lemma substring_prefix (a b : string) :
  String.substring 0 (String.length a) (a ++ b) = a.
Proof.
  induction a as [|c a IH].
  - destruct b; reflexivity.
  - rewrite append_cons. cbn [String.length String.substring]. now rewrite IH.
Qed.

Lemma append_assoc (a b c : string) : ((a ++ b) ++ c = a ++ (b ++ c))%string.
Proof.
  induction a as [|x a IH]; [reflexivity|].
  rewrite !append_cons. f_equal. exact IH.
Qed.

Lemma ends_in_name_append (a b : string) :
  b <> "" -> ends_in_name (a ++ b) = ends_in_name b.
Proof.
  intros Hb. induction a as [|c a IH]; [reflexivity|].
  rewrite append_cons. cbn [ends_in_name]. rewrite <- IH.
  destruct (a ++ b)%string eqn:E; [|reflexivity].
  destruct a; [contradiction|discriminate].
Qed.

Lemma no_sep_ends_in_name (s : string) :
  no_sep s = true -> s <> "" -> ends_in_name s = true.
Proof.
  induction s as [|c s IH]; [contradiction|]. simpl.
  intros [Hc Hs]%andb_true_iff _. destruct s as [|d s]; [exact Hc|].
  apply IH; [exact Hs|discriminate].
Qed.

Lemma all_sep_ends_in_name (a b : string) :
  ends_in_name a = true -> all_sep (a ++ b) = false.
Proof.
  induction a as [|c a IH]; [discriminate|].
  destruct a as [|d a].
  - intros Hc. rewrite append_cons. cbn [ends_in_name all_sep] in *.
    apply negb_true_iff in Hc. now rewrite Hc.
  - intros H. rewrite append_cons.
    cbn [all_sep]. rewrite (IH H). apply andb_false_r.
Qed.

Lemma rstrip_sep_slash (a : string) : rstrip_sep (a ++ "/") = rstrip_sep a.
Proof.
  induction a as [|c a IH]; [reflexivity|].
  rewrite append_cons. cbn [rstrip_sep]. now rewrite IH.
Qed.

Lemma rstrip_sep_name (a : string) : ends_in_name a = true -> rstrip_sep a = a.
Proof.
  induction a as [|c a IH]; [discriminate|].
  destruct a as [|d a].
  - simpl. intros Hc. apply negb_true_iff in Hc. now rewrite Hc.
  - intros H. change (rstrip_sep (String c (String d a)))
      with (let r := rstrip_sep (String d a) in
            if Ascii.eqb c "/" && String.eqb r "" then EmptyString else String c r).
    rewrite (IH H). cbv zeta. cbn [String.eqb]. now rewrite andb_false_r.
Qed.

(** [dirname] of [a/b] is [a], when [b] is one component and [a] does not
    end in a slash. *)
Lemma dirname_split (a b : string) :
  ends_in_name a = true -> no_sep b = true ->
  dirname (a ++ String "/" b) = a.
Proof.
  intros Ha Hb. unfold dirname, rfind_sep.
  rewrite rfind_from_split by assumption.
  replace (Z.to_nat (0 + Z.of_nat (String.length a) + 1))
    with (String.length (a ++ "/")).
  2:{ assert (Hlen : forall x y, String.length (x ++ y) = (String.length x + String.length y)%nat)
        by (induction x; simpl; intros; [reflexivity|now rewrite IHx]).
      rewrite Hlen. simpl. lia. }
  replace (a ++ String "/" b)%string with ((a ++ "/") ++ b)%string
    by (rewrite append_assoc; reflexivity).
  rewrite substring_prefix.
  rewrite (all_sep_ends_in_name a "/" Ha). cbn [negb andb].
  assert (Hne : String.eqb (a ++ "/") "" = false)
    by (destruct a; reflexivity).
  rewrite Hne. cbn [negb andb].
  rewrite rstrip_sep_slash. now apply rstrip_sep_name.
Qed.

(** The prefix of a tool installed as [prefix/dir/name]. *)
Lemma tool_prefix_found (which : string -> option string) (tool prefix dir name : string) :
  which tool = Some (prefix ++ "/" ++ dir ++ "/" ++ name)%string ->
  ends_in_name prefix = true -> no_sep dir = true -> dir <> "" -> no_sep name = true ->
  tool_prefix which tool = Returned prefix.
Proof.
  intros Hw Hp Hd Hne Hn. unfold tool_prefix. rewrite Hw. f_equal.
  replace (prefix ++ "/" ++ dir ++ "/" ++ name)%string
    with ((prefix ++ "/" ++ dir) ++ String "/" name)%string
    by (rewrite !append_assoc; reflexivity).
  rewrite dirname_split; [|rewrite ends_in_name_append|assumption].
  - apply dirname_split; assumption.
  - rewrite ends_in_name_append by assumption. now apply no_sep_ends_in_name.
  - destruct dir; discriminate.
Qed.

End DirnameFacts.

(** X18. With [brew] found at [prefix/dir/brew] (as in
    [/usr/local/bin/brew]), [get_homebrew_prefix] returns [prefix], and
    [is_homebrew_env] tells whether the interpreter's [base_prefix] starts
    with it; the same holds of [port], [get_macports_prefix] and
    [is_macports_env]. *)
Theorem package_manager_prefix (which : string -> option string)
    (base_prefix tool prefix dir : string) :
  tool = "brew" \/ tool = "port" ->
  which tool = Some (prefix ++ "/" ++ dir ++ "/" ++ tool)%string ->
  ends_in_name prefix = true -> no_sep dir = true -> dir <> "" ->
  (tool = "brew" ->
   get_homebrew_prefix which = Returned prefix /\
   is_homebrew_env which base_prefix = Returned (startswith base_prefix prefix)) /\
  (tool = "port" ->
   get_macports_prefix which = Returned prefix /\
   is_macports_env which base_prefix = Returned (startswith base_prefix prefix)).
Proof.
  intros Htool Hw Hp Hd Hne.
  assert (Hname : no_sep tool = true) by (destruct Htool as [-> | ->]; reflexivity).
  pose proof (tool_prefix_found which tool prefix dir tool Hw Hp Hd Hne Hname) as Hfound.
  assert (Hnonempty : String.eqb prefix "" = false) by (destruct prefix; [discriminate|reflexivity]).
  split; intros ->.
  - unfold is_homebrew_env, get_homebrew_prefix. rewrite Hfound.
    split; [reflexivity|]. unfold prefix_matches. now rewrite Hnonempty.
  - unfold is_macports_env, get_macports_prefix. rewrite Hfound.
    split; [reflexivity|]. unfold prefix_matches. now rewrite Hnonempty.
Qed.

Lemma package_manager_prefix_witness :
  let which := fun tool : string =>
                 if String.eqb tool "brew" then Some "/opt/homebrew/bin/brew" else None in
  ("brew" = "brew" ->
   get_homebrew_prefix which = Returned "/opt/homebrew" /\
   is_homebrew_env which "/opt/homebrew/Cellar/python@3.9/3.9.7/Frameworks"
   = Returned (startswith "/opt/homebrew/Cellar/python@3.9/3.9.7/Frameworks" "/opt/homebrew")) /\
  ("brew" = "port" ->
   get_macports_prefix which = Returned "/opt/homebrew" /\
   is_macports_env which "/opt/homebrew/Cellar/python@3.9/3.9.7/Frameworks"
   = Returned (startswith "/opt/homebrew/Cellar/python@3.9/3.9.7/Frameworks" "/opt/homebrew")).
Proof.
  exact (package_manager_prefix
           (fun tool : string =>
              if String.eqb tool "brew" then Some "/opt/homebrew/bin/brew" else None)
           "/opt/homebrew/Cellar/python@3.9/3.9.7/Frameworks" "brew" "/opt/homebrew" "bin"
           (or_introl eq_refl) eq_refl eq_refl eq_refl ltac:(discriminate)).
Defined.

(** X19. [is_homebrew_env] and [get_homebrew_prefix] raise [TypeError]
    exactly when [brew] is not on the search path, and [is_macports_env]
    and [get_macports_prefix] exactly when [port] is not: the module does
    not answer [False] for a missing package manager. *)
Theorem missing_package_manager_raises (which : string -> option string)
    (base_prefix : string) :
  (is_homebrew_env which base_prefix = RaisedTypeError <-> which "brew" = None) /\
  (get_homebrew_prefix which = RaisedTypeError <-> which "brew" = None) /\
  (is_macports_env which base_prefix = RaisedTypeError <-> which "port" = None) /\
  (get_macports_prefix which = RaisedTypeError <-> which "port" = None).
Proof.
  unfold is_homebrew_env, is_macports_env, get_homebrew_prefix, get_macports_prefix,
    tool_prefix.
  destruct (which "brew"), (which "port"); repeat split; intros; congruence.
Qed.

(* ===================================================================== *)
(** * More on the minimum OS version and on the page size *)
(* ===================================================================== *)

Section MinOrderFacts.

Lemma triplet_le_antisym (a b : triplet) : triplet_le a b -> triplet_le b a -> a = b.
Proof.
  destruct a as [[a1 a2] a3], b as [[b1 b2] b3]. unfold triplet_le.
  intros H1 H2. repeat f_equal; lia.
Qed.

(** The one failure of the loop body is the finder's assertion. *)
Lemma header_min_version_exn (h : MachOHeader) (e : exn) :
  header_min_version h = Raise e ->
  e = AssertionError
        "Expected exactly one LC_BUILD_VERSION or LC_VERSION_MIN_MACOSX command!".
Proof.
  unfold header_min_version.
  destruct (_find_version_cmd h) as [[i c]|e0] eqn:Hfind; simpl.
  - apply find_version_cmd_inv in Hfind.
    assert (Hin : In (i, c) (where_ is_version_cmd (commands h))) by (rewrite Hfind; now left).
    apply where_sound in Hin as [_ Hc].
    destruct c; simpl in *; discriminate.
  - intros [= <-]. revert Hfind. unfold _find_version_cmd, assert_.
    destruct (length _ =? 1)%nat eqn:E; simpl.
    + apply length_one in E as [x ->]. discriminate.
    + now intros [= <-].
Qed.

(** The loop of [macosx_version_min] is a map over the slices. *)
Lemma collect_versions_map (sl : list MachOHeader) (acc : list Z) :
  collect_versions sl acc =
  rbind (map_result header_min_version sl) (fun vs => Ok (acc ++ vs)%list).
Proof.
  revert acc. induction sl as [|h sl IH]; intros acc; simpl.
  - now rewrite app_nil_r.
  - destruct (header_min_version h) as [v|e]; simpl; [|reflexivity].
    rewrite IH. destruct (map_result header_min_version sl); simpl; [|reflexivity].
    now rewrite <- app_assoc.
Qed.

Lemma map_result_perm (sl sl' : list MachOHeader) :
  Permutation sl sl' ->
  perm_result (map_result header_min_version sl) (map_result header_min_version sl').
Proof.
  assert (Hrefl : forall r : result (list Z), perm_result r r)
    by (intros [l|e]; simpl; reflexivity).
  induction 1 as [|h sl sl' Hp IH|h1 h2 sl|sl1 sl2 sl3 _ IH1 _ IH2]; simpl.
  - constructor.
  - destruct (header_min_version h) as [v|e]; simpl; [|reflexivity].
    destruct (map_result _ sl), (map_result _ sl'); simpl in *; try tauto.
    now constructor.
  - destruct (header_min_version h1) as [v1|e1] eqn:E1,
             (header_min_version h2) as [v2|e2] eqn:E2; simpl.
    + destruct (map_result _ sl); simpl; [apply perm_swap|reflexivity].
    + reflexivity.
    + reflexivity.
    + apply header_min_version_exn in E1, E2. congruence.
  - destruct (map_result _ sl1), (map_result _ sl2), (map_result _ sl3);
      simpl in *; try tauto; [etransitivity; eassumption|congruence].
Qed.

Lemma min_perm (l l' : list triplet) : Permutation l l' -> Py.min l = Py.min l'.
Proof.
  intros Hp. destruct l as [|x l], l' as [|x' l'].
  - reflexivity.
  - apply Permutation_nil_l in Hp. discriminate.
  - apply Permutation_nil_r in Hp. discriminate.
  - simpl. f_equal.
    destruct (min_from_spec l x) as [Hin Hle].
    destruct (min_from_spec l' x') as [Hin' Hle'].
    apply triplet_le_antisym.
    + apply Hle. eapply Permutation_in; [symmetry; exact Hp|exact Hin'].
    + apply Hle'. eapply Permutation_in; [exact Hp|exact Hin].
Qed.

End MinOrderFacts.

(** X20. The minimum OS version does not depend on the order of the
    slices: two binaries whose slices are a permutation of each other
    give the same result, and fail alike when a slice has no single
    version command. *)
Theorem macosx_version_min_any_order (path : string) (w w' : World) (f f' : File)
    ft ft' (sl sl' : list MachOHeader) :
  fs w !! path = Some f -> content f = Image ft sl ->
  fs w' !! path = Some f' -> content f' = Image ft' sl' ->
  Permutation sl sl' ->
  fst (macosx_version_min path w) = fst (macosx_version_min path w').
Proof.
  intros Hf Hc Hf' Hc' Hp.
  unfold macosx_version_min, bind, lift, MachO_load. rewrite Hf, Hc, Hf', Hc'.
  cbn [headers]. rewrite !collect_versions_map.
  pose proof (map_result_perm sl sl' Hp) as Hr.
  destruct (map_result _ sl) as [vs|e], (map_result _ sl') as [vs'|e'];
    simpl in *; try tauto; [|now subst].
  apply min_perm. now apply Permutation_map.
Qed.

Lemma macosx_version_min_any_order_witness :
  fst (macosx_version_min "a.out" (Samples.world_of "a.out" Samples.fat_universal2))
  = fst (macosx_version_min "a.out"
           (Samples.world_of "a.out"
              {| st_size := 0x19000;
                 content := Image None [Samples.arm64_slice 0x10000;
                                        Samples.x86_64_slice 0x4000] |})).
Proof.
  eapply (macosx_version_min_any_order "a.out" _ _ Samples.fat_universal2 _ _ _
            [Samples.x86_64_slice 0x4000; Samples.arm64_slice 0x10000]
            [Samples.arm64_slice 0x10000; Samples.x86_64_slice 0x4000]);
    [reflexivity | reflexivity | reflexivity | reflexivity | apply perm_swap].
Defined.




